(** * image-to: canvas transformations, batch pipelines and the conversion route

    A shallow embedding of the transformation logic of the four pages of the
    application (collage, resize, compress, convert) and of the properties
    the specification states about them.

    Conventions of the embedding.
    - A JavaScript [number] that holds a pixel count (an intrinsic image
      size, a [parseInt] result) is a [Z].  The arithmetic of the resizer
      is in double precision: [JS.Number] is the binary64 format and
      [JS.fl] its rounding, to nearest with ties to even, with overflow to
      an infinity and gradual underflow; the sign of zero is not kept.  The
      crop of the collage cells and the quality factors are rationals [Q]
      whose arithmetic is exact; they are compared with [==].
    - A value that may be [undefined], [null] or the empty string is an
      [option].
    - What the browser decides (whether a 2D context is obtained, whether an
      image decodes, whether [toBlob] yields a blob for the canvas at hand,
      which image types it encodes) is read from the arguments of the
      embedded functions.
    - A canvas has the size the browser gives it: the number assigned to
      [width] or [height] is truncated, taken modulo 2^32, and replaced by
      the default (300, 150) when that is above 2^31 - 1.
    - An archive is what JSZip keeps of the [zip.file] calls: one entry per
      name, a later call replacing the data of an earlier one of the same
      name. *)

From Stdlib Require Import ZArith QArith Qreduction Qround Qminmax Qpower.
From Stdlib Require Import Lia Lqa.
From Stdlib Require Qcanon.
From Stdlib Require Import Ascii String.
From stdpp Require Import base list gmap strings pretty.

Local Open Scope Z_scope.

(** ** JavaScript arithmetic *)

Module JS.

(** [Math.round]: the nearest integer, halves rounded up. *)
Definition Math_round (x : Q) : Z := Qfloor (x + (1 # 2))%Q.

(** [Math.ceil]. *)
Definition Math_ceil (x : Q) : Z := Qceiling x.

(** [Math.max] and [Math.min] on two arguments. *)
Definition Math_max (x y : Q) : Q := if Qle_bool x y then y else x.
Definition Math_min (x y : Q) : Q := if Qle_bool x y then x else y.

(** Truthiness of an optional number: [undefined] and [0] are falsy. *)
Definition truthy (n : option Z) : bool :=
  match n with
  | Some v => negb (v =? 0)
  | None => false
  end.

(** [a || b] where [a] may be [undefined] and [b] is a number. *)
Definition or_else (a : option Z) (b : Z) : Z :=
  match a with
  | Some v => if v =? 0 then b else v
  | None => b
  end.

(** The value of an optional number when it is truthy. *)
Definition nonzero (n : option Z) : option Z :=
  match n with
  | Some v => if v =? 0 then None else Some v
  | None => None
  end.

(** [s.split(sep)] for a one-character separator. *)
Fixpoint split (sep : ascii) (s : string) : list string :=
  match s with
  | EmptyString => [EmptyString]
  | String c r =>
      if Ascii.eqb c sep then EmptyString :: split sep r
      else match split sep r with
           | h :: t => String c h :: t
           | [] => [String c EmptyString]
           end
  end.

(** [parts.join(sep)]. *)
Fixpoint join (sep : string) (parts : list string) : string :=
  match parts with
  | [] => EmptyString
  | [p] => p
  | p :: rest => p +:+ sep +:+ join sep rest
  end.

(** [s.toLowerCase()] on ASCII text. *)
Definition lower_ascii (c : ascii) : ascii :=
  let n := nat_of_ascii c in
  if (65 <=? n)%nat && (n <=? 90)%nat then ascii_of_nat (n + 32) else c.

Fixpoint toLowerCase (s : string) : string :=
  match s with
  | EmptyString => EmptyString
  | String c r => String (lower_ascii c) (toLowerCase r)
  end.

(** [s.includes(sub)]. *)
Fixpoint includes (sub s : string) : bool :=
  String.prefix sub s ||
  match s with
  | EmptyString => false
  | String _ r => includes sub r
  end.

(** [arr.some((x, i) => p x i)], scanning from index [i]. *)
Fixpoint some_from {A} (p : A → nat → bool) (i : nat) (arr : list A)
    : bool :=
  match arr with
  | [] => false
  | x :: rest => p x i || some_from p (S i) rest
  end.

Definition some {A} (p : A → nat → bool) (arr : list A) : bool :=
  some_from p 0 arr.

(** A number, possibly [undefined], inside a template literal. *)
Definition show (n : option Z) : string :=
  match n with
  | Some v => pretty v
  | None => "undefined"
  end.

(** *** Double precision

    A [number] is a binary64 value: a rational with a 53-bit significand
    and an exponent between -1022 and 1023, an infinity, or [NaN]. *)
Inductive Number :=
| Finite (q : Q)
| Infinity (negative : bool)
| NaN.

(** The exponent [e] with [2^e <= x < 2^(e+1)], for a positive [x]. *)
Definition binade (x : Q) : Z :=
  let e0 := Z.log2 (Qnum x) - Z.log2 (Z.pos (Qden x)) in
  if Qle_bool (2 ^ e0) x then e0 else e0 - 1.

(** The nearest integer, a tie going to the even one. *)
Definition round_even (y : Q) : Z :=
  let f := Qfloor y in
  match (y - inject_Z f ?= 1 # 2)%Q with
  | Lt => f
  | Gt => f + 1
  | Eq => if Z.even f then f else f + 1
  end.

(** The unit in the last place of the doubles around a positive [x]. *)
Definition ulp (x : Q) : Q := (2 ^ (Z.max (binade x) (-1022) - 52))%Q.

(** The double nearest to a positive rational. *)
Definition round_pos (x : Q) : Number :=
  let q := (inject_Z (round_even (x / ulp x)) * ulp x)%Q in
  if Qle_bool (2 ^ 1024) q then Infinity false else Finite (Qred q).

Definition neg (n : Number) : Number :=
  match n with
  | Finite q => Finite (Qred (- q))
  | Infinity s => Infinity (negb s)
  | NaN => NaN
  end.

(** The double nearest to a rational: what an arithmetic operation
    returns for its exact result. *)
Definition fl (x : Q) : Number :=
  let x := Qred x in
  match (x ?= 0)%Q with
  | Eq => Finite 0
  | Gt => round_pos x
  | Lt => neg (round_pos (- x))
  end.

(** An integer as a [number]. *)
Definition of_Z (z : Z) : Number := fl (inject_Z z).

Definition is_negative (x : Q) : bool := negb (Qle_bool 0 x).

(** [a / b]. *)
Definition num_div (a b : Number) : Number :=
  match a, b with
  | NaN, _ | _, NaN => NaN
  | Infinity _, Infinity _ => NaN
  | Infinity s, Finite y => Infinity (xorb s (is_negative y))
  | Finite _, Infinity _ => Finite 0
  | Finite x, Finite y =>
      if Qeq_bool y 0 then
        if Qeq_bool x 0 then NaN else Infinity (is_negative x)
      else fl (x / y)
  end.

(** [a * b]. *)
Definition num_mul (a b : Number) : Number :=
  match a, b with
  | NaN, _ | _, NaN => NaN
  | Infinity s, Infinity t => Infinity (xorb s t)
  | Infinity s, Finite y | Finite y, Infinity s =>
      if Qeq_bool y 0 then NaN else Infinity (xorb s (is_negative y))
  | Finite x, Finite y => fl (x * y)
  end.

(** [a <= b]; false when either is [NaN]. *)
Definition num_le (a b : Number) : bool :=
  match a, b with
  | NaN, _ | _, NaN => false
  | Infinity true, _ | _, Infinity false => true
  | Infinity false, _ | _, Infinity true => false
  | Finite x, Finite y => Qle_bool x y
  end.

(** [Math.min(a, b)]. *)
Definition num_min (a b : Number) : Number :=
  match a, b with
  | NaN, _ | _, NaN => NaN
  | _, _ => if num_le a b then a else b
  end.

(** [Math.round(a)]. *)
Definition num_round (a : Number) : Number :=
  match a with
  | Finite x => Finite (inject_Z (Math_round x))
  | _ => a
  end.

(** Truthiness of an optional [number]: [undefined], [0] and [NaN] are
    falsy. *)
Definition num_truthy (n : option Number) : bool :=
  match n with
  | Some (Finite x) => negb (Qeq_bool x 0)
  | Some (Infinity _) => true
  | Some NaN | None => false
  end.

(** [a || b]. *)
Definition num_or (a : option Number) (b : Number) : Number :=
  match a with
  | Some v => if num_truthy a then v else b
  | None => b
  end.

(** The value of an optional [number] when it is truthy. *)
Definition num_nonzero (n : option Number) : option Number :=
  if num_truthy n then n else None.

End JS.

(** ** What the pages use of the browser *)

Module DOM.

(** The browser as a page sees it: whether [getContext] yields a 2D
    context, and whether [canvas.toBlob] yields a blob for the canvases
    of the run at hand. *)
Record Browser := { getContext2d : bool; toBlob_ok : bool }.

(** A promise that has settled. *)
Inductive Promise (A : Type) :=
| resolve (a : A)
| reject (msg : string).
Arguments resolve {A} a.
Arguments reject {A} msg.

(** A blob made by [canvas.toBlob(cb, type, quality)]: the size of the
    canvas and the two encoder arguments, [b_type] being the type that
    was asked for. *)
Record Blob := {
  b_width : Z;
  b_height : Z;
  b_type : string;
  b_quality : Q
}.

(** The type of the blob the browser hands back: the type asked for when
    the browser encodes it, [image/png] otherwise. *)
Definition blob_type (encodes : string → bool) (b : Blob) : string :=
  if encodes (b_type b) then b_type b else "image/png".

(** A browser that encodes PNG, JPEG and WEBP, and nothing else. *)
Definition encodes_common (t : string) : bool :=
  bool_decide (t ∈ ["image/png"; "image/jpeg"; "image/webp"]).

(** The integer part of a number. *)
Definition truncate (x : Q) : Z :=
  if Qle_bool 0 x then Qfloor x else Qceiling x.

(** The side of a canvas after [canvas.width = x] or [canvas.height = x]:
    the number is converted to an [unsigned long] (truncated, modulo
    2^32) and the attribute takes it when it is at most 2^31 - 1, its
    default otherwise. *)
Definition canvas_side (dflt : Z) (x : Q) : Z :=
  let n := truncate x mod 2 ^ 32 in
  if n <=? 2 ^ 31 - 1 then n else dflt.

(** The same for a [number]; an infinity or [NaN] converts to 0. *)
Definition canvas_side_of (dflt : Z) (n : JS.Number) : Z :=
  match n with
  | JS.Finite x => canvas_side dflt x
  | _ => 0
  end.

Definition default_width : Z := 300.
Definition default_height : Z := 150.

(** Object URLs are handles into a registry of blobs. *)
Definition URL := nat.

Record ObjectURLs := {
  registry : gmap nat Blob;
  next : nat
}.

Definition createObjectURL (u : ObjectURLs) (b : Blob) : URL * ObjectURLs :=
  (next u, {| registry := <[next u := b]> (registry u); next := S (next u) |}).

Definition revokeObjectURL (u : ObjectURLs) (url : URL) : ObjectURLs :=
  {| registry := delete url (registry u); next := next u |}.

(** [fetch(url)] followed by [response.blob()] on an object URL: it
    throws ([None]) when the URL is not registered. *)
Definition fetch_blob (u : ObjectURLs) (url : URL) : option Blob :=
  registry u !! url.

(** A browser in which every canvas gets its context and its blob. *)
Definition browser_ok : Browser :=
  {| getContext2d := true; toBlob_ok := true |}.

Definition no_urls : ObjectURLs := {| registry := ∅; next := 0 |}.

End DOM.

(** ** The archive library *)

Module JSZip.
Import DOM.

(** The entries of an archive, in the order in which their names were
    first added.  Entry names are taken as they are: the names the pages
    build hold no [/]. *)
Definition Archive := list (string * Blob).

Definition has (name : string) (z : Archive) : bool :=
  existsb (λ e, String.eqb e.1 name) z.

(** [zip.file(name, data)]: a new entry at the end, or new data for the
    entry that has the name. *)
Definition file (name : string) (data : Blob) (z : Archive) : Archive :=
  if has name z
  then map (λ e, if String.eqb e.1 name then (name, data) else e) z
  else z ++ [(name, data)].

(** An archive filled by a sequence of [zip.file] calls. *)
Definition filled (calls : list (string * Blob)) : Archive :=
  fold_left (λ z c, file c.1 c.2 z) calls [].

End JSZip.

(** ** Collage page: center-crop-to-fill and grid composition *)

Module Collage.
Import DOM.

Record HTMLImageElement := {
  src : string;
  width : Z;
  height : Z
}.

Record File := { name : string; type : string }.

Record ImageFile := {
  file : File;
  id : string;
  image : option HTMLImageElement
}.

(** The nine-argument [ctx.drawImage] call. *)
Record DrawImage := {
  d_img : HTMLImageElement;
  sx : Q; sy : Q; sWidth : Q; sHeight : Q;
  dx : Q; dy : Q; dWidth : Q; dHeight : Q
}.

(** A cell canvas: the size it has after its [width] and [height] were
    assigned, and the one draw it received, if a context was obtained. *)
Record CellCanvas := {
  c_width : Z;
  c_height : Z;
  c_draw : option DrawImage
}.

Definition cropAndResizeImage (has_ctx : bool) (img : HTMLImageElement)
    (targetWidth targetHeight : Q) : CellCanvas :=
  if negb has_ctx then
    {| c_width := canvas_side default_width targetWidth;
       c_height := canvas_side default_height targetHeight;
       c_draw := None |}
  else
    let imgAspect := (inject_Z (width img) / inject_Z (height img))%Q in
    let targetAspect := (targetWidth / targetHeight)%Q in
    let '(sourceX, sourceY, sourceWidth, sourceHeight) :=
      if negb (Qle_bool imgAspect targetAspect) then
        let sourceWidth := (inject_Z (height img) * targetAspect)%Q in
        (((inject_Z (width img) - sourceWidth) / 2)%Q, 0%Q,
         sourceWidth, inject_Z (height img))
      else
        let sourceHeight := (inject_Z (width img) / targetAspect)%Q in
        (0%Q, ((inject_Z (height img) - sourceHeight) / 2)%Q,
         inject_Z (width img), sourceHeight) in
    {| c_width := canvas_side default_width targetWidth;
       c_height := canvas_side default_height targetHeight;
       c_draw := Some {| d_img := img;
                         sx := sourceX; sy := sourceY;
                         sWidth := sourceWidth; sHeight := sourceHeight;
                         dx := 0; dy := 0;
                         dWidth := targetWidth; dHeight := targetHeight |} |}.

(** The collage canvas: its size, the background fill, and the cell
    canvases drawn on it with their positions, in drawing order. *)
Record CollageCanvas := {
  g_width : Z;
  g_height : Z;
  g_fillStyle : string;
  g_drawn : list (CellCanvas * Q * Q)
}.

(** An entry of [generatedCollages]; [blob] is the PNG blob behind the
    object URL, given by the canvas it encodes. *)
Record GeneratedCollage := { blob : CollageCanvas; index : Z }.

(** [arr[i]] for a numeric index: [undefined] outside the array. *)
Definition array_get {A} (arr : list A) (i : Z) : option A :=
  if i <? 0 then None else arr !! Z.to_nat i.

(** The values of the loop variable of [for (let i = 0; i < n; i++)]. *)
Definition for_range (n : Z) : list Z :=
  map Z.of_nat (seq 0 (Z.to_nat n)).

Definition cellWidth : Q := 800.
Definition cellAspectRatio : Q := 9 / 16.
Definition cellHeight : Q := cellWidth / cellAspectRatio.

(** The body of the two inner loops for one cell: the draw it adds. *)
Definition drawCell (br : Browser) (validImages : list ImageFile)
    (columns startIndex row col : Z) : list (CellCanvas * Q * Q) :=
  let cellIndex := row * columns + col in
  let globalIndex := startIndex + cellIndex in
  let x := (inject_Z col * cellWidth)%Q in
  let y := (inject_Z row * cellHeight)%Q in
  match array_get validImages globalIndex with
  | Some imageFile =>
      match image imageFile with
      | Some img =>
          [(cropAndResizeImage (getContext2d br) img cellWidth cellHeight,
            x, y)]
      | None => []
      end
  | None => []
  end.

(** One iteration of the outer loop: nothing is pushed when no context or
    no blob is obtained. *)
Definition composeOne (br : Browser) (validImages : list ImageFile)
    (columns rows imagesPerCollage collageIndex : Z)
    : list GeneratedCollage :=
  if negb (getContext2d br) then []
  else
    let startIndex := collageIndex * imagesPerCollage in
    let drawn :=
      flat_map (fun row =>
        flat_map (fun col =>
          drawCell br validImages columns startIndex row col)
          (for_range columns))
        (for_range rows) in
    let canvas :=
      {| g_width := canvas_side default_width (cellWidth * inject_Z columns);
         g_height :=
           canvas_side default_height (cellHeight * inject_Z rows);
         g_fillStyle := "#ffffff";
         g_drawn := drawn |} in
    if toBlob_ok br
    then [{| blob := canvas; index := collageIndex + 1 |}]
    else [].

(** [generateCollage]: [None] when it returns before [setCollages]
    (nothing is produced and the previous collages stay), otherwise the
    list passed to the final [setCollages]. *)
Definition generateCollage (br : Browser) (imageFiles : list ImageFile)
    (columns rows : Z) : option (list GeneratedCollage) :=
  let totalSlots := columns * rows in
  if (Z.of_nat (length imageFiles) =? 0) then None
  else
    let validImages :=
      filter (fun img => is_Some (image img)) imageFiles in
    if (Z.of_nat (length validImages) =? 0) then None
    else
      let imagesPerCollage := totalSlots in
      let totalCollages :=
        JS.Math_ceil (inject_Z (Z.of_nat (length validImages))
                      / inject_Z imagesPerCollage) in
      Some (flat_map
              (composeOne br validImages columns rows imagesPerCollage)
              (for_range totalCollages)).

(** The blobs a call produced. *)
Definition produced (r : option (list GeneratedCollage))
    : list GeneratedCollage :=
  match r with Some l => l | None => [] end.

(** Row-major placement, as the specification words it: the [j]-th image
    of a group goes to column [j mod c] and row [j / c] of a grid of [c]
    columns, cropped to the cell. *)
Definition placed (c : nat) (j : nat) (img : HTMLImageElement)
    : CellCanvas * Q * Q :=
  (cropAndResizeImage true img cellWidth cellHeight,
   (inject_Z (Z.of_nat (j mod c)) * cellWidth)%Q,
   (inject_Z (Z.of_nat (j / c)) * cellHeight)%Q).


Definition upload (k : nat) : ImageFile :=
  {| file := {| name := pretty k +:+ ".jpg"; type := "image/jpeg" |};
     id := pretty k;
     image := Some {| src := pretty k +:+ ".jpg";
                      width := 1200; height := 900 |} |}.

Definition ten_uploads : list ImageFile := upload <$> seq 0 10.

End Collage.

(** ** Resize page: proportional resizer and its batch pipeline *)

Module Resize.
Import DOM.

Inductive Status := pending | resizing | completed | error.

#[global] Instance Status_eq_dec : EqDecision Status.
Proof. solve_decision. Defined.

(** A decoded image: its intrinsic size. *)
Record HTMLImageElement := { width : Z; height : Z }.

(** An uploaded file; [decoded] is the image its bytes describe, if they
    describe one. *)
Record File := {
  name : string;
  type : string;
  decoded : option HTMLImageElement
}.

(** The sides an image element can have: no image format and no decoder
    goes beyond 2^31 - 1. *)
Definition loadable (img : HTMLImageElement) : bool :=
  (0 <=? width img) && (width img <=? 2 ^ 31 - 1)
  && (0 <=? height img) && (height img <=? 2 ^ 31 - 1).

(** What loading the file into an [Image] gives: [None] when [onerror]
    fires. *)
Definition bitmap (f : File) : option HTMLImageElement :=
  match decoded f with
  | Some img => if loadable img then Some img else None
  | None => None
  end.

Record ImageFile := {
  file : File;
  id : string;
  status : Status;
  resizedUrl : option URL;
  error_msg : option string;
  originalWidth : option Z;
  originalHeight : option Z;
  targetWidth : option Z;
  targetHeight : option Z
}.

(** The form state read by the handlers; an empty input is [None]. *)
Record Settings := {
  s_targetWidth : option Z;
  s_targetHeight : option Z;
  maintainAspectRatio : bool;
  quality : Q
}.

(** The page state: the item list and the registry of object URLs. *)
Record State := {
  imageFiles : list ImageFile;
  urls : ObjectURLs
}.

(** [resizeImage].  The object URL it makes for the file is revoked on
    both paths, before anything else is done. *)
Definition resizeImage (br : Browser) (quality : Q) (file : File)
    (width height : option Z) (maintainRatio : bool) : Promise Blob :=
  match bitmap file with
  | None => reject "Error al cargar la imagen"
  | Some img =>
      let img_width := JS.of_Z (Resize.width img) in
      let img_height := JS.of_Z (Resize.height img) in
      let width := JS.of_Z <$> width in
      let height := JS.of_Z <$> height in
      let finalWidth := JS.num_or width img_width in
      let finalHeight := JS.num_or height img_height in
      let '(finalWidth, finalHeight) :=
        if maintainRatio && (JS.num_truthy width || JS.num_truthy height)
        then
          let aspectRatio := JS.num_div img_width img_height in
          match JS.num_nonzero width, JS.num_nonzero height with
          | Some w, None =>
              (finalWidth, JS.num_round (JS.num_div w aspectRatio))
          | None, Some h =>
              (JS.num_round (JS.num_mul h aspectRatio), finalHeight)
          | Some w, Some h =>
              let widthRatio := JS.num_div w img_width in
              let heightRatio := JS.num_div h img_height in
              let ratio := JS.num_min widthRatio heightRatio in
              (JS.num_round (JS.num_mul img_width ratio),
               JS.num_round (JS.num_mul img_height ratio))
          | None, None => (finalWidth, finalHeight)
          end
        else (finalWidth, finalHeight) in
      let canvas_width := canvas_side_of default_width finalWidth in
      let canvas_height := canvas_side_of default_height finalHeight in
      if negb (getContext2d br) then
        reject "No se pudo obtener el contexto del canvas"
      else if toBlob_ok br then
        resolve {| b_width := canvas_width; b_height := canvas_height;
                   b_type := type file; b_quality := quality |}
      else reject "Error al crear el blob"
  end.

(** [setImageFiles(prev => prev.map(img => img.id === id ? f img : img))]. *)
Definition update_by_id (i : string) (f : ImageFile → ImageFile)
    (prev : list ImageFile) : list ImageFile :=
  map (fun img => if String.eqb (id img) i then f img else img) prev.

Definition set_resizing (img : ImageFile) : ImageFile :=
  {| file := file img; id := id img; status := resizing;
     resizedUrl := resizedUrl img; error_msg := error_msg img;
     originalWidth := originalWidth img;
     originalHeight := originalHeight img;
     targetWidth := targetWidth img; targetHeight := targetHeight img |}.

Definition set_completed (url : URL) (w h : option Z) (img : ImageFile)
    : ImageFile :=
  {| file := file img; id := id img; status := completed;
     resizedUrl := Some url; error_msg := error_msg img;
     originalWidth := originalWidth img;
     originalHeight := originalHeight img;
     targetWidth := w; targetHeight := h |}.

Definition set_error (img : ImageFile) : ImageFile :=
  {| file := file img; id := id img; status := error;
     resizedUrl := resizedUrl img;
     error_msg := Some "Error al redimensionar";
     originalWidth := originalWidth img;
     originalHeight := originalHeight img;
     targetWidth := targetWidth img; targetHeight := targetHeight img |}.

(** The arguments [resizeSingleImage] passes to [resizeImage]. *)
Definition resizeArgs (cfg : Settings) (imageFile : ImageFile)
    : option Z * option Z :=
  let width :=
    match s_targetWidth cfg with
    | Some w => if 0 <? w then Some w else originalWidth imageFile
    | None => originalWidth imageFile
    end in
  let height :=
    match s_targetHeight cfg with
    | Some h => if 0 <? h then Some h else originalHeight imageFile
    | None => originalHeight imageFile
    end in
  if negb (JS.truthy width) || negb (JS.truthy height) then
    (Some (JS.or_else (originalWidth imageFile) 1),
     Some (JS.or_else (originalHeight imageFile) 1))
  else (width, height).

(** [resizeSingleImage] up to its [await]: the item is marked. *)
Definition resizeSingleImage_begin (imageFile : ImageFile) (st : State)
    : State :=
  {| imageFiles := update_by_id (id imageFile) set_resizing (imageFiles st);
     urls := urls st |}.

(** [resizeSingleImage] after its [await]: the settled promise is
    recorded on the item. *)
Definition resizeSingleImage_settle (br : Browser) (cfg : Settings)
    (imageFile : ImageFile) (st : State) : State :=
  let '(width, height) := resizeArgs cfg imageFile in
  match resizeImage br (quality cfg) (file imageFile) width height
          (maintainAspectRatio cfg) with
  | resolve blob =>
      let '(url, urls') := createObjectURL (urls st) blob in
      {| imageFiles :=
           update_by_id (id imageFile) (set_completed url width height)
             (imageFiles st);
         urls := urls' |}
  | reject _ =>
      {| imageFiles := update_by_id (id imageFile) set_error (imageFiles st);
         urls := urls st |}
  end.

(** [resizeSingleImage] run with nothing else in between. *)
Definition resizeSingleImage (br : Browser) (cfg : Settings)
    (imageFile : ImageFile) (st : State) : State :=
  resizeSingleImage_settle br cfg imageFile
    (resizeSingleImage_begin imageFile st).

Definition is_pending (img : ImageFile) : bool :=
  bool_decide (status img = pending).

(** [handleResizeAll] run with nothing else in between. *)
Definition handleResizeAll (br : Browser) (cfg : Settings) (st : State)
    : State :=
  let pendingImages := List.filter is_pending (imageFiles st) in
  fold_left (fun st imageFile => resizeSingleImage br cfg imageFile st)
    pendingImages st.

(** The name of an archive entry. *)
Definition entryName (imageFile : ImageFile) : string :=
  let parts := JS.split "." (name (file imageFile)) in
  let originalName := JS.join "." (removelast parts) in
  let ext := List.last parts "undefined" in
  originalName +:+ "_" +:+ JS.show (targetWidth imageFile) +:+ "x"
    +:+ JS.show (targetHeight imageFile) +:+ "." +:+ ext.

Definition is_downloadable (img : ImageFile) : bool :=
  bool_decide (status img = completed) && bool_decide (is_Some (resizedUrl img)).

(** [handleDownloadAll]: the [zip.file(fileName, blob)] calls it makes,
    in order; [None] when it returns before creating the archive. *)
Definition handleDownloadAll (st : State)
    : option (list (string * Blob)) :=
  let completedImages := List.filter is_downloadable (imageFiles st) in
  if (length completedImages =? 0)%nat then None
  else
    Some (flat_map
            (fun imageFile =>
               match resizedUrl imageFile with
               | None => []
               | Some url =>
                   match fetch_blob (urls st) url with
                   | Some blob => [(entryName imageFile, blob)]
                   | None => []
                   end
               end)
            completedImages).

(** Whether processing an item goes through: the promise of
    [resizeImage], called as [resizeSingleImage] calls it, resolves. *)
Definition succeeds (br : Browser) (cfg : Settings) (it : ImageFile)
    : bool :=
  match resizeImage br (quality cfg) (file it)
          (resizeArgs cfg it).1 (resizeArgs cfg it).2
          (maintainAspectRatio cfg) with
  | resolve _ => true
  | reject _ => false
  end.

(** The status [resizeSingleImage] leaves on the item it processed. *)
Definition outcome (br : Browser) (cfg : Settings) (it : ImageFile)
    : Status :=
  if succeeds br cfg it then completed else error.

(** Every completed item holds an object URL that is registered, and the
    registry hands out URLs it has not handed out before. *)
Definition registered (st : State) : Prop :=
  Forall (λ it, status it = completed →
                ∃ u, resizedUrl it = Some u ∧
                     is_Some (fetch_blob (urls st) u))
         (imageFiles st) ∧
  ∀ u, is_Some (fetch_blob (urls st) u) → (u < next (urls st))%nat.

Definition is_completed (it : ImageFile) : bool :=
  bool_decide (status it = completed).

(** The archive that is generated from those calls; empty when none is
    created. *)
Definition archive (r : option (list (string * Blob))) : JSZip.Archive :=
  JSZip.filled (default [] r).

(** The position of a status on the line pending, processing, finished. *)
Definition rank (s : Status) : nat :=
  match s with
  | pending => 0
  | resizing => 1
  | completed | error => 2
  end.

(** Sample data.  A pending item as [handleImageSelect] creates it with
    both inputs empty; a file that does not decode has no image. *)
Definition new_item (i : string) (bmp : option HTMLImageElement)
    : ImageFile :=
  {| file := {| name := i +:+ ".png"; type := "image/png";
                decoded := bmp |};
     id := i; status := pending;
     resizedUrl := None; error_msg := None;
     originalWidth := width <$> bmp; originalHeight := height <$> bmp;
     targetWidth := width <$> bmp; targetHeight := height <$> bmp |}.

Definition both_empty : Settings :=
  {| s_targetWidth := None; s_targetHeight := None;
     maintainAspectRatio := true; quality := 9 # 10 |}.

Definition width_only (w : Z) : Settings :=
  {| s_targetWidth := Some w; s_targetHeight := None;
     maintainAspectRatio := true; quality := 9 # 10 |}.

Definition small_photo : ImageFile :=
  new_item "photo" (Some {| width := 100; height := 50 |}).

Definition one_item : State :=
  {| imageFiles := [small_photo]; urls := no_urls |}.

(** Five items; the third cannot be decoded. *)
Definition five_items : State :=
  {| imageFiles :=
       [new_item "1" (Some {| width := 640; height := 480 |});
        new_item "2" (Some {| width := 800; height := 600 |});
        new_item "3" None;
        new_item "4" (Some {| width := 100; height := 50 |});
        new_item "5" (Some {| width := 30; height := 40 |})];
     urls := no_urls |}.

End Resize.

(** ** Compress page: quality re-encoder and its batch pipeline *)

Module Compress.
Import DOM.

Inductive Status := pending | compressing | completed | error.

#[global] Instance Status_eq_dec : EqDecision Status.
Proof. solve_decision. Defined.

(** A decoded image: its size and the RGBA bytes that [getImageData]
    reads back once it is drawn. *)
Record HTMLImageElement := {
  width : Z;
  height : Z;
  data : list Z
}.

Record File := {
  name : string;
  type : string;
  size : Z;
  bitmap : option HTMLImageElement
}.

Record ImageFile := {
  file : File;
  id : string;
  status : Status;
  compressedUrl : option URL;
  error_msg : option string;
  originalSize : option Z;
  compressedSize : option Z
}.

(** What the browser yields to one [compressImage] call: the context of
    the output canvas, the context of the temporary canvas used to read
    the pixels back, and the blob. *)
Record Surfaces := { ctx : bool; tempCtx : bool; blob_ok : bool }.

(** The two smoothing settings written on the context before drawing. *)
Definition imageSmoothingEnabled (qualityPercent : Q) : bool :=
  negb (Qle_bool qualityPercent (5 # 10)).

Definition imageSmoothingQuality (qualityPercent : Q) : string :=
  if negb (Qle_bool qualityPercent (7 # 10)) then "high"
  else if negb (Qle_bool qualityPercent (4 # 10)) then "medium"
  else "low".

(** The scan of the alpha channel. *)
Definition hasTransparency (data : list Z) : bool :=
  JS.some (fun _ i =>
             (Z.of_nat i mod 4 =? 3) &&
             match data !! i with
             | Some a => a <? 255
             | None => false
             end)
          data.

Definition compressImage (sf : Surfaces) (file : File)
    (qualityPercent : Q) : Promise Blob :=
  match bitmap file with
  | None => reject "Error al cargar la imagen"
  | Some img =>
      if negb (ctx sf) then
        reject "No se pudo obtener el contexto del canvas"
      else
        let originalType := JS.toLowerCase (type file) in
        let '(outputMimeType, outputQuality) :=
          if String.eqb originalType "image/png" then
            if tempCtx sf then
              if hasTransparency (data img) then
                ("image/png",
                 JS.Math_max (1 # 10) (qualityPercent * (9 # 10)))
              else ("image/jpeg", qualityPercent)
            else ("image/jpeg", qualityPercent)
          else if String.eqb originalType "image/webp" then
            ("image/webp", qualityPercent)
          else if JS.includes "jpeg" originalType
                  || JS.includes "jpg" originalType then
            ("image/jpeg", qualityPercent)
          else ("image/jpeg", qualityPercent) in
        if blob_ok sf then
          resolve {| b_width := width img; b_height := height img;
                     b_type := outputMimeType;
                     b_quality := outputQuality |}
        else reject "Error al crear el blob"
  end.

Record State := {
  imageFiles : list ImageFile;
  urls : ObjectURLs;
  isCompressing : bool
}.

Definition update_by_id (i : string) (f : ImageFile → ImageFile)
    (prev : list ImageFile) : list ImageFile :=
  map (fun img => if String.eqb (id img) i then f img else img) prev.

Definition set_compressing (img : ImageFile) : ImageFile :=
  {| file := file img; id := id img; status := compressing;
     compressedUrl := compressedUrl img; error_msg := error_msg img;
     originalSize := originalSize img;
     compressedSize := compressedSize img |}.

Definition set_completed (url : URL) (sz : Z) (img : ImageFile)
    : ImageFile :=
  {| file := file img; id := id img; status := completed;
     compressedUrl := Some url; error_msg := error_msg img;
     originalSize := originalSize img;
     compressedSize := Some sz |}.

Definition set_error (img : ImageFile) : ImageFile :=
  {| file := file img; id := id img; status := error;
     compressedUrl := compressedUrl img;
     error_msg := Some "Error al comprimir";
     originalSize := originalSize img;
     compressedSize := compressedSize img |}.

Definition compressSingleImage_begin (imageFile : ImageFile) (st : State)
    : State :=
  {| imageFiles :=
       update_by_id (id imageFile) set_compressing (imageFiles st);
     urls := urls st; isCompressing := isCompressing st |}.

(** The byte size of a blob is the encoder's business: [blob_size]. *)
Definition compressSingleImage_settle (sf : Surfaces) (blob_size : Blob → Z)
    (quality : Q) (imageFile : ImageFile) (st : State) : State :=
  match compressImage sf (file imageFile) quality with
  | resolve blob =>
      let '(url, urls') := createObjectURL (urls st) blob in
      {| imageFiles :=
           update_by_id (id imageFile) (set_completed url (blob_size blob))
             (imageFiles st);
         urls := urls'; isCompressing := isCompressing st |}
  | reject _ =>
      {| imageFiles := update_by_id (id imageFile) set_error (imageFiles st);
         urls := urls st; isCompressing := isCompressing st |}
  end.

Definition compressSingleImage (sf : Surfaces) (blob_size : Blob → Z)
    (quality : Q) (imageFile : ImageFile) (st : State) : State :=
  compressSingleImage_settle sf blob_size quality imageFile
    (compressSingleImage_begin imageFile st).

Definition is_pending (img : ImageFile) : bool :=
  bool_decide (status img = pending).

Definition setIsCompressing (b : bool) (st : State) : State :=
  {| imageFiles := imageFiles st; urls := urls st; isCompressing := b |}.

Definition handleCompressAll (sf : Surfaces) (blob_size : Blob → Z)
    (quality : Q) (st : State) : State :=
  let pendingImages := List.filter is_pending (imageFiles st) in
  if (length pendingImages =? 0)%nat then st
  else
    setIsCompressing false
      (fold_left
         (fun st imageFile =>
            compressSingleImage sf blob_size quality imageFile st)
         pendingImages (setIsCompressing true st)).

Definition rank (s : Status) : nat :=
  match s with
  | pending => 0
  | compressing => 1
  | completed | error => 2
  end.

(** Sample data: one-pixel files. *)
Definition surfaces_ok : Surfaces :=
  {| ctx := true; tempCtx := true; blob_ok := true |}.

Definition one_pixel (n t : string) (alpha : Z) : File :=
  {| name := n; type := t; size := 4;
     bitmap := Some {| width := 1; height := 1;
                       data := [10; 20; 30; alpha] |} |}.

Definition translucent_png : File := one_pixel "logo.png" "image/png" 100.

Definition new_item (i : string) : ImageFile :=
  {| file := one_pixel (i +:+ ".jpg") "image/jpeg" 255;
     id := i; status := pending;
     compressedUrl := None; error_msg := None;
     originalSize := Some 4; compressedSize := None |}.

End Compress.

(** ** Conversion endpoint *)

Module Convert.

Definition Buffer := list Byte.byte.

(** The [sharp] pipelines the route builds. *)
Inductive Encoder :=
| enc_webp (quality : Z)
| enc_png (quality : Z)
| enc_jpeg (quality : Z)
| enc_gif
| enc_tiff (quality : Z).

(** [sharp(buffer).<encoder>.toBuffer()]: [None] when it throws. *)
Definition Sharp := Buffer → Encoder → option Buffer.

(** The fields read from the multipart form; a missing field is [None]. *)
Record FormData := {
  fd_image : option Buffer;
  fd_format : option string
}.

(** A request; [None] when [request.formData()] throws. *)
Definition NextRequest := option FormData.

Inductive Body :=
| json_error (msg : string)
| bytes (b : Buffer).

Record NextResponse := {
  status : Z;
  body : Body;
  headers : list (string * string)
}.

Definition json (msg : string) (st : Z) : NextResponse :=
  {| status := st; body := json_error msg; headers := [] |}.

Definition dquote : string := String (ascii_of_nat 34) EmptyString.

Definition attachment (ext : string) : string :=
  "attachment; filename=" +:+ dquote +:+ "converted." +:+ ext +:+ dquote.

Definition ok (convertedBuffer : Buffer) (contentType ext : string)
    : NextResponse :=
  {| status := 200;
     body := bytes convertedBuffer;
     headers := [("Content-Type", contentType);
                 ("Content-Disposition", attachment ext)] |}.

(** [arr.includes(x)] on strings. *)
Definition includes (arr : list string) (x : string) : bool :=
  existsb (String.eqb x) arr.

(** The route of [src/app/api/convert/route.ts]: three formats, compared
    as they are sent. *)
Module Route.

Definition mimeTypes : gmap string string :=
  list_to_map [("webp", "image/webp"); ("png", "image/png");
               ("jpg", "image/jpeg")].

Definition POST (sharp : Sharp) (request : NextRequest) : NextResponse :=
  match request with
  | None => json "Error al procesar la imagen" 500
  | Some formData =>
      match fd_image formData with
      | None => json "No se proporcionó ninguna imagen" 400
      | Some file =>
          match fd_format formData with
          | None => json "Formato no válido" 400
          | Some format =>
              if String.eqb format EmptyString
                 || negb (includes ["webp"; "png"; "jpg"] format)
              then json "Formato no válido" 400
              else
                let buffer := file in
                let converted :=
                  if String.eqb format "webp" then
                    sharp buffer (enc_webp 90)
                  else if String.eqb format "png" then
                    sharp buffer (enc_png 90)
                  else sharp buffer (enc_jpeg 90) in
                match converted with
                | None => json "Error al procesar la imagen" 500
                | Some convertedBuffer =>
                    ok convertedBuffer
                      (default "undefined" (mimeTypes !! format)) format
                end
          end
      end
  end.

End Route.

(** The route of the second copy of the endpoint: six formats, compared
    after lower-casing. *)
Module RouteExt.

Definition validFormats : list string :=
  ["webp"; "png"; "jpg"; "jpeg"; "gif"; "tiff"].

Definition mimeTypes : gmap string string :=
  list_to_map [("webp", "image/webp"); ("png", "image/png");
               ("jpg", "image/jpeg"); ("jpeg", "image/jpeg");
               ("gif", "image/gif"); ("tiff", "image/tiff")].

Definition POST (sharp : Sharp) (request : NextRequest) : NextResponse :=
  match request with
  | None => json "Error al procesar la imagen" 500
  | Some formData =>
      match fd_image formData with
      | None => json "No se proporcionó ninguna imagen" 400
      | Some file =>
          match fd_format formData with
          | None => json "Formato no válido" 400
          | Some format =>
              if String.eqb format EmptyString
                 || negb (includes validFormats (JS.toLowerCase format))
              then json "Formato no válido" 400
              else
                let buffer := file in
                let normalizedFormat := JS.toLowerCase format in
                let converted :=
                  if String.eqb normalizedFormat "webp" then
                    sharp buffer (enc_webp 90)
                  else if String.eqb normalizedFormat "png" then
                    sharp buffer (enc_png 90)
                  else if String.eqb normalizedFormat "jpg"
                          || String.eqb normalizedFormat "jpeg" then
                    sharp buffer (enc_jpeg 90)
                  else if String.eqb normalizedFormat "gif" then
                    sharp buffer enc_gif
                  else if String.eqb normalizedFormat "tiff" then
                    sharp buffer (enc_tiff 90)
                  else sharp buffer (enc_png 90) in
                match converted with
                | None => json "Error al procesar la imagen" 500
                | Some convertedBuffer =>
                    let outputFormat :=
                      if String.eqb normalizedFormat "jpeg" then "jpg"
                      else normalizedFormat in
                    ok convertedBuffer
                      (default "image/png"
                         (mimeTypes !! normalizedFormat))
                      outputFormat
                end
          end
      end
  end.

End RouteExt.

(** The fixed table of the specification: the MIME type of each target
    format. *)
Definition canonical_mime (t : string) : string :=
  if String.eqb t "webp" then "image/webp"
  else if String.eqb t "png" then "image/png"
  else if String.eqb t "jpg" || String.eqb t "jpeg" then "image/jpeg"
  else if String.eqb t "gif" then "image/gif"
  else if String.eqb t "tiff" then "image/tiff"
  else EmptyString.

(** The encoder of each target format. *)
Definition encoder_for (t : string) : Encoder :=
  if String.eqb t "webp" then enc_webp 90
  else if String.eqb t "jpg" || String.eqb t "jpeg" then enc_jpeg 90
  else if String.eqb t "gif" then enc_gif
  else if String.eqb t "tiff" then enc_tiff 90
  else enc_png 90.

(** The extension in the download name: [jpeg] becomes [jpg]. *)
Definition extension (t : string) : string :=
  if String.eqb t "jpeg" then "jpg" else t.

Definition is_error (r : NextResponse) (code : Z) : Prop :=
  status r = code ∧ ∃ msg, body r = json_error msg.

(** The closed set of target formats. *)
Definition closed_set : list string :=
  ["webp"; "png"; "jpg"; "jpeg"; "gif"; "tiff"].

(** What the endpoint promises, for a route that accepts the formats
    [accepts]: 500 when the form cannot be read, 400 without an image or
    with a format it does not accept, and with an accepted format either
    500 when the encoder throws or the encoded bytes under the canonical
    content type and the normalized file name. *)
Definition contract (accepts : string → Prop)
    (post : Sharp → NextRequest → NextResponse) : Prop :=
  ∀ (sharp : Sharp) (request : NextRequest),
    let r := post sharp request in
    (request = None → is_error r 500) ∧
    ∀ fd, request = Some fd →
      (fd_image fd = None → is_error r 400) ∧
      ∀ file, fd_image fd = Some file →
        (fd_format fd = None → is_error r 400) ∧
        ∀ fmt, fd_format fd = Some fmt →
          (¬ accepts fmt → is_error r 400) ∧
          (accepts fmt →
             let t := JS.toLowerCase fmt in
             match sharp file (encoder_for t) with
             | None => is_error r 500
             | Some out => r = ok out (canonical_mime t) (extension t)
             end).

(** Sample data: an encoder that returns what it is given, and a form. *)
Definition echo : Sharp := λ buffer _, Some buffer.

Definition form (fmt : string) : NextRequest :=
  Some {| fd_image := Some []; fd_format := Some fmt |}.

End Convert.

(** ** The pages under the event loop

    A handler runs until it awaits; the promise it awaits settles in a later
    turn, and clicks may be handled in between.  A batch handler resumes in
    the turn in which its awaited item settles and starts its next item
    there. *)

Module EventLoop.

Section Loop.
Context {Item State : Type}.

(** The item list rendered from the state. *)
Variable items : State → list Item.
(** The per-item button is rendered for such items only. *)
Variable is_pending : Item → bool.
(** The single-item handler up to, and after, its [await]. *)
Variable begin_item : Item → State → State.
Variable settle_item : Item → State → State.
(** Whether the batch button can be clicked. *)
Variable batch_enabled : State → bool.
(** What the batch handler does around its loop. *)
Variable batch_enter : State → State.
Variable batch_leave : State → State.

(** A handler suspended at an [await]: the item being processed and,
    for a batch, the items of its snapshot still to come. *)
Record Task := {
  current : Item;
  queue : list Item;
  is_batch : bool
}.

Record Loop := {
  page : State;
  tasks : list Task
}.

Inductive Event :=
| ClickItem (i : nat)
| ClickAll
| Settle (t : nat).

Definition step (l : Loop) (e : Event) : Loop :=
  match e with
  | ClickItem i =>
      match items (page l) !! i with
      | Some it =>
          if is_pending it then
            {| page := begin_item it (page l);
               tasks := tasks l ++
                 [{| current := it; queue := []; is_batch := false |}] |}
          else l
      | None => l
      end
  | ClickAll =>
      if batch_enabled (page l) then
        match List.filter is_pending (items (page l)) with
        | [] => l
        | it :: rest =>
            {| page := begin_item it (batch_enter (page l));
               tasks := tasks l ++
                 [{| current := it; queue := rest; is_batch := true |}] |}
        end
      else l
  | Settle t =>
      match tasks l !! t with
      | Some task =>
          let settled := settle_item (current task) (page l) in
          match queue task with
          | nxt :: rest =>
              {| page := begin_item nxt settled;
                 tasks := <[t := {| current := nxt; queue := rest;
                                    is_batch := is_batch task |}]>
                            (tasks l) |}
          | [] =>
              {| page := if is_batch task then batch_leave settled
                         else settled;
                 tasks := delete t (tasks l) |}
          end
      | None => l
      end
  end.

(** The states the page goes through, one per event. *)
Fixpoint history (l : Loop) (es : list Event) : list Loop :=
  match es with
  | [] => []
  | e :: rest => let l' := step l e in l' :: history l' rest
  end.

End Loop.

(** The resize page: the batch button is rendered while an item is
    pending, and the batch handler touches nothing but the items.  The
    compress page: the batch button is also disabled while
    [isCompressing], which the batch handler sets around its loop. *)
Definition resize_history (br : DOM.Browser) (cfg : Resize.Settings) :=
  history Resize.imageFiles Resize.is_pending
    Resize.resizeSingleImage_begin
    (Resize.resizeSingleImage_settle br cfg)
    (fun st => existsb Resize.is_pending (Resize.imageFiles st))
    (fun st => st) (fun st => st).

Definition compress_history (sf : Compress.Surfaces)
    (blob_size : DOM.Blob → Z) (quality : Q) :=
  history Compress.imageFiles Compress.is_pending
    Compress.compressSingleImage_begin
    (Compress.compressSingleImage_settle sf blob_size quality)
    (fun st => existsb Compress.is_pending (Compress.imageFiles st)
               && negb (Compress.isCompressing st))
    (Compress.setIsCompressing true) (Compress.setIsCompressing false).

(** The statuses shown after each event. *)
Definition resize_statuses (h : list (@Loop Resize.ImageFile Resize.State))
    : list (list Resize.Status) :=
  (λ l, Resize.status <$> Resize.imageFiles (page l)) <$> h.

Definition compress_statuses (h : list (@Loop Compress.ImageFile Compress.State))
    : list (list Compress.Status) :=
  (λ l, Compress.status <$> Compress.imageFiles (page l)) <$> h.

(** Sample data: two pending items on each page, a large image first. *)
Definition two_pending : @Loop Resize.ImageFile Resize.State :=
  {| page :=
       {| Resize.imageFiles :=
            [Resize.new_item "a"
               (Some {| Resize.width := 4000; Resize.height := 3000 |});
             Resize.new_item "b"
               (Some {| Resize.width := 40; Resize.height := 30 |})];
          Resize.urls := DOM.no_urls |};
     tasks := [] |}.

Definition two_pending_compress
    : @Loop Compress.ImageFile Compress.State :=
  {| page :=
       {| Compress.imageFiles :=
            [Compress.new_item "a"; Compress.new_item "b"];
          Compress.urls := DOM.no_urls;
          Compress.isCompressing := false |};
     tasks := [] |}.

(** The batch button, then the button of the second item while the first
    is being processed; the second item settles before the first. *)
Definition overlapping_clicks : list Event :=
  [ClickAll; ClickItem 1; Settle 1; Settle 0].

End EventLoop.

(** ** Resize page: the other handlers *)

Module ResizePage.
Import DOM Resize.

(** [file.type.startsWith("image/")]. *)
Definition is_image (f : File) : bool := String.prefix "image/" (type f).

(** [loadImageMetadata]: the item its promise resolves with.  The image
    has no [onerror] handler: for a file that does not decode the promise
    never settles ([None]). *)
Definition loadImageMetadata (cfg : Settings) (i : string) (f : File)
    : option ImageFile :=
  match bitmap f with
  | None => None
  | Some img =>
      Some {| file := f; id := i; status := pending;
              resizedUrl := None; error_msg := None;
              originalWidth := Some (width img);
              originalHeight := Some (height img);
              targetWidth :=
                Some (match s_targetWidth cfg with
                      | Some w => w
                      | None => width img
                      end);
              targetHeight :=
                Some (match s_targetHeight cfg with
                      | Some h => h
                      | None => height img
                      end) |}
  end.

(** [handleImageSelect].  [fresh k] is the id drawn for the [k]-th valid
    file.  [None]: the awaited [Promise.all] never settles and
    [setImageFiles] is not reached.  The object URLs made for the files
    on the way are those of [unrevoked] below. *)
Definition handleImageSelect (cfg : Settings) (fresh : nat → string)
    (files : list File) (st : State) : option State :=
  let validFiles := List.filter is_image files in
  if (length validFiles =? 0)%nat then Some st
  else
    match mapM (λ x, x)
            (imap (λ k f, loadImageMetadata cfg (fresh k) f) validFiles) with
    | Some newImageFiles =>
        Some {| imageFiles := imageFiles st ++ newImageFiles;
                urls := urls st |}
    | None => None
    end.

(** [handleRemove]: the URL of the first item with that id is revoked and
    every item with that id leaves the list. *)
Definition handleRemove (i : string) (st : State) : State :=
  let file := List.find (λ img, String.eqb (id img) i) (imageFiles st) in
  {| imageFiles :=
       List.filter (λ img, negb (String.eqb (id img) i)) (imageFiles st);
     urls :=
       match file with
       | Some f =>
           match resizedUrl f with
           | Some u => revokeObjectURL (urls st) u
           | None => urls st
           end
       | None => urls st
       end |}.

(** [handleClear]. *)
Definition handleClear (st : State) : State :=
  {| imageFiles := [];
     urls :=
       fold_left (λ u f, match resizedUrl f with
                         | Some url => revokeObjectURL u url
                         | None => u
                         end)
         (imageFiles st) (urls st) |}.

(** [handleDownload]: the name given to the download, none when the item
    has no URL. *)
Definition handleDownload (imageFile : ImageFile) : option string :=
  match resizedUrl imageFile with
  | None => None
  | Some _ => Some (entryName imageFile)
  end.

Definition pendingCount (st : State) : nat :=
  length (List.filter is_pending (imageFiles st)).

Definition completedCount (st : State) : nat :=
  length (List.filter is_completed (imageFiles st)).

(** What the user can do on the page, one handler at a time. *)
Inductive Op :=
| Select (cfg : Settings) (fresh : nat → string) (files : list File)
| ResizeOne (br : Browser) (cfg : Settings) (k : nat)
| ResizeAll (br : Browser) (cfg : Settings)
| Remove (i : string)
| Clear.

(** The button of the [k]-th item is rendered while it is pending; a
    selection that never completes leaves the page as it is. *)
Definition apply (st : State) (op : Op) : State :=
  match op with
  | Select cfg fresh files =>
      default st (handleImageSelect cfg fresh files st)
  | ResizeOne br cfg k =>
      match imageFiles st !! k with
      | Some it =>
          if is_pending it then resizeSingleImage br cfg it st else st
      | None => st
      end
  | ResizeAll br cfg => handleResizeAll br cfg st
  | Remove i => handleRemove i st
  | Clear => handleClear st
  end.

(** The ids drawn for a selection are new: distinct from one another and
    from the ids on the page. *)
Definition draws_new_ids (st : State) (op : Op) : Prop :=
  match op with
  | Select _ fresh files =>
      let n := length (List.filter is_image files) in
      NoDup (fresh <$> seq 0 n) ∧
      ∀ k, (k < n)%nat → fresh k ∉ id <$> imageFiles st
  | _ => True
  end.

Definition initial : State := {| imageFiles := []; urls := no_urls |}.

(** The states of the page. *)
Inductive reachable : State → Prop :=
| reach_initial : reachable initial
| reach_apply st op :
    reachable st → draws_new_ids st op → reachable (apply st op).

(** The bookkeeping of object URLs: ids are distinct; an item holds a URL
    exactly when it is completed, and that URL is live; every live URL
    was handed out and is held by an item; items that hold the same URL
    have the same id. *)
Definition tidy (st : State) : Prop :=
  NoDup (id <$> imageFiles st) ∧
  (∀ it u, it ∈ imageFiles st → resizedUrl it = Some u →
     status it = completed ∧ is_Some (fetch_blob (urls st) u)) ∧
  (∀ it, it ∈ imageFiles st → status it = completed →
     is_Some (resizedUrl it)) ∧
  (∀ u, is_Some (fetch_blob (urls st) u) →
     (u < next (urls st))%nat ∧
     ∃ it, it ∈ imageFiles st ∧ resizedUrl it = Some u) ∧
  (∀ x y u, x ∈ imageFiles st → y ∈ imageFiles st →
     resizedUrl x = Some u → resizedUrl y = Some u → id x = id y).

(** The object URLs of the files themselves.  [loadImageMetadata] makes
    one for each image-typed file of a selection and revokes it when the
    image loads; it has no [onerror] handler, so the URL of a file that
    does not decode is never revoked.  No item holds these URLs: the
    page below keeps, in the order they were made, the files whose URL
    is live.  The URL [resizeImage] makes for a file is revoked on both
    of its paths and leaves nothing. *)
Definition unrevoked (files : list File) : list File :=
  List.filter (λ f, negb (bool_decide (is_Some (bitmap f))))
    (List.filter is_image files).

(** The page with all of its object URLs: those of the results, in the
    state, and those of the files. *)
Record Page := {
  p_state : State;
  p_sources : list File
}.

Definition apply_page (p : Page) (op : Op) : Page :=
  {| p_state := apply (p_state p) op;
     p_sources :=
       match op with
       | Select _ _ files => p_sources p ++ unrevoked files
       | _ => p_sources p
       end |}.

Definition initial_page : Page :=
  {| p_state := initial; p_sources := [] |}.

Inductive reachable_page : Page → Prop :=
| reach_page_initial : reachable_page initial_page
| reach_page_apply p op :
    reachable_page p → draws_new_ids (p_state p) op →
    reachable_page (apply_page p op).

End ResizePage.

(** ** Compress page: the other handlers *)

Module CompressPage.
Import DOM Compress.

Definition is_image (f : File) : bool := String.prefix "image/" (type f).

(** [handleImageSelect]: nothing is decoded here; [fresh k] is the id
    drawn for the [k]-th valid file. *)
Definition handleImageSelect (fresh : nat → string) (files : list File)
    (st : State) : State :=
  let validFiles := List.filter is_image files in
  if (length validFiles =? 0)%nat then st
  else
    let newImageFiles :=
      imap (λ k f, {| file := f; id := fresh k; status := pending;
                      compressedUrl := None; error_msg := None;
                      originalSize := Some (size f);
                      compressedSize := None |}) validFiles in
    {| imageFiles := imageFiles st ++ newImageFiles;
       urls := urls st; isCompressing := isCompressing st |}.

(** The name of an archive entry and of a single download. *)
Definition entryName (imageFile : ImageFile) : string :=
  let parts := JS.split "." (name (file imageFile)) in
  let originalName := JS.join "." (removelast parts) in
  let ext := List.last parts "undefined" in
  originalName +:+ "_compressed." +:+ ext.

Definition is_completed (it : ImageFile) : bool :=
  bool_decide (status it = completed).

Definition is_downloadable (img : ImageFile) : bool :=
  bool_decide (status img = completed)
  && bool_decide (is_Some (compressedUrl img)).

(** [handleDownloadAll]: the [zip.file] calls in order, [None] when it
    returns before creating the archive. *)
Definition handleDownloadAll (st : State)
    : option (list (string * Blob)) :=
  let completedImages := List.filter is_downloadable (imageFiles st) in
  if (length completedImages =? 0)%nat then None
  else
    Some (flat_map
            (fun imageFile =>
               match compressedUrl imageFile with
               | None => []
               | Some url =>
                   match fetch_blob (urls st) url with
                   | Some blob => [(entryName imageFile, blob)]
                   | None => []
                   end
               end)
            completedImages).

Definition handleDownload (imageFile : ImageFile) : option string :=
  match compressedUrl imageFile with
  | None => None
  | Some _ => Some (entryName imageFile)
  end.

(** [handleRemove]: the URL of the first item with that id is revoked and
    every item with that id leaves the list. *)
Definition handleRemove (i : string) (st : State) : State :=
  let file := List.find (λ img, String.eqb (id img) i) (imageFiles st) in
  {| imageFiles :=
       List.filter (λ img, negb (String.eqb (id img) i)) (imageFiles st);
     urls :=
       match file with
       | Some f =>
           match compressedUrl f with
           | Some u => revokeObjectURL (urls st) u
           | None => urls st
           end
       | None => urls st
       end;
     isCompressing := isCompressing st |}.

(** [handleClear]. *)
Definition handleClear (st : State) : State :=
  {| imageFiles := [];
     urls :=
       fold_left (λ u f, match compressedUrl f with
                         | Some url => revokeObjectURL u url
                         | None => u
                         end)
         (imageFiles st) (urls st);
     isCompressing := isCompressing st |}.

Definition pendingCount (st : State) : nat :=
  length (List.filter is_pending (imageFiles st)).

(** The totals shown above the list, and the reduction before it is
    formatted with one decimal. *)
Definition totalOriginalSize (st : State) : Z :=
  fold_left (λ sum img, sum + JS.or_else (originalSize img) 0)
    (imageFiles st) 0.

Definition totalCompressedSize (st : State) : Z :=
  fold_left (λ sum img, sum + JS.or_else (compressedSize img) 0)
    (imageFiles st) 0.

Definition compressionRatio (st : State) : Q :=
  if 0 <? totalOriginalSize st then
    ((1 - inject_Z (totalCompressedSize st)
          / inject_Z (totalOriginalSize st)) * 100)%Q
  else 0%Q.

(** Whether processing an item goes through, and the status it is left
    with. *)
Definition succeeds (sf : Surfaces) (quality : Q) (it : ImageFile) : bool :=
  match compressImage sf (file it) quality with
  | resolve _ => true
  | reject _ => false
  end.

Definition outcome (sf : Surfaces) (quality : Q) (it : ImageFile)
    : Status :=
  if succeeds sf quality it then completed else error.

End CompressPage.

(** ** Collage page: what the page announces *)

Module CollagePage.
Import Collage.

(** The number of collages announced under the grid controls. *)
Definition announced (imageFiles : list ImageFile) (columns rows : Z) : Z :=
  JS.Math_ceil (inject_Z (Z.of_nat (length imageFiles))
                / inject_Z (columns * rows)).

Definition validImages (imageFiles : list ImageFile) : list ImageFile :=
  filter (λ img, is_Some (image img)) imageFiles.

End CollagePage.

(** ** Convert page *)

Module Home.
Import Convert.

Inductive ImageFormat := webp | png | jpg.

Definition format_name (f : ImageFormat) : string :=
  match f with
  | webp => "webp"
  | png => "png"
  | jpg => "jpg"
  end.

Record File := { f_type : string; f_bytes : Buffer }.

(** The page state; an empty URL or message is [None], and the converted
    URL stands for the response body behind it. *)
Record State := {
  selectedImage : option File;
  selectedFormat : ImageFormat;
  isConverting : bool;
  convertedImageUrl : option Body;
  error : option string
}.

(** [response.ok]. *)
Definition response_ok (r : NextResponse) : bool :=
  (200 <=? status r) && (status r <=? 299).

(** [handleConvert] against a server. *)
Definition handleConvert (server : NextRequest → NextResponse)
    (st : State) : State :=
  match selectedImage st with
  | None => st
  | Some file =>
      let response :=
        server (Some {| fd_image := Some (f_bytes file);
                        fd_format :=
                          Some (format_name (selectedFormat st)) |}) in
      if negb (response_ok response) then
        {| selectedImage := selectedImage st;
           selectedFormat := selectedFormat st;
           isConverting := false;
           convertedImageUrl := convertedImageUrl st;
           error :=
             Some "Error al convertir la imagen. Por favor, intenta de nuevo." |}
      else
        {| selectedImage := selectedImage st;
           selectedFormat := selectedFormat st;
           isConverting := false;
           convertedImageUrl := Some (body response);
           error := None |}
  end.

(** [handleDownload]: the name given to the download. *)
Definition handleDownload (st : State) : option string :=
  match convertedImageUrl st with
  | None => None
  | Some _ => Some ("converted." +:+ format_name (selectedFormat st))
  end.

(** [handleImageSelect]: the preview, read from the file, is left out. *)
Definition handleImageSelect (file : File) (st : State) : State :=
  if negb (String.prefix "image/" (f_type file)) then
    {| selectedImage := selectedImage st;
       selectedFormat := selectedFormat st;
       isConverting := isConverting st;
       convertedImageUrl := convertedImageUrl st;
       error := Some "Por favor, selecciona un archivo de imagen válido" |}
  else
    {| selectedImage := Some file;
       selectedFormat := selectedFormat st;
       isConverting := isConverting st;
       convertedImageUrl := None;
       error := None |}.

Definition handleReset (st : State) : State :=
  {| selectedImage := None;
     selectedFormat := selectedFormat st;
     isConverting := isConverting st;
     convertedImageUrl := None;
     error := None |}.

(** A click on one of the three format buttons. *)
Definition setSelectedFormat (format : ImageFormat) (st : State) : State :=
  {| selectedImage := selectedImage st;
     selectedFormat := format;
     isConverting := isConverting st;
     convertedImageUrl := convertedImageUrl st;
     error := error st |}.

(** What the user can do on the page, and the page after a sequence of
    such actions, each handled to its end before the next. *)
Inductive Op :=
| Pick (file : File)
| Format (format : ImageFormat)
| Convert
| Reset.

Definition apply (server : NextRequest → NextResponse) (st : State)
    (op : Op) : State :=
  match op with
  | Pick file => handleImageSelect file st
  | Format format => setSelectedFormat format st
  | Convert => handleConvert server st
  | Reset => handleReset st
  end.

Definition initial : State :=
  {| selectedImage := None; selectedFormat := webp;
     isConverting := false; convertedImageUrl := None; error := None |}.

Definition run (server : NextRequest → NextResponse) (ops : list Op)
    : State :=
  fold_left (apply server) ops initial.

(** Sample data: a picked photograph. *)
Definition snapshot : File :=
  {| f_type := "image/png"; f_bytes := [] |}.

End Home.

(** ** Properties of the pages under the event loop *)

Module Interleaving.
Import EventLoop.

Section Props.
Context {Item State F : Type}.
Variable items : State → list Item.
Variable is_pending : Item → bool.
(** What identifies an item, what never changes on it, and whether it
    is shown as being processed. *)
Variable ident : Item → string.
Variable fixed : Item → F.
Variable busy : Item → bool.
(** The flag that disables the batch button. *)
Variable flag : State → bool.

(** An item and what has become of it. *)
Definition kept (x x' : Item) : Prop :=
  ident x' = ident x ∧ fixed x' = fixed x ∧
  (is_pending x = false → is_pending x' = false).

(** Every item shown as being processed has a handler in flight. *)
Definition attended (l : @Loop Item State) : Prop :=
  ∀ x, x ∈ items (page l) → busy x = true →
    ∃ task, task ∈ tasks l ∧ ident (current task) = ident x.

(** The batch handlers in flight. *)
Definition batches (l : @Loop Item State) : nat :=
  length (List.filter is_batch (tasks l)).

(** The flag is up exactly while one batch handler is in flight. *)
Definition guarded (l : @Loop Item State) : Prop :=
  batches l = if flag (page l) then 1%nat else 0%nat.

End Props.

Definition resize_busy (x : Resize.ImageFile) : bool :=
  bool_decide (Resize.status x = Resize.resizing).

Definition compress_busy (x : Compress.ImageFile) : bool :=
  bool_decide (Compress.status x = Compress.compressing).

End Interleaving.

(** ** Sample sessions *)

Module Samples.
Import DOM.

Definition ids (k : nat) : string := "id-" +:+ pretty k.

Definition photo (n t : string) (w h : Z) : Resize.File :=
  {| Resize.name := n; Resize.type := t;
     Resize.decoded := Some {| Resize.width := w; Resize.height := h |} |}.

Definition broken (n t : string) : Resize.File :=
  {| Resize.name := n; Resize.type := t; Resize.decoded := None |}.

(** Two photographs and a text file. *)
Definition picked : list Resize.File :=
  [photo "a.png" "image/png" 640 480;
   broken "notes.txt" "text/plain";
   photo "b.jpg" "image/jpeg" 800 600].

(** Select the files, then resize them all. *)
Definition session : list ResizePage.Op :=
  [ResizePage.Select Resize.both_empty ids picked;
   ResizePage.ResizeAll browser_ok Resize.both_empty].

Definition after_session : Resize.State :=
  fold_left ResizePage.apply session ResizePage.initial.

(** The same session followed by the selection of a file that is typed
    as an image and does not decode. *)
Definition torn_session : list ResizePage.Op :=
  session
  ++ [ResizePage.Select Resize.both_empty (λ k, ids (k + 2))
        [broken "torn.png" "image/png"]].

Definition after_torn : ResizePage.Page :=
  fold_left ResizePage.apply_page torn_session ResizePage.initial_page.

(** Both sizes typed, aspect ratio kept. *)
Definition box (w h : Z) : Resize.Settings :=
  {| Resize.s_targetWidth := Some w; Resize.s_targetHeight := Some h;
     Resize.maintainAspectRatio := true; Resize.quality := 9 # 10 |}.

(** Two photographs that have the same file name, selected and resized
    into a box of 100 by 100. *)
Definition twins : list Resize.File :=
  [photo "image.png" "image/png" 640 480;
   photo "image.png" "image/png" 480 640].

Definition twins_session : list ResizePage.Op :=
  [ResizePage.Select (box 100 100) ids twins;
   ResizePage.ResizeAll browser_ok (box 100 100)].

Definition twins_done : Resize.State :=
  fold_left ResizePage.apply twins_session ResizePage.initial.

(** A collage upload whose image did not load. *)
Definition unloaded : Collage.ImageFile :=
  {| Collage.file := {| Collage.name := "bad.png";
                        Collage.type := "image/png" |};
     Collage.id := "bad"; Collage.image := None |}.

(** The compress page with a photograph and a file that does not decode
    picked. *)
Definition torn : Compress.File :=
  {| Compress.name := "torn.png"; Compress.type := "image/png";
     Compress.size := 9; Compress.bitmap := None |}.

Definition scan : Compress.File :=
  Compress.one_pixel "scan.v2.png" "image/png" 255.

Definition compress_initial : Compress.State :=
  {| Compress.imageFiles := []; Compress.urls := no_urls;
     Compress.isCompressing := false |}.

Definition compress_picked : Compress.State :=
  CompressPage.handleImageSelect ids
    [Compress.one_pixel "shot.jpg" "image/jpeg" 255; torn]
    compress_initial.

(** The compress page after its batch ran on the two picked files. *)
Definition compress_done : Compress.State :=
  Compress.handleCompressAll Compress.surfaces_ok (λ _, 3) (7 # 10)
    compress_picked.

(** A resized item of the resize page. *)
Definition resized (n : string) : Resize.ImageFile :=
  {| Resize.file := photo n "image/jpeg" 640 480; Resize.id := "r";
     Resize.status := Resize.completed; Resize.resizedUrl := Some 0%nat;
     Resize.error_msg := None;
     Resize.originalWidth := Some 640; Resize.originalHeight := Some 480;
     Resize.targetWidth := Some 320; Resize.targetHeight := Some 240 |}.

(** A compressed item of the compress page. *)
Definition compressed (n : string) : Compress.ImageFile :=
  {| Compress.file := {| Compress.name := n; Compress.type := "image/jpeg";
                         Compress.size := 9; Compress.bitmap := None |};
     Compress.id := "c"; Compress.status := Compress.completed;
     Compress.compressedUrl := Some 0%nat; Compress.error_msg := None;
     Compress.originalSize := Some 9; Compress.compressedSize := Some 5 |}.

(** A blob of [n] bytes for every encoding. *)
Definition flat_size (n : Z) : Blob → Z := λ _, n.

End Samples.

(** * Properties *)

(** ** Arithmetic *)

Module JSFacts.
Import JS.

Lemma inject_Z_pos (z : Z) : 0 < z → (0 < inject_Z z)%Q.
Proof. intros Hz. change 0%Q with (inject_Z 0). by rewrite <- Zlt_Qlt. Qed.




Lemma Qfloor_unique (x : Q) (z : Z) :
  (inject_Z z <= x)%Q → (x < inject_Z (z + 1))%Q → Qfloor x = z.
Proof.
  intros Hlo Hhi.
  pose proof (Qfloor_le x) as H1. pose proof (Qlt_floor x) as H2.
  assert (Ha : z < Qfloor x + 1).
  { rewrite Zlt_Qlt. eapply Qle_lt_trans; eauto. }
  assert (Hb : Qfloor x < z + 1).
  { rewrite Zlt_Qlt. eapply Qle_lt_trans; eauto. }
  lia.
Qed.

Lemma Qfloor_div (a b : Z) :
  0 < b → Qfloor (inject_Z a / inject_Z b) = a / b.
Proof.
  intros Hb. apply Qfloor_unique.
  - apply Qle_shift_div_l; [by apply inject_Z_pos|].
    rewrite <- inject_Z_mult, <- Zle_Qle.
    rewrite Z.mul_comm. apply Z.mul_div_le. lia.
  - apply Qlt_shift_div_r; [by apply inject_Z_pos|].
    rewrite <- inject_Z_mult, <- Zlt_Qlt.
    rewrite Z.mul_comm. apply Z.mul_succ_div_gt. lia.
Qed.

(** [Math.ceil] of a quotient of integers is the integer division
    rounded up. *)
Lemma Math_ceil_div (n d : Z) :
  0 < d → Math_ceil (inject_Z n / inject_Z d) = (n + d - 1) / d.
Proof.
  intros Hd. unfold Math_ceil, Qceiling.
  assert (E : (- (inject_Z n / inject_Z d) == inject_Z (- n) / inject_Z d)%Q).
  { rewrite inject_Z_opp. field. pose proof (inject_Z_pos d Hd). lra. }
  rewrite (Qfloor_comp _ _ E), Qfloor_div by done.
  pose proof (Z.div_mod (- n) d) as H1.
  pose proof (Z.mod_pos_bound (- n) d Hd) as H2.
  apply Z.div_unique with (r := d - 1 - (- n) mod d); lia.
Qed.

Lemma Math_round_int (z : Z) : Math_round (inject_Z z) = z.
Proof.
  unfold Math_round. apply Qfloor_unique.
  - lra.
  - rewrite inject_Z_plus. change (inject_Z 1) with 1%Q. lra.
Qed.

Lemma Math_round_comp (x y : Q) : (x == y)%Q → Math_round x = Math_round y.
Proof. intros E. unfold Math_round. by rewrite E. Qed.

Lemma Math_round_mono (x y : Q) :
  (x <= y)%Q → Math_round x ≤ Math_round y.
Proof. intros Hle. unfold Math_round. apply Qfloor_resp_le. lra. Qed.

(** The rounded value is within half a unit of the argument. *)
Lemma Math_round_near (x : Q) :
  (x - (1 # 2) < inject_Z (Math_round x))%Q ∧
  (inject_Z (Math_round x) <= x + (1 # 2))%Q.
Proof.
  unfold Math_round.
  pose proof (Qfloor_le (x + (1 # 2))) as H1.
  pose proof (Qlt_floor (x + (1 # 2))) as H2.
  rewrite inject_Z_plus in H2. change (inject_Z 1) with 1%Q in H2.
  split; lra.
Qed.

Lemma Math_min_l (x y : Q) : (x <= y)%Q → Math_min x y = x.
Proof.
  intros Hle. unfold Math_min.
  destruct (Qle_bool x y) eqn:E; [done|].
  apply Qle_bool_iff in Hle. congruence.
Qed.

Lemma Math_min_r (x y : Q) : ¬ (x <= y)%Q → Math_min x y = y.
Proof.
  intros Hn. unfold Math_min.
  destruct (Qle_bool x y) eqn:E; [|done].
  apply Qle_bool_iff in E. contradiction.
Qed.

Lemma Math_max_Qmax (x y : Q) : (Math_max x y == Qmax x y)%Q.
Proof.
  unfold Math_max. destruct (Qle_bool x y) eqn:E.
  - apply Qle_bool_iff in E. symmetry. by apply Q.max_r.
  - symmetry. apply Q.max_l. apply Qlt_le_weak, Qnot_le_lt.
    intros Hle. apply Qle_bool_iff in Hle. congruence.
Qed.

Lemma Math_max_lower (x y : Q) : (x <= Math_max x y)%Q.
Proof.
  unfold Math_max. destruct (Qle_bool x y) eqn:E.
  - by apply Qle_bool_iff.
  - apply Qle_refl.
Qed.

Lemma nonzero_pos (z : Z) : 0 < z → nonzero (Some z) = Some z.
Proof. intros Hz. unfold nonzero. destruct (Z.eqb_spec z 0); [lia|done]. Qed.

Lemma truthy_pos (z : Z) : 0 < z → truthy (Some z) = true.
Proof. intros Hz. unfold truthy. destruct (Z.eqb_spec z 0); [lia|done]. Qed.

Lemma or_else_pos (z d : Z) : 0 < z → or_else (Some z) d = z.
Proof. intros Hz. unfold or_else. destruct (Z.eqb_spec z 0); [lia|done]. Qed.

Lemma truthy_inv (o : option Z) :
  truthy o = true → ∃ z, o = Some z ∧ z ≠ 0.
Proof.
  destruct o as [z|]; [|done]. cbn. intros Hz.
  exists z. split; [done|]. apply negb_true_iff in Hz. by apply Z.eqb_neq.
Qed.

Lemma or_else_one (o : option Z) : or_else o 1 ≠ 0.
Proof.
  destruct o as [z|]; cbn; [|done].
  destruct (Z.eqb_spec z 0); [done|lia].
Qed.

Lemma some_from_spec {A} (p : A → nat → bool) (arr : list A) (i : nat) :
  some_from p i arr = true ↔
  ∃ j x, arr !! j = Some x ∧ p x (i + j)%nat = true.
Proof.
  revert i. induction arr as [|a arr IH]; intros i; cbn.
  - split; [done|]. by intros (j & x & Hj & _).
  - rewrite orb_true_iff, IH. split.
    + intros [Hp|(j & x & Hj & Hp)].
      * exists 0%nat, a. split; [done|]. by rewrite Nat.add_0_r.
      * exists (S j), x. split; [done|]. by rewrite Nat.add_succ_r.
    + intros (j & x & Hj & Hp). destruct j as [|j].
      * left. cbn in Hj. simplify_eq. by rewrite Nat.add_0_r in Hp.
      * right. exists j, x. split; [done|]. by rewrite Nat.add_succ_r in Hp.
Qed.

Lemma some_spec {A} (p : A → nat → bool) (arr : list A) :
  some p arr = true ↔ ∃ j x, arr !! j = Some x ∧ p x j = true.
Proof. unfold some. by rewrite some_from_spec. Qed.

End JSFacts.

(** ** Double precision and the sides of a canvas *)

Module NumberFacts.
Import JS JSFacts DOM.

Lemma two_pos : (0 < 2)%Q.
Proof. reflexivity. Qed.

Lemma two_neq_0 : ¬ (2 == 0)%Q.
Proof. discriminate. Qed.

Lemma pow2_pos (e : Z) : (0 < 2 ^ e)%Q.
Proof. apply Qpower_0_lt, two_pos. Qed.

Lemma pow2_succ (e : Z) : (2 ^ (e + 1) == 2 * 2 ^ e)%Q.
Proof. rewrite Qpower_plus by apply two_neq_0. ring. Qed.

Lemma pow2_mono (a b : Z) : a ≤ b → (2 ^ a <= 2 ^ b)%Q.
Proof. intros H. apply Qpower_le_compat_l; [done|]. discriminate. Qed.

Lemma pow2_lt_inv (a b : Z) : (2 ^ a < 2 ^ b)%Q → a < b.
Proof. intros H. by apply (Qpower_lt_compat_l_inv 2). Qed.

Lemma pow2_nat (e : Z) : 0 ≤ e → (inject_Z (2 ^ e) == 2 ^ e)%Q.
Proof. intros He. by rewrite Zpower_Qpower. Qed.

Lemma Qmake_div (n : Z) (d : positive) :
  (n # d == inject_Z n / inject_Z (Z.pos d))%Q.
Proof. apply Qmake_Qdiv. Qed.

(** An integer between two powers of two. *)
Lemma log2_bounds (n : Z) :
  0 < n →
  (2 ^ Z.log2 n <= inject_Z n ∧ inject_Z n < 2 ^ (Z.log2 n + 1))%Q.
Proof.
  intros Hn. destruct (Z.log2_spec n Hn) as [H1 H2].
  assert (H0 := Z.log2_nonneg n).
  rewrite <- !pow2_nat by lia. rewrite <- Zle_Qle, <- Zlt_Qlt.
  split; [done|]. by replace (Z.log2 n + 1) with (Z.succ (Z.log2 n)) by lia.
Qed.

Lemma binade_spec (x : Q) :
  (0 < x)%Q → (2 ^ binade x <= x ∧ x < 2 ^ (binade x + 1))%Q.
Proof.
  intros Hx. destruct x as [n d].
  assert (Hn : 0 < n).
  { unfold Qlt in Hx. cbn in Hx. lia. }
  unfold binade. cbn [Qnum Qden].
  set (a := Z.log2 n). set (b := Z.log2 (Z.pos d)).
  destruct (log2_bounds n Hn) as [Ha1 Ha2]. fold a in Ha1, Ha2.
  destruct (log2_bounds (Z.pos d) eq_refl) as [Hb1 Hb2].
  fold b in Hb1, Hb2.
  assert (Hd : (0 < inject_Z (Z.pos d))%Q) by reflexivity.
  assert (Hpb := pow2_pos b). assert (Hpb1 := pow2_pos (b + 1)).
  assert (Hpa := pow2_pos a).
  assert (Ex : (n # d == inject_Z n / inject_Z (Z.pos d))%Q)
    by apply Qmake_Qdiv.
  assert (Hlow : (2 ^ (a - b - 1) <= n # d)%Q).
  { rewrite Ex.
    replace (a - b - 1) with (a - (b + 1)) by lia.
    rewrite Qpower_minus by apply two_neq_0.
    apply Qle_shift_div_l; [done|].
    apply Qle_trans with (2 ^ a / 2 ^ (b + 1) * 2 ^ (b + 1))%Q.
    - apply Qmult_le_l.
      + apply Qlt_shift_div_l; [done|]. by rewrite Qmult_0_l.
      + by apply Qlt_le_weak.
    - assert (E : (2 ^ a / 2 ^ (b + 1) * 2 ^ (b + 1) == 2 ^ a)%Q).
      { field. intros E. rewrite E in Hpb1. by apply Qlt_irrefl in Hpb1. }
      by rewrite E. }
  assert (Hhigh : (n # d < 2 ^ (a - b + 1))%Q).
  { rewrite Ex.
    replace (a - b + 1) with (a + 1 - b) by lia.
    rewrite Qpower_minus by apply two_neq_0.
    apply Qlt_shift_div_r; [done|].
    apply Qlt_le_trans with (2 ^ (a + 1))%Q; [done|].
    assert (E : (2 ^ (a + 1) == 2 ^ (a + 1) / 2 ^ b * 2 ^ b)%Q).
    { field. intros E. rewrite E in Hpb. by apply Qlt_irrefl in Hpb. }
    rewrite E at 1. apply Qmult_le_l; [|done].
    apply Qlt_shift_div_l; [done|]. rewrite Qmult_0_l. apply pow2_pos. }
  destruct (Qle_bool (2 ^ (a - b)) (n # d)) eqn:E.
  - apply Qle_bool_iff in E. split; [done|]. exact Hhigh.
  - split; [exact Hlow|].
    replace (a - b - 1 + 1) with (a - b) by lia.
    apply Qnot_le_lt. intros H. apply Qle_bool_iff in H. congruence.
Qed.


Lemma round_even_floor (y : Q) :
  Qfloor y ≤ round_even y ≤ Qfloor y + 1.
Proof.
  unfold round_even. destruct (_ ?= _)%Q; [|lia|lia].
  destruct (Z.even _); lia.
Qed.

(** The nearest integer is within a half. *)
Lemma round_even_near (y : Q) :
  (y - (1 # 2) <= inject_Z (round_even y) ∧
   inject_Z (round_even y) <= y + (1 # 2))%Q.
Proof.
  assert (H1 := Qfloor_le y). assert (H2 := Qlt_floor y).
  rewrite inject_Z_plus in H2. change (inject_Z 1) with 1%Q in H2.
  unfold round_even.
  destruct (Qcompare_spec (y - inject_Z (Qfloor y)) (1 # 2)) as [E|E|E].
  - destruct (Z.even _); [split; lra|].
    rewrite inject_Z_plus. change (inject_Z 1) with 1%Q. split; lra.
  - split; lra.
  - rewrite inject_Z_plus. change (inject_Z 1) with 1%Q. split; lra.
Qed.

Lemma round_even_int (y : Q) (k : Z) :
  (y == inject_Z k)%Q → round_even y = k.
Proof.
  intros E. unfold round_even.
  rewrite (Qfloor_comp _ _ E), Qfloor_Z.
  destruct (Qcompare_spec (y - inject_Z k) (1 # 2)) as [H|H|H];
    [|done|]; exfalso; rewrite E in H; lra.
Qed.

Lemma round_even_ge (y : Q) (n : Z) :
  (inject_Z n <= y)%Q → n ≤ round_even y.
Proof.
  intros H. apply Qfloor_resp_le in H. rewrite Qfloor_Z in H.
  pose proof (round_even_floor y). lia.
Qed.

Lemma Qred_canonical (q : Q) : Qred (Qred q) = Qred q.
Proof. apply Qred_complete, Qred_correct. Qed.

Lemma Qred_inject_Z (k : Z) : Qred (inject_Z k) = inject_Z k.
Proof.
  apply Qcanon.Qred_identity. cbn. apply Z.gcd_1_r.
Qed.

Lemma canonical_eq (p q : Q) :
  Qred p = p → Qred q = q → (p == q)%Q → p = q.
Proof. intros Hp Hq E. rewrite <- Hp, <- Hq. by apply Qred_complete. Qed.

(** [fl] sees the value of its argument, not its writing. *)
Lemma fl_comp (x y : Q) : (x == y)%Q → fl x = fl y.
Proof. intros E. unfold fl. by rewrite (Qred_complete _ _ E). Qed.

(** The result of a rounding is in lowest terms. *)
Lemma round_pos_canonical (x q : Q) :
  round_pos x = Finite q → Qred q = q.
Proof.
  unfold round_pos. destruct (Qle_bool _ _); [done|].
  intros [= <-]. apply Qred_canonical.
Qed.

Lemma fl_canonical (x q : Q) : fl x = Finite q → Qred q = q.
Proof.
  unfold fl. destruct (_ ?= _)%Q.
  - by intros [= <-].
  - destruct (round_pos _) as [r| |] eqn:E; cbn; [|done|done].
    intros [= <-]. apply Qred_canonical.
  - apply round_pos_canonical.
Qed.

(** The exponent of a number in the range of the normal doubles. *)
Lemma binade_normal (x : Q) :
  (2 ^ (-1022) <= x)%Q → (x < 2 ^ 1023)%Q →
  -1022 ≤ binade x ≤ 1022.
Proof.
  intros Hlo Hhi.
  assert (Hx : (0 < x)%Q).
  { eapply Qlt_le_trans; [apply (pow2_pos (-1022))|done]. }
  destruct (binade_spec x Hx) as [H1 H2].
  assert (binade x < 1023).
  { apply pow2_lt_inv. eapply Qle_lt_trans; done. }
  assert (-1022 < binade x + 1).
  { apply pow2_lt_inv. eapply Qle_lt_trans; done. }
  lia.
Qed.

(** Rounding a positive number of the normal range: the result is
    finite and within the relative distance [2^-53]. *)
Lemma round_pos_close (x : Q) :
  (2 ^ (-1022) <= x)%Q → (x < 2 ^ 1023)%Q →
  ∃ q, round_pos x = Finite q ∧
       ((x - q) * 9007199254740992 <= x ∧
        (q - x) * 9007199254740992 <= x)%Q.
Proof.
  intros Hlo Hhi.
  assert (Hx : (0 < x)%Q).
  { eapply Qlt_le_trans; [apply (pow2_pos (-1022))|done]. }
  destruct (binade_normal x Hlo Hhi) as [He1 He2].
  destruct (binade_spec x Hx) as [H1 H2].
  unfold round_pos, ulp. rewrite Z.max_l by lia.
  set (e := binade x) in *. set (u := (2 ^ (e - 52))%Q).
  assert (Hu : (0 < u)%Q) by apply pow2_pos.
  assert (Eu : (u * 4503599627370496 == 2 ^ e)%Q).
  { unfold u. rewrite Qpower_minus by apply two_neq_0.
    change (2 ^ 52)%Q with 4503599627370496%Q. field. }
  destruct (round_even_near (x / u)) as [Hm1 Hm2].
  set (m := inject_Z (round_even (x / u))) in *.
  assert (Exu : (x / u * u == x)%Q) by (field; lra).
  assert (Hq1 : (x - u * (1 # 2) <= m * u)%Q).
  { assert (H := Qmult_le_compat_r _ _ u Hm1 (Qlt_le_weak _ _ Hu)).
    lra. }
  assert (Hq2 : (m * u <= x + u * (1 # 2))%Q).
  { assert (H := Qmult_le_compat_r _ _ u Hm2 (Qlt_le_weak _ _ Hu)).
    lra. }
  assert (Hux : (u * 4503599627370496 <= x)%Q) by (by rewrite Eu).
  destruct (Qle_bool (2 ^ 1024) (m * u)) eqn:Eo.
  { exfalso. apply Qle_bool_iff in Eo.
    assert (E2 : (2 ^ 1024 == 2 * 2 ^ 1023)%Q) by apply (pow2_succ 1023).
    rewrite E2 in Eo. lra. }
  exists (Qred (m * u)). split; [done|].
  rewrite Qred_correct. split; lra.
Qed.

Lemma fl_pos (x : Q) : (0 < x)%Q → fl x = round_pos (Qred x).
Proof.
  intros Hx. unfold fl.
  destruct (Qcompare_spec (Qred x) 0) as [E|E|E]; [| |done];
    rewrite Qred_correct in E; lra.
Qed.

Lemma fl_close (x : Q) :
  (2 ^ (-1022) <= x)%Q → (x < 2 ^ 1023)%Q →
  ∃ q, fl x = Finite q ∧ Qred q = q ∧
       ((x - q) * 9007199254740992 <= x ∧
        (q - x) * 9007199254740992 <= x)%Q.
Proof.
  intros Hlo Hhi.
  assert (Hx : (0 < x)%Q).
  { eapply Qlt_le_trans; [apply (pow2_pos (-1022))|done]. }
  rewrite fl_pos by done.
  destruct (round_pos_close (Qred x)) as (q & Hq & H1 & H2);
    [by rewrite Qred_correct..|].
  exists q. split; [done|]. split; [by eapply round_pos_canonical|].
  rewrite Qred_correct in H1, H2. by split.
Qed.


(** The grid of the doubles around [x] holds every integer below
    [2^53] when [x] is below [2^53]. *)
Lemma on_grid (k e : Z) :
  e ≤ 52 →
  (inject_Z k / 2 ^ (e - 52) == inject_Z (k * 2 ^ (52 - e)))%Q.
Proof.
  intros He. rewrite inject_Z_mult, pow2_nat by lia.
  replace (e - 52) with (- (52 - e)) by lia.
  rewrite Qpower_opp. field.
  intros E. pose proof (pow2_pos (52 - e)) as H. rewrite E in H.
  by apply Qlt_irrefl in H.
Qed.

Lemma grid_top (e : Z) :
  (inject_Z (2 ^ 52) * 2 ^ (e - 52) == 2 ^ e)%Q.
Proof.
  rewrite Qpower_minus by apply two_neq_0.
  change (inject_Z (2 ^ 52)) with 4503599627370496%Q.
  change (2 ^ 52)%Q with 4503599627370496%Q. field.
Qed.

Lemma binade_int (k : Z) :
  0 < k → k < 2 ^ 53 → 0 ≤ binade (inject_Z k) ≤ 52.
Proof.
  intros Hk Hk'.
  assert (Hx : (0 < inject_Z k)%Q).
  { change 0%Q with (inject_Z 0). by rewrite <- Zlt_Qlt. }
  destruct (binade_spec _ Hx) as [H1 H2].
  assert (binade (inject_Z k) < 53).
  { apply pow2_lt_inv. eapply Qle_lt_trans; [exact H1|].
    rewrite <- pow2_nat by lia. by rewrite <- Zlt_Qlt. }
  assert (0 < binade (inject_Z k) + 1).
  { apply pow2_lt_inv. eapply Qle_lt_trans; [|exact H2].
    change (2 ^ 0)%Q with (inject_Z 1). rewrite <- Zle_Qle. lia. }
  lia.
Qed.

(** Integers below [2^53] are doubles. *)
Lemma fl_int (k : Z) :
  0 ≤ k → k < 2 ^ 53 → fl (inject_Z k) = Finite (inject_Z k).
Proof.
  intros Hk Hk'.
  destruct (Z.eq_dec k 0) as [->|Hne]; [reflexivity|].
  assert (Hx : (0 < inject_Z k)%Q).
  { change 0%Q with (inject_Z 0). rewrite <- Zlt_Qlt. lia. }
  rewrite fl_pos, Qred_inject_Z by done.
  destruct (binade_int k) as [He1 He2]; [lia|done|].
  unfold round_pos, ulp. rewrite Z.max_l by lia.
  set (e := binade (inject_Z k)) in *.
  rewrite (round_even_int _ _ (on_grid k e He2)).
  assert (E : (inject_Z (k * 2 ^ (52 - e)) * 2 ^ (e - 52) == inject_Z k)%Q).
  { rewrite <- on_grid by done. field.
    intros E. pose proof (pow2_pos (e - 52)) as H. rewrite E in H.
    by apply Qlt_irrefl in H. }
  destruct (Qle_bool _ _) eqn:Eo.
  { exfalso. apply Qle_bool_iff in Eo. rewrite E in Eo.
    assert (H : (inject_Z k < 2 ^ 1024)%Q).
    { eapply Qlt_le_trans with (2 ^ 53)%Q.
      - rewrite <- pow2_nat by lia. by rewrite <- Zlt_Qlt.
      - by apply pow2_mono. }
    lra. }
  f_equal. rewrite (Qred_complete _ _ E). apply Qred_inject_Z.
Qed.

Lemma of_Z_int (k : Z) : 0 ≤ k → k < 2 ^ 53 → of_Z k = Finite (inject_Z k).
Proof. apply fl_int. Qed.

(** Rounding does not go below an integer that is on the grid. *)
Lemma round_pos_ge_int (k : Z) (x : Q) :
  0 < k → k < 2 ^ 53 → (inject_Z k <= x)%Q →
  round_pos x = Infinity false ∨
  ∃ q, round_pos x = Finite q ∧ (inject_Z k <= q)%Q.
Proof.
  intros Hk Hk' Hkx.
  assert (Hk0 : (0 < inject_Z k)%Q).
  { change 0%Q with (inject_Z 0). by rewrite <- Zlt_Qlt. }
  assert (Hx : (0 < x)%Q) by lra.
  destruct (binade_spec x Hx) as [H1 H2].
  assert (He0 : 0 ≤ binade x).
  { assert (0 < binade x + 1); [|lia].
    apply pow2_lt_inv. eapply Qle_lt_trans; [|exact H2].
    eapply Qle_trans; [|exact Hkx].
    change (2 ^ 0)%Q with (inject_Z 1). rewrite <- Zle_Qle. lia. }
  unfold round_pos, ulp. rewrite Z.max_l by lia.
  set (e := binade x) in *. set (u := (2 ^ (e - 52))%Q).
  assert (Hu : (0 < u)%Q) by apply pow2_pos.
  assert (Hq : (inject_Z k <= inject_Z (round_even (x / u)) * u)%Q).
  { destruct (Z_le_gt_dec e 52) as [He|He].
    - assert (Hn : k * 2 ^ (52 - e) ≤ round_even (x / u)).
      { apply round_even_ge. rewrite <- on_grid by done. fold u.
        apply Qmult_le_compat_r; [done|].
        apply Qlt_le_weak, Qinv_lt_0_compat. done. }
      rewrite Zle_Qle in Hn.
      assert (H := Qmult_le_compat_r _ _ u Hn (Qlt_le_weak _ _ Hu)).
      assert (E : (inject_Z (k * 2 ^ (52 - e)) * u == inject_Z k)%Q).
      { rewrite <- on_grid by done. fold u. field. lra. }
      by rewrite E in H.
    - assert (Hn : 2 ^ 52 ≤ round_even (x / u)).
      { apply round_even_ge. apply Qle_shift_div_l; [done|].
        eapply Qle_trans; [|exact H1]. unfold u.
        rewrite (grid_top e). apply Qle_refl. }
      rewrite Zle_Qle in Hn.
      assert (H := Qmult_le_compat_r _ _ u Hn (Qlt_le_weak _ _ Hu)).
      eapply Qle_trans; [|exact H].
      unfold u. rewrite (grid_top e). apply Qle_trans with (2 ^ 53)%Q.
      + rewrite <- pow2_nat by lia. rewrite <- Zle_Qle. lia.
      + apply pow2_mono. lia. }
  destruct (Qle_bool _ _); [by left|]. right.
  eexists. split; [reflexivity|]. by rewrite Qred_correct.
Qed.

Lemma fl_ge_int (k : Z) (x : Q) :
  0 < k → k < 2 ^ 53 → (inject_Z k <= x)%Q →
  fl x = Infinity false ∨
  ∃ q, fl x = Finite q ∧ Qred q = q ∧ (inject_Z k <= q)%Q.
Proof.
  intros Hk Hk' Hkx.
  assert (Hk0 : (0 < inject_Z k)%Q).
  { change 0%Q with (inject_Z 0). by rewrite <- Zlt_Qlt. }
  rewrite fl_pos by lra.
  destruct (round_pos_ge_int k (Qred x)) as [H|(q & Hq & Hle)];
    [done|done|by rewrite Qred_correct|by left|].
  right. exists q. split; [done|]. split; [|done].
  by eapply round_pos_canonical.
Qed.


(** *** Numbers of the sizes at hand *)

Lemma tiny_normal : (2 ^ (-1022) <= 1 # 1099511627776)%Q.
Proof. vm_compute. discriminate. Qed.

Lemma large_normal : (1180591620717411303424 < 2 ^ 1023)%Q.
Proof. vm_compute. reflexivity. Qed.

(** Between [2^-40] and [2^70] rounding is within the relative distance
    [2^-53]. *)
Lemma fl_close_mid (x : Q) :
  (1 # 1099511627776 <= x)%Q → (x <= 1180591620717411303424)%Q →
  ∃ q, fl x = Finite q ∧ Qred q = q ∧
       ((x - q) * 9007199254740992 <= x ∧
        (q - x) * 9007199254740992 <= x)%Q.
Proof.
  intros Hlo Hhi. apply fl_close.
  - eapply Qle_trans; [apply tiny_normal|done].
  - eapply Qle_lt_trans; [exact Hhi|apply large_normal].
Qed.

Lemma Math_round_exact (c : Q) (k : Z) :
  (inject_Z k - (1 # 2) <= c)%Q → (c < inject_Z k + (1 # 2))%Q →
  Math_round c = k.
Proof.
  intros H1 H2. unfold Math_round. apply Qfloor_unique.
  - lra.
  - rewrite inject_Z_plus. change (inject_Z 1) with 1%Q. lra.
Qed.

Lemma Math_round_le (c : Q) (k : Z) :
  (c < inject_Z k + (1 # 2))%Q → Math_round c ≤ k.
Proof.
  intros H. destruct (Math_round_near c) as [H1 _].
  assert (Hlt : (inject_Z (Math_round c) < inject_Z (k + 1))%Q).
  { rewrite inject_Z_plus. change (inject_Z 1) with 1%Q.
    destruct (Math_round_near c) as [_ H2].
    unfold Math_round in *.
    pose proof (Qfloor_le (c + (1 # 2))). lra. }
  rewrite <- Zlt_Qlt in Hlt. lia.
Qed.

Lemma Math_round_nonneg (c : Q) : (0 <= c)%Q → 0 ≤ Math_round c.
Proof.
  intros H. rewrite <- (Math_round_int 0). apply Math_round_mono. done.
Qed.

(** *** The side of a canvas *)

Lemma truncate_int (k : Z) : truncate (inject_Z k) = k.
Proof.
  unfold truncate. destruct (Qle_bool 0 (inject_Z k)).
  - apply Qfloor_Z.
  - apply Qceiling_Z.
Qed.

Lemma canvas_side_int (dflt k : Z) :
  0 ≤ k → k ≤ 2 ^ 31 - 1 → canvas_side dflt (inject_Z k) = k.
Proof.
  intros H0 H1. unfold canvas_side. rewrite truncate_int.
  rewrite Z.mod_small by lia. destruct (Z.leb_spec k (2 ^ 31 - 1)); lia.
Qed.

(** A number below [2^31]: the side is its integer part. *)
Lemma canvas_side_floor (dflt : Z) (x : Q) :
  (0 <= x)%Q → (x < 2147483648)%Q → canvas_side dflt x = Qfloor x.
Proof.
  intros H0 H1. unfold canvas_side, truncate.
  assert (E : Qle_bool 0 x = true) by (by apply Qle_bool_iff).
  rewrite E.
  assert (Ha : 0 ≤ Qfloor x).
  { apply Qfloor_resp_le in H0. exact H0. }
  assert (Hb : Qfloor x < 2147483648).
  { rewrite Zlt_Qlt. eapply Qle_lt_trans; [apply Qfloor_le|done]. }
  rewrite Z.mod_small by lia.
  destruct (Z.leb_spec (Qfloor x) (2 ^ 31 - 1)); lia.
Qed.

(** An integer beyond [2^31 - 1]: the side is what is left modulo
    [2^32], or the default. *)
Lemma canvas_side_wrap (dflt k : Z) :
  canvas_side dflt (inject_Z k)
  = if k mod 2 ^ 32 <=? 2 ^ 31 - 1 then k mod 2 ^ 32 else dflt.
Proof. unfold canvas_side. by rewrite truncate_int. Qed.

Lemma canvas_side_bounds (dflt : Z) (x : Q) :
  0 ≤ dflt ≤ 2 ^ 31 - 1 → 0 ≤ canvas_side dflt x ≤ 2 ^ 31 - 1.
Proof.
  intros Hd. unfold canvas_side.
  pose proof (Z.mod_pos_bound (truncate x) (2 ^ 32) eq_refl).
  destruct (Z.leb_spec (truncate x mod 2 ^ 32) (2 ^ 31 - 1)); lia.
Qed.


(** *** Scaling a side by a rounded ratio *)

Lemma Qeq_bool_pos (k : Z) : 0 < k → Qeq_bool (inject_Z k) 0 = false.
Proof.
  intros Hk. apply not_true_is_false. intros E.
  apply Qeq_bool_eq in E. unfold Qeq in E. cbn in E. lia.
Qed.

Lemma num_truthy_pos (k : Z) :
  0 < k → num_truthy (Some (Finite (inject_Z k))) = true.
Proof. intros Hk. cbn. by rewrite Qeq_bool_pos. Qed.

Lemma num_div_pos (x : Q) (k : Z) :
  0 < k → num_div (Finite x) (Finite (inject_Z k)) = fl (x / inject_Z k).
Proof. intros Hk. cbn. by rewrite Qeq_bool_pos. Qed.

Lemma inject_Z_pos' (k : Z) : 0 < k → (0 < inject_Z k)%Q.
Proof. intros. change 0%Q with (inject_Z 0). by rewrite <- Zlt_Qlt. Qed.

Lemma inject_Z_le_max (k : Z) :
  k ≤ 2 ^ 31 - 1 → (inject_Z k <= 2147483647)%Q.
Proof.
  intros. change 2147483647%Q with (inject_Z 2147483647).
  rewrite <- Zle_Qle. lia.
Qed.

Lemma inject_Z_ge_1 (k : Z) : 0 < k → (1 <= inject_Z k)%Q.
Proof. intros. change 1%Q with (inject_Z 1). rewrite <- Zle_Qle. lia. Qed.

(** The quotient of two sides. *)
Lemma side_quotient_bounds (t S : Z) :
  0 < t → t ≤ 2 ^ 31 - 1 → 0 < S → S ≤ 2 ^ 31 - 1 →
  (1 # 2147483648 <= inject_Z t / inject_Z S)%Q ∧
  (inject_Z t / inject_Z S <= 2147483647)%Q.
Proof.
  intros Ht Ht' HS HS'.
  pose proof (inject_Z_pos' _ Ht). pose proof (inject_Z_pos' _ HS).
  pose proof (inject_Z_le_max _ Ht'). pose proof (inject_Z_le_max _ HS').
  pose proof (inject_Z_ge_1 _ Ht). pose proof (inject_Z_ge_1 _ HS).
  split.
  - apply Qle_shift_div_l; [done|]. lra.
  - apply Qle_shift_div_r; [done|]. nra.
Qed.

(** The ratio the resizer scales by is the smaller of the two quotients,
    up to the rounding of one division. *)
Lemma ratio_close (W H w h : Z) :
  0 < W → W ≤ 2 ^ 31 - 1 → 0 < H → H ≤ 2 ^ 31 - 1 →
  0 < w → w ≤ 2 ^ 31 - 1 → 0 < h → h ≤ 2 ^ 31 - 1 →
  let m := Math_min (inject_Z w / inject_Z W) (inject_Z h / inject_Z H) in
  ∃ r, num_min (num_div (Finite (inject_Z w)) (Finite (inject_Z W)))
               (num_div (Finite (inject_Z h)) (Finite (inject_Z H)))
       = Finite r ∧
       ((m - r) * 9007199254740992 <= m ∧
        (r - m) * 9007199254740992 <= m)%Q.
Proof.
  intros HW HW' HH HH' Hw Hw' Hh Hh' m.
  rewrite !num_div_pos by done.
  destruct (side_quotient_bounds w W) as [Ha1 Ha2]; try done.
  destruct (side_quotient_bounds h H) as [Hb1 Hb2]; try done.
  destruct (fl_close_mid (inject_Z w / inject_Z W)) as (a & Ea & _ & Ha);
    [lra|lra|].
  destruct (fl_close_mid (inject_Z h / inject_Z H)) as (b & Eb & _ & Hb);
    [lra|lra|].
  rewrite Ea, Eb. unfold m, Math_min.
  set (x := (inject_Z w / inject_Z W)%Q) in *.
  set (y := (inject_Z h / inject_Z H)%Q) in *.
  cbn [num_min num_le].
  destruct (Qle_bool a b) eqn:Eab; destruct (Qle_bool x y) eqn:Exy;
    eexists; (split; [reflexivity|]);
    try (apply Qle_bool_iff in Eab); try (apply Qle_bool_iff in Exy);
    try (assert (Hab : (b < a)%Q)
           by (apply Qnot_le_lt; intros Hc; apply Qle_bool_iff in Hc;
               congruence));
    try (assert (Hxy : (y < x)%Q)
           by (apply Qnot_le_lt; intros Hc; apply Qle_bool_iff in Hc;
               congruence));
    lra.
Qed.

(** A side [S] times the rounded ratio, rounded to a whole number, when
    the exact product [S * m] is at most the side [t] of the box: the
    result is within the box, within half a pixel and [2^-20] of the
    exact product, and equal to [t] when the exact product is. *)
Lemma scale_side (S t : Z) (m r : Q) :
  0 < S → S ≤ 2 ^ 31 - 1 → 0 < t → t ≤ 2 ^ 31 - 1 →
  (1 # 2147483648 <= m)%Q →
  ((m - r) * 9007199254740992 <= m ∧
   (r - m) * 9007199254740992 <= m)%Q →
  (inject_Z S * m <= inject_Z t)%Q →
  ∃ k, num_round (num_mul (Finite (inject_Z S)) (Finite r))
       = Finite (inject_Z k) ∧
       0 ≤ k ∧ k ≤ t ∧
       (inject_Z S * m - (1 # 2) - (1 # 1048576) <= inject_Z k)%Q ∧
       (inject_Z k <= inject_Z S * m + (1 # 2) + (1 # 1048576))%Q ∧
       ((inject_Z S * m == inject_Z t)%Q → k = t).
Proof.
  intros HS HS' Ht Ht' Hm [Hr1 Hr2] Hfit.
  pose proof (inject_Z_pos' _ HS) as HSq.
  pose proof (inject_Z_le_max _ HS') as HSq'.
  pose proof (inject_Z_ge_1 _ HS) as HSq1.
  pose proof (inject_Z_le_max _ Ht') as Htq'.
  set (s := inject_Z S) in *. set (e := (s * m)%Q) in *.
  assert (He0 : (1 # 2147483648 <= e)%Q) by (unfold e; nra).
  assert (Hu1 : ((e - s * r) * 9007199254740992 <= e)%Q)
    by (unfold e; nra).
  assert (Hu2 : ((s * r - e) * 9007199254740992 <= e)%Q)
    by (unfold e; nra).
  destruct (fl_close_mid (s * r)) as (c & Ec & _ & Hc1 & Hc2);
    [lra|lra|].
  cbn [num_mul num_round]. rewrite Ec. cbn [num_round].
  eexists. split; [reflexivity|].
  split; [apply Math_round_nonneg; lra|].
  split; [apply Math_round_le; lra|].
  destruct (Math_round_near c) as [Hn1 Hn2].
  split; [lra|]. split; [lra|].
  intros E. apply Math_round_exact; lra.
Qed.


(** *** Deriving one side from the other *)

(** Dividing by a rounded quotient. *)
Lemma div_close (w x a : Q) :
  (0 < w)%Q → (0 < x)%Q →
  ((x - a) * 9007199254740992 <= x ∧
   (a - x) * 9007199254740992 <= x)%Q →
  (0 < a)%Q ∧
  ((w / a - w / x) * 9007199254740991 <= w / x ∧
   (w / x - w / a) * 9007199254740993 <= w / x)%Q.
Proof.
  intros Hw Hx [H1 H2].
  assert (Ha : (0 < a)%Q) by lra.
  split; [done|].
  assert (E1 : (w / a == w * x / (a * x))%Q) by (field; lra).
  assert (E2 : (w / x == w * a / (a * x))%Q) by (field; lra).
  assert (Hax : (0 < a * x)%Q) by nra.
  assert (Hd : (0 < / (a * x))%Q) by (by apply Qinv_lt_0_compat).
  rewrite E1, E2. unfold Qdiv. set (i := (/ (a * x))%Q) in *.
  assert (Hwx : (0 < w * x)%Q) by nra.
  assert (Hwa : (0 < w * a)%Q) by nra.
  assert (G1 : (w * x * 9007199254740991 <= w * a * 9007199254740992)%Q)
    by nra.
  assert (G2 : (w * a * 9007199254740992 <= w * x * 9007199254740993)%Q)
    by nra.
  split; nra.
Qed.

(** [round (t / fl (W / H))], a side derived from the width [t] and the
    aspect ratio, when the exact quotient is at most [2^30]. *)
Lemma derive_by_division (t W H : Z) :
  0 < W → W ≤ 2 ^ 31 - 1 → 0 < H → H ≤ 2 ^ 31 - 1 →
  0 < t → t * H ≤ 2 ^ 30 * W →
  let e := (inject_Z t / (inject_Z W / inject_Z H))%Q in
  ∃ k, num_round (num_div (Finite (inject_Z t))
                    (num_div (Finite (inject_Z W)) (Finite (inject_Z H))))
       = Finite (inject_Z k) ∧
       0 ≤ k ∧ k ≤ 2 ^ 31 - 1 ∧
       (e - (1 # 2) - (1 # 1048576) <= inject_Z k)%Q ∧
       (inject_Z k <= e + (1 # 2) + (1 # 1048576))%Q.
Proof.
  intros HW HW' HH HH' Ht Hfit e.
  rewrite (num_div_pos _ H) by done.
  destruct (side_quotient_bounds W H) as [Hx1 Hx2]; try done.
  destruct (fl_close_mid (inject_Z W / inject_Z H)) as (a & Ea & _ & Ha);
    [lra|lra|].
  rewrite Ea.
  pose proof (inject_Z_pos' _ Ht) as Htq.
  pose proof (inject_Z_pos' _ HW) as HWq.
  pose proof (inject_Z_pos' _ HH) as HHq.
  pose proof (inject_Z_ge_1 _ Ht) as Htq1.
  set (x := (inject_Z W / inject_Z H)%Q) in *.
  destruct (div_close (inject_Z t) x a) as (Ha0 & Hv1 & Hv2);
    [done|lra|done|].
  fold e in Hv1, Hv2.
  assert (He1 : (e <= 1073741824)%Q).
  { assert (Hx0 : (0 < x)%Q) by lra.
    unfold e. apply Qle_shift_div_r; [exact Hx0|]. unfold x.
    assert (E : (1073741824 * (inject_Z W / inject_Z H)
                 == 1073741824 * inject_Z W / inject_Z H)%Q)
      by (field; lra).
    rewrite E. apply Qle_shift_div_l; [done|].
    change 1073741824%Q with (inject_Z (2 ^ 30)).
    rewrite <- !inject_Z_mult, <- Zle_Qle. lia. }
  assert (He0 : (1 # 2147483648 <= e)%Q).
  { assert (Hx0 : (0 < x)%Q) by lra.
    unfold e. apply Qle_shift_div_l; [exact Hx0|]. nra. }
  cbn [num_div].
  assert (Ez : Qeq_bool a 0 = false).
  { apply not_true_is_false. intros E. apply Qeq_bool_eq in E. lra. }
  rewrite Ez.
  set (v := (inject_Z t / a)%Q) in *.
  destruct (fl_close_mid v) as (c & Ec & _ & Hc1 & Hc2); [lra|lra|].
  rewrite Ec. cbn [num_round].
  destruct (Math_round_near c) as [Hn1 Hn2].
  eexists. split; [reflexivity|].
  split; [apply Math_round_nonneg; lra|].
  split; [apply (Math_round_le _ (2 ^ 31 - 1));
          change (inject_Z (2 ^ 31 - 1)) with 2147483647%Q; lra|].
  split; lra.
Qed.

(** [round (t * fl (W / H))], a side derived from the height [t] and the
    aspect ratio, when the exact product is at most [2^30]. *)
Lemma derive_by_product (t W H : Z) :
  0 < W → W ≤ 2 ^ 31 - 1 → 0 < H → H ≤ 2 ^ 31 - 1 →
  0 < t → t * W ≤ 2 ^ 30 * H →
  let e := (inject_Z t * (inject_Z W / inject_Z H))%Q in
  ∃ k, num_round (num_mul (Finite (inject_Z t))
                    (num_div (Finite (inject_Z W)) (Finite (inject_Z H))))
       = Finite (inject_Z k) ∧
       0 ≤ k ∧ k ≤ 2 ^ 31 - 1 ∧
       (e - (1 # 2) - (1 # 1048576) <= inject_Z k)%Q ∧
       (inject_Z k <= e + (1 # 2) + (1 # 1048576))%Q.
Proof.
  intros HW HW' HH HH' Ht Hfit e.
  rewrite (num_div_pos _ H) by done.
  destruct (side_quotient_bounds W H) as [Hx1 Hx2]; try done.
  destruct (fl_close_mid (inject_Z W / inject_Z H)) as (a & Ea & _ & Ha);
    [lra|lra|].
  rewrite Ea.
  pose proof (inject_Z_pos' _ Ht) as Htq.
  pose proof (inject_Z_pos' _ HW) as HWq.
  pose proof (inject_Z_pos' _ HH) as HHq.
  pose proof (inject_Z_ge_1 _ Ht) as Htq1.
  set (x := (inject_Z W / inject_Z H)%Q) in *.
  assert (He1 : (e <= 1073741824)%Q).
  { unfold e, x.
    assert (E : (inject_Z t * (inject_Z W / inject_Z H)
                 == inject_Z t * inject_Z W / inject_Z H)%Q)
      by (field; lra).
    rewrite E. apply Qle_shift_div_r; [done|].
    change 1073741824%Q with (inject_Z (2 ^ 30)).
    rewrite <- !inject_Z_mult, <- Zle_Qle. lia. }
  assert (He0 : (1 # 2147483648 <= e)%Q) by (unfold e; nra).
  set (s := inject_Z t) in *.
  assert (Hu1 : ((e - s * a) * 9007199254740992 <= e)%Q)
    by (unfold e; nra).
  assert (Hu2 : ((s * a - e) * 9007199254740992 <= e)%Q)
    by (unfold e; nra).
  cbn [num_mul].
  destruct (fl_close_mid (s * a)) as (c & Ec & _ & Hc1 & Hc2);
    [lra|lra|].
  rewrite Ec. cbn [num_round].
  destruct (Math_round_near c) as [Hn1 Hn2].
  eexists. split; [reflexivity|].
  split; [apply Math_round_nonneg; lra|].
  split; [apply (Math_round_le _ (2 ^ 31 - 1));
          change (inject_Z (2 ^ 31 - 1)) with 2147483647%Q; lra|].
  split; lra.
Qed.

End NumberFacts.

(** ** Collage page *)

Module CollageFacts.
Import DOM Collage JS JSFacts NumberFacts.




(** Walking a grid row by row visits the cells in the order of their
    row-major index. *)
Lemma row_major {A} (g : nat → nat → list A) (c r : nat) :
  flat_map (λ row, flat_map (g row) (seq 0 c)) (seq 0 r)
  = flat_map (λ i, g (i / c)%nat (i mod c)%nat) (seq 0 (r * c)).
Proof.
  destruct c as [|c'].
  { rewrite Nat.mul_0_r. cbn. induction (seq 0 r); [done|]. done. }
  set (c := S c').
  induction r as [|r IH].
  - done.
  - rewrite seq_S, flat_map_app, IH. cbn [flat_map]. rewrite app_nil_r.
    replace (S r * c)%nat with (r * c + c)%nat by lia.
    rewrite seq_app, flat_map_app. f_equal.
    rewrite !flat_map_concat_map. f_equal. cbn [Nat.add].
    pose proof (fmap_add_seq (r * c) 0 c) as Hs.
    rewrite Nat.add_0_r in Hs. rewrite <- Hs.
    change (Nat.add (r * c) <$> seq 0 c)
      with (map (Nat.add (r * c)) (seq 0 c)).
    rewrite map_map. apply map_ext_in.
    intros col Hcol. apply in_seq in Hcol. cbn [Nat.add].
    f_equal.
    + rewrite Nat.add_comm, Nat.div_add by lia.
      rewrite Nat.div_small; lia.
    + rewrite Nat.add_comm, Nat.Div0.mod_add.
      rewrite Nat.mod_small; lia.
Qed.

(** Reading [m] consecutive slots of an array from [start] and keeping
    those that exist is walking the chunk that starts there. *)
Lemma chunk_walk {A B} (h : nat → A → B) (l : list A) (start m : nat) :
  flat_map (λ i, match l !! (start + i)%nat with
                 | Some x => [h i x]
                 | None => []
                 end) (seq 0 m)
  = imap h (take m (drop start l)).
Proof.
  induction m as [|m IH].
  - done.
  - rewrite seq_S, flat_map_app, IH. cbn [flat_map Nat.add].
    rewrite app_nil_r.
    destruct (l !! (start + m)%nat) as [x|] eqn:E.
    + assert (Hx : drop start l !! m = Some x) by by rewrite lookup_drop.
      rewrite (take_S_r _ _ _ Hx), imap_app. cbn.
      rewrite length_take_le; [by rewrite Nat.add_0_r|].
      apply lookup_lt_Some in Hx. lia.
    + assert (Hx : drop start l !! m = None) by by rewrite lookup_drop.
      apply lookup_ge_None in Hx.
      rewrite app_nil_r, !take_ge; [done|lia|lia].
Qed.

Lemma flat_map_for_range {A} (f : Z → list A) (n : Z) :
  flat_map f (for_range n)
  = flat_map (λ i, f (Z.of_nat i)) (seq 0 (Z.to_nat n)).
Proof.
  unfold for_range. rewrite !flat_map_concat_map. by rewrite map_map.
Qed.

Lemma flat_map_singleton {A B} (f : A → B) (l : list A) :
  flat_map (λ x, [f x]) l = f <$> l.
Proof. induction l as [|x l IH]; [done|]. cbn. by rewrite IH. Qed.

Lemma array_get_nat {A} (arr : list A) (i : nat) :
  array_get arr (Z.of_nat i) = arr !! i.
Proof.
  unfold array_get. destruct (Z.ltb_spec (Z.of_nat i) 0); [lia|].
  by rewrite Nat2Z.id.
Qed.

(** The valid items and their images. *)
Lemma valid_images (imageFiles : list ImageFile) (j : nat) :
  (filter (λ f, is_Some (image f)) imageFiles !! j) ≫= image
  = omap image imageFiles !! j.
Proof.
  revert j. induction imageFiles as [|f l IH]; intros j; [done|].
  rewrite filter_cons. cbn [omap list_omap].
  destruct (image f) as [img|] eqn:E.
  - rewrite decide_True by done. destruct j as [|j]; cbn; [done|apply IH].
  - rewrite decide_False by (by intros [? ?]). apply IH.
Qed.

Lemma valid_length (imageFiles : list ImageFile) :
  length (filter (λ f, is_Some (image f)) imageFiles)
  = length (omap image imageFiles).
Proof.
  induction imageFiles as [|f l IH]; [done|].
  rewrite filter_cons. cbn [omap list_omap].
  destruct (image f) as [img|] eqn:E.
  - rewrite decide_True by done. cbn. by rewrite IH.
  - rewrite decide_False by (by intros [? ?]). apply IH.
Qed.

(** The two inner loops draw the images of one group in row-major
    order. *)
Lemma drawn_group (br : Browser) (imageFiles : list ImageFile)
    (c r start : nat) :
  getContext2d br = true → (0 < c)%nat →
  flat_map (λ row,
    flat_map (λ col,
      drawCell br (filter (λ f, is_Some (image f)) imageFiles)
        (Z.of_nat c) (Z.of_nat start) row col)
      (for_range (Z.of_nat c)))
    (for_range (Z.of_nat r))
  = imap (placed c) (take (r * c) (drop start (omap image imageFiles))).
Proof.
  intros Hctx Hc.
  rewrite flat_map_for_range, Nat2Z.id.
  erewrite flat_map_ext; [|intros row; apply flat_map_for_range].
  rewrite Nat2Z.id.
  rewrite (row_major (λ row col, drawCell br _ (Z.of_nat c) (Z.of_nat start)
                                   (Z.of_nat row) (Z.of_nat col))).
  rewrite <- chunk_walk. apply flat_map_ext. intros i.
  unfold drawCell.
  replace (Z.of_nat start
           + (Z.of_nat (i / c) * Z.of_nat c + Z.of_nat (i mod c)))
    with (Z.of_nat (start + i)).
  2:{ pose proof (Nat.div_mod_eq i c). lia. }
  rewrite array_get_nat, <- valid_images, Hctx.
  destruct (filter _ imageFiles !! (start + i)%nat) as [f|]; [|done].
  cbn. by destruct (image f).
Qed.

Lemma composeOne_ok (br : Browser) (valid : list ImageFile)
    (columns rows per k : Z) :
  getContext2d br = true → toBlob_ok br = true →
  composeOne br valid columns rows per k
  = [{| blob :=
          {| g_width :=
               canvas_side default_width (cellWidth * inject_Z columns);
             g_height :=
               canvas_side default_height (cellHeight * inject_Z rows);
             g_fillStyle := "#ffffff";
             g_drawn :=
               flat_map (λ row,
                 flat_map (λ col,
                   drawCell br valid columns (k * per) row col)
                   (for_range columns))
                 (for_range rows) |};
        index := k + 1 |}].
Proof. intros Hctx Hblob. unfold composeOne. by rewrite Hctx, Hblob. Qed.

(** Claim C5.  With a grid of [columns] by [rows] cells and [n] valid
    images, [generateCollage] produces [ceil (n / (columns * rows))]
    blobs, none when there is no valid image.  The blob at position [k]
    carries the number [k + 1]; on its white canvas the images of the
    [k]-th consecutive group are drawn, each cropped to the cell and
    placed in row-major order, and nothing is drawn in the cells beyond
    the images of the group. *)
Theorem generateCollage_partition (br : Browser)
    (imageFiles : list ImageFile) (columns rows : Z) :
  getContext2d br = true → toBlob_ok br = true →
  0 < columns → 0 < rows →
  let imgs := omap image imageFiles in
  let c := Z.to_nat columns in
  let slots := Z.to_nat (columns * rows) in
  let out := produced (generateCollage br imageFiles columns rows) in
  Z.of_nat (length out)
    = Math_ceil (inject_Z (Z.of_nat (length imgs))
                 / inject_Z (columns * rows)) ∧
  Z.of_nat (length out)
    = (Z.of_nat (length imgs) + columns * rows - 1) / (columns * rows) ∧
  ∀ k g, out !! k = Some g →
    index g = Z.of_nat k + 1 ∧
    g_fillStyle (blob g) = "#ffffff" ∧
    g_drawn (blob g)
      = imap (placed c) (take slots (drop (k * slots) imgs)) ∧
    length (g_drawn (blob g))
      = (slots `min` (length imgs - k * slots))%nat.
Proof.
  intros Hctx Hblob Hc Hr imgs c slots out.
  assert (Hslots : 0 < columns * rows) by lia.
  assert (Hceil := Math_ceil_div (Z.of_nat (length imgs)) _ Hslots).
  assert (Hnonneg : 0 ≤ (Z.of_nat (length imgs) + columns * rows - 1)
                        / (columns * rows)).
  { apply Z.div_pos; lia. }
  rewrite Hceil.
  assert (Hout : out = fmap (M:=list) (λ k : nat, {| blob :=
          {| g_width :=
               canvas_side default_width (cellWidth * inject_Z columns);
             g_height :=
               canvas_side default_height (cellHeight * inject_Z rows);
             g_fillStyle := "#ffffff";
             g_drawn := imap (placed c)
                          (take slots (drop (k * slots) imgs)) |};
        index := Z.of_nat k + 1 |})
      (seq 0 (Z.to_nat ((Z.of_nat (length imgs) + columns * rows - 1)
                        / (columns * rows))))).
  { subst out. unfold generateCollage.
    pose proof (valid_length imageFiles) as Hlen. fold imgs in Hlen.
    destruct (Z.eqb_spec (Z.of_nat (length imageFiles)) 0) as [E0|E0].
    { assert (imageFiles = []) as ->
        by (destruct imageFiles; [done|cbn in E0; lia]).
      subst imgs. cbn. by rewrite Z.div_small by lia. }
    cbv zeta. rewrite Hlen.
    destruct (Z.eqb_spec (Z.of_nat (length imgs)) 0) as [E1|E1].
    { rewrite E1. cbn. by rewrite Z.div_small by lia. }
    cbn [produced]. rewrite Hceil.
    rewrite flat_map_for_range.
    erewrite flat_map_ext; [|intros k; by apply composeOne_ok].
    rewrite flat_map_singleton. apply list_fmap_ext. intros _ k _.
    f_equal. f_equal.
    replace (Z.of_nat k * (columns * rows)) with (Z.of_nat (k * slots))
      by (subst slots; lia).
    assert (Ec : columns = Z.of_nat c) by (subst c; lia).
    assert (Er : rows = Z.of_nat (Z.to_nat rows)) by lia.
    rewrite Er, Ec.
    rewrite drawn_group by (done || lia).
    fold imgs. f_equal. f_equal. subst slots. lia. }
  split; [|split].
  - rewrite Hout, length_fmap, length_seq. lia.
  - rewrite Hout, length_fmap, length_seq. lia.
  - intros k g Hk. rewrite Hout in Hk.
    apply list_lookup_fmap_Some in Hk as (k' & -> & Hk').
    apply lookup_seq in Hk' as [-> _]. cbn.
    split; [done|]. split; [done|]. split; [done|].
    by rewrite length_imap, length_take, length_drop.
Qed.

(** Ten images on a 3 by 3 grid: two groups, the second with one image
    drawn and eight cells left blank. *)
Lemma generateCollage_partition_witness :
  let out := produced (generateCollage browser_ok ten_uploads 3 3) in
  length out = 2%nat ∧
  ∀ g, out !! 1%nat = Some g →
    index g = 2 ∧ length (g_drawn (blob g)) = 1%nat.
Proof.
  intros out.
  destruct (generateCollage_partition browser_ok ten_uploads 3 3
              eq_refl eq_refl) as (_ & Hlen & Hgroups); [lia | lia |].
  fold out in Hlen, Hgroups. split.
  - apply Nat2Z.inj. rewrite Hlen. reflexivity.
  - intros g Hg. destruct (Hgroups 1%nat g Hg) as (Hi & _ & _ & Hl).
    split; [exact Hi|]. rewrite Hl. reflexivity.
Defined.

End CollageFacts.

(** ** Resize page: the proportional resizer *)

Module ResizeFacts.
Import DOM Resize JS JSFacts NumberFacts.

(** An image that loaded has sides a canvas can take. *)
Lemma bitmap_loadable (f : File) (img : HTMLImageElement) :
  bitmap f = Some img →
  decoded f = Some img ∧
  0 ≤ width img ∧ width img ≤ 2 ^ 31 - 1 ∧
  0 ≤ height img ∧ height img ≤ 2 ^ 31 - 1.
Proof.
  unfold bitmap, loadable. destruct (decoded f) as [i|]; [|done].
  destruct (_ && _) eqn:E; [|done]. intros [= <-].
  apply andb_true_iff in E as [E E4]. apply andb_true_iff in E as [E E3].
  apply andb_true_iff in E as [E1 E2].
  apply Z.leb_le in E1, E2, E3, E4. done.
Qed.

(** The resizer with both dimensions given, each at most [2^31 - 1], and
    the aspect ratio kept.  Its ratio is
    [min (width / sourceWidth) (height / sourceHeight)] up to the
    rounding of a division; each side of the output is within the box,
    within half a pixel and [2^-20] of the exactly scaled side, and
    equal to the requested side when the exactly scaled side is. *)
Lemma resizeImage_fit (br : Browser) (q : Q) (f : File)
    (img : HTMLImageElement) (w h : Z) :
  bitmap f = Some img → 0 < width img → 0 < height img →
  0 < w → w ≤ 2 ^ 31 - 1 → 0 < h → h ≤ 2 ^ 31 - 1 →
  getContext2d br = true → toBlob_ok br = true →
  let ratio := Math_min (inject_Z w / inject_Z (width img))
                        (inject_Z h / inject_Z (height img)) in
  let ew := (inject_Z (width img) * ratio)%Q in
  let eh := (inject_Z (height img) * ratio)%Q in
  ∃ cw ch,
    resizeImage br q f (Some w) (Some h) true
    = resolve {| b_width := cw; b_height := ch;
                 b_type := type f; b_quality := q |} ∧
    0 ≤ cw ∧ cw ≤ w ∧ 0 ≤ ch ∧ ch ≤ h ∧
    (ew - (1 # 2) - (1 # 1048576) <= inject_Z cw)%Q ∧
    (inject_Z cw <= ew + (1 # 2) + (1 # 1048576))%Q ∧
    (eh - (1 # 2) - (1 # 1048576) <= inject_Z ch)%Q ∧
    (inject_Z ch <= eh + (1 # 2) + (1 # 1048576))%Q ∧
    ((ew == inject_Z w)%Q → cw = w) ∧
    ((eh == inject_Z h)%Q → ch = h).
Proof.
  intros Hf HW HH Hw Hw' Hh Hh' Hctx Hblob ratio ew eh.
  destruct (bitmap_loadable _ _ Hf) as (_ & _ & HW' & _ & HH').
  unfold resizeImage. rewrite Hf, Hctx, Hblob. cbv zeta.
  cbn [fmap option_fmap option_map negb].
  rewrite !of_Z_int by lia.
  unfold num_nonzero, num_or. rewrite !num_truthy_pos by done.
  cbn [andb orb].
  destruct (ratio_close (width img) (height img) w h) as (r & Er & Hr);
    try done.
  rewrite Er. fold ratio in Hr.
  pose proof (inject_Z_pos' _ HW) as HWq.
  pose proof (inject_Z_pos' _ HH) as HHq.
  destruct (side_quotient_bounds w (width img)) as [Ha1 Ha2]; try done.
  destruct (side_quotient_bounds h (height img)) as [Hb1 Hb2]; try done.
  assert (Hm : (1 # 2147483648 <= ratio)%Q).
  { unfold ratio, Math_min. by destruct (Qle_bool _ _). }
  assert (Hmw : (ratio <= inject_Z w / inject_Z (width img))%Q).
  { unfold ratio, Math_min. destruct (Qle_bool _ _) eqn:E; [lra|].
    apply Qlt_le_weak, Qnot_le_lt. intros Hc.
    apply Qle_bool_iff in Hc. congruence. }
  assert (Hmh : (ratio <= inject_Z h / inject_Z (height img))%Q).
  { unfold ratio, Math_min. destruct (Qle_bool _ _) eqn:E; [|lra].
    by apply Qle_bool_iff in E. }
  assert (Hfw : (inject_Z (width img) * ratio <= inject_Z w)%Q).
  { assert (Ex : (inject_Z (width img)
                  * (inject_Z w / inject_Z (width img)) == inject_Z w)%Q)
      by (field; lra).
    rewrite <- Ex. by apply Qmult_le_l. }
  assert (Hfh : (inject_Z (height img) * ratio <= inject_Z h)%Q).
  { assert (Ex : (inject_Z (height img)
                  * (inject_Z h / inject_Z (height img)) == inject_Z h)%Q)
      by (field; lra).
    rewrite <- Ex. by apply Qmult_le_l. }
  destruct (scale_side (width img) w ratio r)
    as (cw & Ecw & Hcw0 & Hcw1 & Hcw2 & Hcw3 & Hcw4); try done.
  destruct (scale_side (height img) h ratio r)
    as (ch & Ech & Hch0 & Hch1 & Hch2 & Hch3 & Hch4); try done.
  rewrite Ecw, Ech. cbn [canvas_side_of].
  rewrite !canvas_side_int by lia.
  exists cw, ch. split; [reflexivity|]. done.
Qed.

(** Claim C2, as the code has it.  With the aspect ratio preserved and
    both dimensions requested, each between 1 and [2^31 - 1], the
    resizer scales the two source dimensions by the single ratio
    [min (width / sourceWidth) (height / sourceHeight)], computed in
    double precision, and rounds: each output dimension is within
    [1/2 + 2^-20] of the exactly scaled one.  The output exceeds the
    requested box on neither axis, and equals the request on at least
    one. *)
Theorem resizeImage_contain (br : Browser) (q : Q) (f : File)
    (img : HTMLImageElement) (w h : Z) :
  bitmap f = Some img → 0 < width img → 0 < height img →
  0 < w → w ≤ 2 ^ 31 - 1 → 0 < h → h ≤ 2 ^ 31 - 1 →
  getContext2d br = true → toBlob_ok br = true →
  ∃ blob,
    resizeImage br q f (Some w) (Some h) true = resolve blob ∧
    let ratio := Math_min (inject_Z w / inject_Z (width img))
                          (inject_Z h / inject_Z (height img)) in
    let ew := (inject_Z (width img) * ratio)%Q in
    let eh := (inject_Z (height img) * ratio)%Q in
    (ew - (1 # 2) - (1 # 1048576) <= inject_Z (b_width blob))%Q ∧
    (inject_Z (b_width blob) <= ew + (1 # 2) + (1 # 1048576))%Q ∧
    (eh - (1 # 2) - (1 # 1048576) <= inject_Z (b_height blob))%Q ∧
    (inject_Z (b_height blob) <= eh + (1 # 2) + (1 # 1048576))%Q ∧
    b_width blob ≤ w ∧ b_height blob ≤ h ∧
    (b_width blob = w ∨ b_height blob = h).
Proof.
  intros Hf HW HH Hw Hw' Hh Hh' Hctx Hblob.
  destruct (resizeImage_fit br q f img w h)
    as (cw & ch & E & _ & Hcw & _ & Hch & H1 & H2 & H3 & H4 & Ew & Eh);
    try done.
  eexists. split; [exact E|]. cbn [b_width b_height].
  do 4 (split; [done|]). split; [done|]. split; [done|].
  pose proof (inject_Z_pos' _ HW) as HWq.
  pose proof (inject_Z_pos' _ HH) as HHq.
  unfold Math_min in Ew, Eh.
  destruct (Qle_bool _ _).
  - left. apply Ew. field. lra.
  - right. apply Eh. field. lra.
Qed.

(** A 640 by 480 image asked into a box of 320 by 320 comes out 320 by
    240. *)
Lemma resizeImage_contain_witness :
  ∃ blob,
    resizeImage browser_ok (9 # 10)
      (file (new_item "1" (Some {| width := 640; height := 480 |})))
      (Some 320) (Some 320) true = resolve blob ∧
    b_width blob = 320 ∧ b_height blob = 240.
Proof.
  destruct (resizeImage_contain browser_ok (9 # 10)
              (file (new_item "1" (Some {| width := 640; height := 480 |})))
              {| width := 640; height := 480 |} 320 320 eq_refl)
    as (blob & Hb & _);
    [reflexivity | reflexivity | reflexivity | lia
     | reflexivity | lia | reflexivity | reflexivity |].
  exists blob. split; [exact Hb|].
  vm_compute in Hb. injection Hb as <-. by split.
Defined.

(** As the specification words it the claim fails in two ways.  A width
    and a height of 4294967396 asked of a 100 by 100 image give a canvas
    of 100 by 100:
    the scaled sides are 4294967396, and a canvas keeps of such a number
    what is left modulo [2^32]; neither axis equals the request.  And a
    640 by 480 image asked into 82 by 480 comes out 82 by 61, while
    [480 * min (82 / 640) (480 / 480)] is 61.5, which rounds to 62: in
    double precision the product is 61.49999999999999. *)
Lemma resizeImage_contain_counterexample :
  (∃ blob,
     resizeImage browser_ok (9 # 10)
       (file (new_item "1" (Some {| width := 100; height := 100 |})))
       (Some 4294967396) (Some 4294967396) true = resolve blob ∧
     b_width blob = 100 ∧ b_height blob = 100 ∧
     ¬ (b_width blob = 4294967396 ∨ b_height blob = 4294967396)) ∧
  (∃ blob,
     resizeImage browser_ok (9 # 10)
       (file (new_item "1" (Some {| width := 640; height := 480 |})))
       (Some 82) (Some 480) true = resolve blob ∧
     b_width blob = 82 ∧ b_height blob = 61 ∧
     Math_round (480 * Math_min (82 / 640) (480 / 480)) = 62 ∧
     b_height blob ≠ Math_round (480 * Math_min (82 / 640) (480 / 480))).
Proof.
  split.
  - eexists. split; [vm_compute; reflexivity|].
    cbn [b_width b_height]. split; [done|]. split; [done|]. lia.
  - eexists. split; [vm_compute; reflexivity|].
    cbn [b_width b_height]. split; [done|]. split; [done|].
    split; [by vm_compute|]. by vm_compute.
Qed.

(** Claim C9.  With both target dimensions absent the output has the
    width and the height of the source, whatever the aspect flag. *)
Theorem resizeImage_identity (br : Browser) (q : Q) (f : File)
    (img : HTMLImageElement) (maintainRatio : bool) :
  bitmap f = Some img →
  getContext2d br = true → toBlob_ok br = true →
  ∃ blob,
    resizeImage br q f None None maintainRatio = resolve blob ∧
    b_width blob = width img ∧ b_height blob = height img.
Proof.
  intros Hf Hctx Hblob.
  destruct (bitmap_loadable _ _ Hf) as (_ & HW & HW' & HH & HH').
  unfold resizeImage. rewrite Hf, Hctx, Hblob. cbv zeta.
  cbn [fmap option_fmap option_map negb num_truthy num_or num_nonzero
       orb].
  rewrite andb_false_r, !of_Z_int by lia. cbn [canvas_side_of].
  rewrite !canvas_side_int by lia.
  eexists. split; [reflexivity|]. by split.
Qed.

Lemma resizeImage_identity_witness :
  ∃ blob,
    resizeImage browser_ok (9 # 10) (file small_photo) None None true
      = resolve blob ∧
    b_width blob = 100 ∧ b_height blob = 50.
Proof.
  destruct (resizeImage_identity browser_ok (9 # 10) (file small_photo)
              {| width := 100; height := 50 |} true
              eq_refl eq_refl eq_refl) as (blob & Hb & Hw & Hh).
  exists blob. split; [exact Hb|]. split; [exact Hw | exact Hh].
Defined.

(** Called with the width alone, the resizer keeps it and derives the
    height from the source aspect ratio, within half a pixel and
    [2^-20]; the derived height is taken to be at most [2^30]. *)
Lemma resizeImage_width_only (br : Browser) (q : Q) (f : File)
    (img : HTMLImageElement) (w : Z) :
  bitmap f = Some img → 0 < width img → 0 < height img →
  0 < w → w ≤ 2 ^ 31 - 1 → w * height img ≤ 2 ^ 30 * width img →
  getContext2d br = true → toBlob_ok br = true →
  ∃ blob,
    resizeImage br q f (Some w) None true = resolve blob ∧
    let aspect := (inject_Z (width img) / inject_Z (height img))%Q in
    b_width blob = w ∧
    (inject_Z w / aspect - (1 # 2) - (1 # 1048576)
     <= inject_Z (b_height blob))%Q ∧
    (inject_Z (b_height blob)
     <= inject_Z w / aspect + (1 # 2) + (1 # 1048576))%Q.
Proof.
  intros Hf HW HH Hw Hw' Hfit Hctx Hblob.
  destruct (bitmap_loadable _ _ Hf) as (_ & _ & HW' & _ & HH').
  unfold resizeImage. rewrite Hf, Hctx, Hblob. cbv zeta.
  cbn [fmap option_fmap option_map negb].
  rewrite !of_Z_int by lia.
  unfold num_nonzero, num_or. rewrite !num_truthy_pos by done.
  cbn [andb orb num_truthy].
  destruct (derive_by_division w (width img) (height img))
    as (k & Ek & Hk0 & Hk1 & Hk2 & Hk3); try done.
  rewrite Ek. cbn [canvas_side_of]. rewrite !canvas_side_int by lia.
  eexists. split; [reflexivity|]. by cbn [b_width b_height].
Qed.

(** The same with the height alone. *)
Lemma resizeImage_height_only (br : Browser) (q : Q) (f : File)
    (img : HTMLImageElement) (h : Z) :
  bitmap f = Some img → 0 < width img → 0 < height img →
  0 < h → h ≤ 2 ^ 31 - 1 → h * width img ≤ 2 ^ 30 * height img →
  getContext2d br = true → toBlob_ok br = true →
  ∃ blob,
    resizeImage br q f None (Some h) true = resolve blob ∧
    let aspect := (inject_Z (width img) / inject_Z (height img))%Q in
    b_height blob = h ∧
    (inject_Z h * aspect - (1 # 2) - (1 # 1048576)
     <= inject_Z (b_width blob))%Q ∧
    (inject_Z (b_width blob)
     <= inject_Z h * aspect + (1 # 2) + (1 # 1048576))%Q.
Proof.
  intros Hf HW HH Hh Hh' Hfit Hctx Hblob.
  destruct (bitmap_loadable _ _ Hf) as (_ & _ & HW' & _ & HH').
  unfold resizeImage. rewrite Hf, Hctx, Hblob. cbv zeta.
  cbn [fmap option_fmap option_map negb].
  rewrite !of_Z_int by lia.
  unfold num_nonzero, num_or. rewrite !num_truthy_pos by done.
  cbn [andb orb num_truthy].
  destruct (derive_by_product h (width img) (height img))
    as (k & Ek & Hk0 & Hk1 & Hk2 & Hk3); try done.
  rewrite Ek. cbn [canvas_side_of]. rewrite !canvas_side_int by lia.
  eexists. split; [reflexivity|]. by cbn [b_width b_height].
Qed.

(** The page never calls the resizer with one dimension: the one the
    user left empty is filled with the original size of the item. *)
Lemma resizeArgs_both (cfg : Settings) (it : ImageFile) :
  ∃ w h, resizeArgs cfg it = (Some w, Some h) ∧ w ≠ 0 ∧ h ≠ 0.
Proof.
  unfold resizeArgs.
  destruct (negb _ || negb _) eqn:E.
  - eexists _, _. split; [reflexivity|]. split; apply or_else_one.
  - apply orb_false_iff in E as [E1 E2].
    apply negb_false_iff, truthy_inv in E1 as (w & -> & Hw).
    apply negb_false_iff, truthy_inv in E2 as (h & -> & Hh).
    by exists w, h.
Qed.

(** What the page passes for a width alone is the box of that width and
    the original height.  When the width does not exceed the original,
    fitting into that box gives the width and, within half a pixel and
    [2^-20], the height the one-dimension rule derives. *)
Lemma resizeImage_box_downscale (br : Browser) (q : Q) (f : File)
    (img : HTMLImageElement) (w : Z) :
  bitmap f = Some img → 0 < width img → 0 < height img →
  0 < w → w ≤ width img →
  getContext2d br = true → toBlob_ok br = true →
  ∃ blob,
    resizeImage br q f (Some w) (Some (height img)) true = resolve blob ∧
    let derived :=
      (inject_Z w / (inject_Z (width img) / inject_Z (height img)))%Q in
    b_width blob = w ∧
    (derived - (1 # 2) - (1 # 1048576) <= inject_Z (b_height blob))%Q ∧
    (inject_Z (b_height blob) <= derived + (1 # 2) + (1 # 1048576))%Q.
Proof.
  intros Hf HW HH Hw Hle Hctx Hblob.
  destruct (bitmap_loadable _ _ Hf) as (_ & _ & HW' & _ & HH').
  destruct (resizeImage_fit br q f img w (height img))
    as (cw & ch & E & _ & _ & _ & _ & _ & _ & H3 & H4 & Ew & _);
    try done; try lia.
  eexists. split; [exact E|]. cbn [b_width b_height].
  set (W := inject_Z (width img)) in *.
  set (H := inject_Z (height img)) in *.
  assert (HWq : (0 < W)%Q) by by apply inject_Z_pos'.
  assert (HHq : (0 < H)%Q) by by apply inject_Z_pos'.
  assert (Hmin : Math_min (inject_Z w / W) (H / H) = (inject_Z w / W)%Q).
  { apply Math_min_l.
    apply Qle_shift_div_r; [done|].
    assert (E1 : (H / H * W == W)%Q) by (field; lra).
    rewrite E1. unfold W. by rewrite <- Zle_Qle. }
  rewrite Hmin in *.
  assert (Ed : (inject_Z w / (W / H) == H * (inject_Z w / W))%Q)
    by (field; lra).
  split; [apply Ew; field; lra|]. rewrite Ed. by split.
Qed.

(** Claim C3, on the page.  A 100 by 50 image, width 200 typed in the
    form, height left empty, aspect ratio kept: [resizeSingleImage] calls
    the resizer with the box 200 by 50, the blob it registers is 100 by
    50, and the item records 200 by 50; the one-dimension rule gives 200
    by 100. *)
Theorem resizeSingleImage_width_only_not_scaled :
  let st' :=
    resizeSingleImage browser_ok (width_only 200) small_photo one_item in
  resizeArgs (width_only 200) small_photo = (Some 200, Some 50) ∧
  status <$> imageFiles st' = [completed] ∧
  resizedUrl <$> imageFiles st' = [Some 0%nat] ∧
  (λ b, (b_width b, b_height b)) <$> fetch_blob (urls st') 0%nat
    = Some (100, 50) ∧
  (λ it, (targetWidth it, targetHeight it)) <$> imageFiles st'
    = [(Some 200, Some 50)] ∧
  Math_round (200 / (100 / 50)) = 100.
Proof. vm_compute. repeat split. Qed.

End ResizeFacts.

(** ** The archive *)

Module JSZipFacts.
Import DOM JSZip.

Lemma has_spec (n : string) (z : Archive) :
  has n z = true ↔ n ∈ z.*1.
Proof.
  unfold has. rewrite existsb_exists. split.
  - intros (e & He & E). apply String.eqb_eq in E as <-.
    apply list_elem_of_In in He. by apply list_elem_of_fmap_2.
  - intros Hn. apply list_elem_of_fmap in Hn as (e & -> & He).
    exists e. split; [by apply list_elem_of_In|apply String.eqb_refl].
Qed.

Lemma replace_names (n : string) (d : Blob) (z : Archive) :
  (map (λ e, if String.eqb e.1 n then (n, d) else e) z).*1 = z.*1.
Proof.
  induction z as [|e z IH]; [done|]. cbn. rewrite IH. f_equal.
  destruct (String.eqb_spec e.1 n) as [E|E]; [by rewrite E|done].
Qed.

(** [zip.file] keeps the names and their order, and adds the name at the
    end when it is new. *)
Lemma file_names (n : string) (d : Blob) (z : Archive) :
  (file n d z).*1 = if has n z then z.*1 else z.*1 ++ [n].
Proof.
  unfold file. destruct (has n z).
  - apply replace_names.
  - by rewrite fmap_app.
Qed.

Lemma filled_snoc (calls : list (string * Blob)) (c : string * Blob) :
  filled (calls ++ [c]) = file c.1 c.2 (filled calls).
Proof. unfold filled. by rewrite fold_left_app. Qed.

(** No two entries of an archive have the same name. *)
Lemma filled_NoDup (calls : list (string * Blob)) :
  NoDup (filled calls).*1.
Proof.
  induction calls as [|c calls IH] using rev_ind; [constructor|].
  rewrite filled_snoc, file_names.
  destruct (has c.1 (filled calls)) eqn:E; [done|].
  apply NoDup_app. split; [done|]. split; [|apply NoDup_singleton].
  intros n Hn Hc. apply list_elem_of_singleton in Hc as ->.
  apply has_spec in Hn. congruence.
Qed.

(** The names of the archive are the names of the calls. *)
Lemma filled_names (calls : list (string * Blob)) (n : string) :
  n ∈ (filled calls).*1 ↔ n ∈ calls.*1.
Proof.
  induction calls as [|c calls IH] using rev_ind; [done|].
  rewrite filled_snoc, file_names, fmap_app, elem_of_app.
  cbn [fmap list_fmap]. rewrite list_elem_of_singleton.
  destruct (has c.1 (filled calls)) eqn:E.
  - apply has_spec in E. rewrite IH. split; [by left|].
    intros [Hn| ->]; [done|]. by apply IH.
  - by rewrite elem_of_app, list_elem_of_singleton, IH.
Qed.

Lemma file_length (n : string) (d : Blob) (z : Archive) :
  (length (file n d z) ≤ S (length z))%nat.
Proof.
  unfold file. destruct (has n z).
  - rewrite length_map. lia.
  - rewrite length_app. cbn. lia.
Qed.

Lemma filled_length (calls : list (string * Blob)) :
  (length (filled calls) ≤ length calls)%nat.
Proof.
  induction calls as [|c calls IH] using rev_ind; [done|].
  rewrite filled_snoc, length_app. cbn [length].
  pose proof (file_length c.1 c.2 (filled calls)). lia.
Qed.

(** Calls with distinct names give one entry each, in their order. *)
Lemma filled_distinct (calls : list (string * Blob)) :
  NoDup calls.*1 → filled calls = calls.
Proof.
  induction calls as [|c calls IH] using rev_ind; [done|].
  rewrite fmap_app. intros Hnd. apply NoDup_app in Hnd as (Hnd & Hc & _).
  rewrite filled_snoc, IH by done. unfold file.
  destruct (has c.1 calls) eqn:E.
  - apply has_spec in E. exfalso. apply (Hc c.1 E). by left.
  - by destruct c.
Qed.

(** Conversely, when two calls have the same name the archive has fewer
    entries than there were calls. *)
Lemma filled_collision (calls : list (string * Blob)) :
  ¬ NoDup calls.*1 → (length (filled calls) < length calls)%nat.
Proof.
  intros Hnd.
  destruct (decide (length (filled calls) < length calls)%nat) as [|Hge];
    [done|].
  exfalso. apply Hnd.
  pose proof (filled_length calls) as Hle.
  assert (Hlen : length (filled calls).*1 = length calls.*1)
    by (rewrite !length_fmap; lia).
  assert (Hp : (filled calls).*1 ≡ₚ calls.*1).
  { apply submseteq_length_Permutation; [|lia].
    apply NoDup_submseteq; [apply filled_NoDup|].
    intros n. apply filled_names. }
  rewrite <- Hp. apply filled_NoDup.
Qed.

(** The entry of a name holds the data of the last call that was made
    with that name. *)
Lemma filled_last (calls : list (string * Blob)) (n : string) (b : Blob) :
  (n, b) ∈ filled calls →
  ∃ l1 l2, calls = l1 ++ (n, b) :: l2 ∧ n ∉ l2.*1.
Proof.
  revert n b.
  induction calls as [|c calls IH] using rev_ind; intros n b Hn.
  { by apply elem_of_nil in Hn. }
  rewrite filled_snoc in Hn. unfold file in Hn.
  destruct (has c.1 (filled calls)) eqn:E.
  - apply list_elem_of_fmap in Hn as (e & He & Hin).
    destruct (String.eqb_spec e.1 c.1) as [Ee|Ee].
    + injection He as -> ->. exists calls, []. split; [by destruct c|].
      apply not_elem_of_nil.
    + subst e. destruct (IH n b Hin) as (l1 & l2 & -> & Hl2).
      exists l1, (l2 ++ [c]). split; [by rewrite <- app_assoc|].
      rewrite fmap_app, not_elem_of_app. split; [done|].
      cbn. rewrite list_elem_of_singleton. intros E'. by apply Ee.
  - apply elem_of_app in Hn as [Hin|Hin].
    + destruct (IH n b Hin) as (l1 & l2 & -> & Hl2).
      exists l1, (l2 ++ [c]). split; [by rewrite <- app_assoc|].
      rewrite fmap_app, not_elem_of_app. split; [done|].
      cbn. rewrite list_elem_of_singleton. intros E'.
      assert (Hh : has n (filled (l1 ++ (n, b) :: l2)) = true).
      { apply has_spec. by apply (list_elem_of_fmap_2 fst _ (n, b)). }
      rewrite E' in Hh. congruence.
    + apply list_elem_of_singleton in Hin. exists calls, [].
      split; [by destruct c; injection Hin as -> ->|].
      apply not_elem_of_nil.
Qed.

End JSZipFacts.

(** ** Resize page: the batch run and the archive *)

Module BatchFacts.
Import DOM Resize.

Lemma update_by_id_lookup (i : string) (f : ImageFile → ImageFile)
    (l : list ImageFile) (k : nat) :
  update_by_id i f l !! k
  = (λ it, if String.eqb (id it) i then f it else it) <$> l !! k.
Proof.
  unfold update_by_id.
  change (map ?g l) with (g <$> l). apply list_lookup_fmap.
Qed.

Lemma resizeSingleImage_begin_lookup (p : ImageFile) (st : State)
    (k : nat) (it : ImageFile) :
  imageFiles st !! k = Some it →
  ∃ it',
    imageFiles (resizeSingleImage_begin p st) !! k = Some it' ∧
    id it' = id it ∧
    status it' = if String.eqb (id it) (id p) then resizing else status it.
Proof.
  intros Hk. unfold resizeSingleImage_begin. cbn -[update_by_id].
  rewrite update_by_id_lookup, Hk. cbn.
  destruct (String.eqb (id it) (id p)); eexists; by split.
Qed.

(** One run of the single-item handler: the items whose id is that of
    the processed item get its outcome, the others keep their status. *)
Lemma resizeSingleImage_lookup (br : Browser) (cfg : Settings)
    (p : ImageFile) (st : State) (k : nat) (it : ImageFile) :
  imageFiles st !! k = Some it →
  ∃ it',
    imageFiles (resizeSingleImage br cfg p st) !! k = Some it' ∧
    id it' = id it ∧ file it' = file it ∧
    status it' = if String.eqb (id it) (id p) then outcome br cfg p
                 else status it.
Proof.
  intros Hk.
  unfold resizeSingleImage, resizeSingleImage_settle, outcome, succeeds.
  destruct (resizeArgs cfg p) as [w h]. cbn [fst snd].
  destruct (resizeImage _ _ _ _ _ _) as [blob|msg];
    cbn -[update_by_id];
    rewrite !update_by_id_lookup, Hk; cbn;
    destruct (String.eqb (id it) (id p)) eqn:E; cbn; rewrite ?E;
    eexists; (split; [reflexivity|]); by cbn.
Qed.

(** The loop of the batch handler over a snapshot [ps]. *)
Lemma run_lookup (br : Browser) (cfg : Settings) (ps : list ImageFile) :
  ∀ (st : State) (k : nat) (it : ImageFile),
    imageFiles st !! k = Some it →
    ∃ it',
      imageFiles (fold_left (λ st p, resizeSingleImage br cfg p st) ps st)
        !! k = Some it' ∧
      id it' = id it ∧ file it' = file it ∧
      ((∀ p, p ∈ ps → id p ≠ id it) → status it' = status it) ∧
      (∀ s, (∀ p, p ∈ ps → id p = id it → outcome br cfg p = s) →
            (∃ p, p ∈ ps ∧ id p = id it) → status it' = s).
Proof.
  induction ps as [|p ps IH]; intros st k it Hk.
  - exists it. cbn. split; [done|]. split; [done|]. split; [done|].
    split; [done|]. intros s _ (p & Hp & _). by apply elem_of_nil in Hp.
  - destruct (resizeSingleImage_lookup br cfg p st k it Hk)
      as (it1 & Hk1 & Hid1 & Hf1 & Hs1).
    destruct (IH _ _ _ Hk1) as (it' & Hk' & Hid' & Hf' & Hnone & Hsome).
    exists it'. split; [exact Hk'|].
    split; [congruence|]. split; [congruence|]. rewrite Hid1 in *.
    split.
    + intros Hno. rewrite Hnone.
      * rewrite Hs1.
        destruct (String.eqb_spec (id it) (id p)) as [E|E]; [|done].
        exfalso. apply (Hno p); [by left|done].
      * intros q Hq. apply Hno. by right.
    + intros s Hall (q0 & Hq0 & He0).
      destruct (decide (Exists (λ q, id q = id it) ps)) as [Hex|Hnex].
      * apply Hsome.
        -- intros q Hq. apply Hall. by right.
        -- apply Exists_exists in Hex as (q & Hq &He). by exists q.
      * rewrite Hnone.
        -- rewrite Hs1.
           destruct (String.eqb_spec (id it) (id p)) as [E|E].
           ++ apply Hall; [by left|done].
           ++ apply elem_of_cons in Hq0 as [->|Hq0]; [done|].
              exfalso. apply Hnex, Exists_exists. by exists q0.
        -- intros q Hq He. apply Hnex, Exists_exists. by exists q.
Qed.

Lemma registered_step (br : Browser) (cfg : Settings) (p : ImageFile)
    (st : State) :
  registered st → registered (resizeSingleImage br cfg p st).
Proof.
  intros [Hitems Hfresh].
  unfold resizeSingleImage, resizeSingleImage_settle.
  destruct (resizeArgs cfg p) as [w h].
  destruct (resizeImage _ _ _ _ _ _) as [blob|msg];
    unfold registered, fetch_blob in *; cbn -[update_by_id].
  - split.
    + unfold update_by_id. rewrite map_map.
      apply Forall_map. eapply Forall_impl; [exact Hitems|].
      intros it Hit. cbn.
      destruct (String.eqb (id it) (id p)) eqn:E; cbn; rewrite ?E; cbn.
      * intros _. eexists. split; [reflexivity|].
        rewrite lookup_insert_eq. by eexists.
      * intros Hc. destruct (Hit Hc) as (u & Hu & Hreg).
        exists u. split; [done|].
        rewrite lookup_insert_ne; [done|].
        apply Hfresh in Hreg. lia.
    + intros u Hu.
      destruct (decide (u = next (urls st))) as [->|Hne]; [lia|].
      rewrite lookup_insert_ne in Hu by done.
      apply Hfresh in Hu. lia.
  - split; [|done].
    unfold update_by_id. rewrite map_map.
    apply Forall_map. eapply Forall_impl; [exact Hitems|].
    intros it Hit. cbn.
    destruct (String.eqb (id it) (id p)) eqn:E; cbn; rewrite ?E; cbn.
    + done.
    + exact Hit.
Qed.

Lemma registered_run (br : Browser) (cfg : Settings) (ps : list ImageFile) :
  ∀ st, registered st →
        registered (fold_left (λ st p, resizeSingleImage br cfg p st) ps st).
Proof.
  induction ps as [|p ps IH]; intros st Hst; [done|].
  cbn. by apply IH, registered_step.
Qed.

(** On a registered state [handleDownloadAll] makes one [zip.file] call
    per completed item, in list order, with the entry name of the item
    and the blob behind its URL. *)
Lemma handleDownloadAll_calls (st : State) :
  registered st →
  Forall2 (λ it c, c.1 = entryName it ∧
                   ∃ u, resizedUrl it = Some u ∧
                        fetch_blob (urls st) u = Some c.2)
    (List.filter is_completed (imageFiles st))
    (default [] (handleDownloadAll st)).
Proof.
  intros [Hitems _]. unfold handleDownloadAll.
  assert (Hfilter : List.filter is_downloadable (imageFiles st)
                    = List.filter is_completed (imageFiles st)).
  { apply List.filter_ext_in. intros it Hit.
    unfold is_downloadable, is_completed.
    destruct (bool_decide_reflect (status it = completed)) as [Hc|Hc];
      [|done].
    rewrite Forall_forall in Hitems.
    destruct (Hitems it) as (u & Hu & _); [by apply list_elem_of_In|done|].
    by rewrite Hu. }
  rewrite Hfilter.
  assert (Hall : Forall (λ it, ∃ u, resizedUrl it = Some u ∧
                               is_Some (fetch_blob (urls st) u))
                   (List.filter is_completed (imageFiles st))).
  { apply Forall_forall. intros it Hit.
    apply list_elem_of_In, filter_In in Hit as [Hit Hc].
    rewrite Forall_forall in Hitems. apply Hitems.
    - by apply list_elem_of_In.
    - unfold is_completed in Hc. by apply bool_decide_eq_true in Hc. }
  assert (Hflat :
    Forall2 (λ it c, c.1 = entryName it ∧
                     ∃ u, resizedUrl it = Some u ∧
                          fetch_blob (urls st) u = Some c.2)
      (List.filter is_completed (imageFiles st))
      (flat_map (λ imageFile,
         match resizedUrl imageFile with
         | Some url =>
             match fetch_blob (urls st) url with
             | Some blob => [(entryName imageFile, blob)]
             | None => []
             end
         | None => []
         end) (List.filter is_completed (imageFiles st)))).
  { clear Hfilter.
    induction Hall as [|it l (u & Hu & [b Hb]) _ IH]; [constructor|].
    cbn [flat_map]. rewrite Hu, Hb. cbn [app]. constructor; [|exact IH].
    split; [done|]. by exists u. }
  destruct (List.filter is_completed (imageFiles st)) as [|c cs];
    [constructor|].
  exact Hflat.
Qed.

Lemma calls_names (st : State) :
  registered st →
  (default [] (handleDownloadAll st)).*1
  = entryName <$> List.filter is_completed (imageFiles st).
Proof.
  intros Hr. pose proof (handleDownloadAll_calls st Hr) as Hc.
  induction Hc as [|it c l cs [E _] _ IH]; [done|].
  cbn. by rewrite E, IH.
Qed.

Lemma id_injective (l : list ImageFile) (x y : ImageFile) :
  NoDup (id <$> l) → x ∈ l → y ∈ l → id x = id y → x = y.
Proof.
  intros Hnd Hx Hy E.
  apply list_elem_of_lookup in Hx as [i Hi].
  apply list_elem_of_lookup in Hy as [j Hj].
  assert (i = j).
  { eapply NoDup_lookup; [exact Hnd| |];
      rewrite list_lookup_fmap; [by rewrite Hi|by rewrite Hj, E]. }
  subst j. congruence.
Qed.

(** What one run of the single-item handler does to the object URLs: the
    items of the processed id get a new URL that gives the blob of the
    resizer, the other items keep theirs, and the URLs handed out before
    give what they gave. *)
Lemma resizeSingleImage_url (br : Browser) (cfg : Settings)
    (p : ImageFile) (st : State) (k : nat) (it : ImageFile) :
  imageFiles st !! k = Some it →
  ∃ it',
    imageFiles (resizeSingleImage br cfg p st) !! k = Some it' ∧
    id it' = id it ∧
    (id it ≠ id p → resizedUrl it' = resizedUrl it) ∧
    (id it = id p →
     ∀ blob,
       resizeImage br (quality cfg) (file p)
         (resizeArgs cfg p).1 (resizeArgs cfg p).2
         (maintainAspectRatio cfg) = resolve blob →
       resizedUrl it' = Some (next (urls st)) ∧
       fetch_blob (urls (resizeSingleImage br cfg p st)) (next (urls st))
       = Some blob ∧
       (next (urls st) < next (urls (resizeSingleImage br cfg p st)))%nat).
Proof.
  intros Hk.
  unfold resizeSingleImage, resizeSingleImage_settle.
  destruct (resizeArgs cfg p) as [w h]. cbn [fst snd].
  destruct (resizeImage _ _ _ _ _ _) as [blob|msg];
    cbn -[update_by_id];
    rewrite !update_by_id_lookup, Hk; cbn;
    destruct (String.eqb_spec (id it) (id p)) as [E|E]; cbn;
    rewrite ?E, ?String.eqb_refl;
    try (destruct (String.eqb_spec (id it) (id p)) as [E'|E'];
         [done|]);
    eexists; (split; [reflexivity|]); cbn;
    (split; [done|]); (split; [done|]); try done.
  intros _ blob' [= <-]. unfold fetch_blob. cbn.
  rewrite lookup_insert_eq. split; [done|]. split; [done|]. lia.
Qed.

Lemma resizeSingleImage_urls_kept (br : Browser) (cfg : Settings)
    (p : ImageFile) (st : State) (u : URL) (b : Blob) :
  (u < next (urls st))%nat → fetch_blob (urls st) u = Some b →
  fetch_blob (urls (resizeSingleImage br cfg p st)) u = Some b ∧
  (u < next (urls (resizeSingleImage br cfg p st)))%nat.
Proof.
  intros Hu Hb. unfold resizeSingleImage, resizeSingleImage_settle.
  destruct (resizeArgs cfg p) as [w h].
  destruct (resizeImage _ _ _ _ _ _) as [blob|msg];
    unfold fetch_blob in *; cbn -[update_by_id]; [|done].
  rewrite lookup_insert_ne by lia. split; [done|lia].
Qed.

Lemma run_urls_kept (br : Browser) (cfg : Settings) (ps : list ImageFile) :
  ∀ (st : State) (u : URL) (b : Blob),
    (u < next (urls st))%nat → fetch_blob (urls st) u = Some b →
    fetch_blob
      (urls (fold_left (λ st p, resizeSingleImage br cfg p st) ps st)) u
    = Some b.
Proof.
  induction ps as [|p ps IH]; intros st u b Hu Hb; [done|].
  cbn [fold_left].
  destruct (resizeSingleImage_urls_kept br cfg p st u b Hu Hb) as [H1 H2].
  by apply IH.
Qed.

(** The loop of the batch handler and the object URLs. *)
Lemma run_urls (br : Browser) (cfg : Settings) (ps : list ImageFile) :
  ∀ (st : State) (k : nat) (it : ImageFile),
    NoDup (id <$> ps) → imageFiles st !! k = Some it →
    ∃ it',
      imageFiles (fold_left (λ st p, resizeSingleImage br cfg p st) ps st)
        !! k = Some it' ∧
      ((∀ p, p ∈ ps → id p ≠ id it) → resizedUrl it' = resizedUrl it) ∧
      (∀ p blob,
         p ∈ ps → id p = id it →
         resizeImage br (quality cfg) (file p)
           (resizeArgs cfg p).1 (resizeArgs cfg p).2
           (maintainAspectRatio cfg) = resolve blob →
         ∃ u, resizedUrl it' = Some u ∧
              fetch_blob
                (urls (fold_left (λ st p, resizeSingleImage br cfg p st)
                         ps st)) u = Some blob).
Proof.
  induction ps as [|p0 ps IH]; intros st k it Hnd Hk.
  - exists it. split; [done|]. split; [done|].
    intros p blob Hp. by apply elem_of_nil in Hp.
  - rewrite fmap_cons in Hnd. apply NoDup_cons in Hnd as [Hp0 Hnd].
    destruct (resizeSingleImage_url br cfg p0 st k it Hk)
      as (it1 & Hk1 & Hid1 & Hne & Heq).
    destruct (IH _ _ _ Hnd Hk1) as (it' & Hk' & Hnone & Hsome).
    cbn [fold_left]. exists it'. split; [exact Hk'|]. split.
    + intros Hno. rewrite Hnone.
      * apply Hne. intros E. by apply (Hno p0); [left|].
      * intros q Hq. rewrite Hid1. apply Hno. by right.
    + intros p blob Hp Hpid Hres.
      apply elem_of_cons in Hp as [->|Hp].
      * destruct (Heq (eq_sym Hpid) blob Hres) as (Hu & Hb & Hlt).
        exists (next (urls st)). split.
        -- rewrite Hnone; [done|]. intros q Hq E. apply Hp0.
           rewrite Hpid, <- Hid1, <- E. by apply list_elem_of_fmap_2.
        -- by apply run_urls_kept.
      * apply (Hsome p blob Hp); [congruence|done].
Qed.

Lemma NoDup_ids_pending (l : list ImageFile) :
  NoDup (id <$> l) → NoDup (id <$> List.filter is_pending l).
Proof.
  induction l as [|x l IH]; [done|].
  rewrite fmap_cons. intros Hnd. apply NoDup_cons in Hnd as [Hx Hnd].
  cbn [List.filter]. destruct (is_pending x); [|by apply IH].
  rewrite fmap_cons. apply NoDup_cons. split; [|by apply IH].
  intros Hin. apply Hx.
  apply list_elem_of_fmap in Hin as (y & -> & Hy).
  apply list_elem_of_In, filter_In in Hy as [Hy _].
  by apply list_elem_of_fmap_2, list_elem_of_In.
Qed.

(** Claim C6, on the page.  Two photographs that have the same file
    name, 640 by 480 and 480 by 640, are selected and resized into a box
    of 100 by 100.  Both items end [completed], with blobs of 100 by 75
    and 75 by 100.  [handleDownloadAll] makes two [zip.file] calls, both
    under the name [image_100x100.png]: the archive has one entry, which
    holds the second blob, and the first result is not in it. *)
Theorem handleDownloadAll_same_name :
  let st := Samples.twins_done in
  let calls := default [] (handleDownloadAll st) in
  let sizes := λ c : string * Blob, (c.1, b_width c.2, b_height c.2) in
  status <$> imageFiles st = [completed; completed] ∧
  name ∘ file <$> imageFiles st = ["image.png"; "image.png"] ∧
  sizes <$> calls
    = [("image_100x100.png", 100, 75); ("image_100x100.png", 75, 100)] ∧
  sizes <$> archive (handleDownloadAll st)
    = [("image_100x100.png", 75, 100)] ∧
  ResizePage.completedCount st = 2%nat ∧
  length (archive (handleDownloadAll st)) = 1%nat.
Proof. vm_compute. repeat split. Qed.

(** A run of [handleResizeAll] that nothing interleaves with, over items
    with distinct ids.  Each pending item ends [completed] or [error]
    according to its own processing, and when it ends [completed] it
    holds a URL that gives the blob the resizer made for it; the other
    items keep their status.  [handleDownloadAll] then makes one call
    per completed item, in list order, under its entry name and with the
    blob behind its URL; when the entry names of the completed items are
    distinct, these calls are the entries of the archive. *)
Theorem handleResizeAll_resilient (br : Browser) (cfg : Settings)
    (st : State) :
  NoDup (id <$> imageFiles st) → registered st →
  let st' := handleResizeAll br cfg st in
  let finished := List.filter is_completed (imageFiles st') in
  let calls := default [] (handleDownloadAll st') in
  (∀ k it, imageFiles st !! k = Some it →
     ∃ it', imageFiles st' !! k = Some it' ∧
            id it' = id it ∧ file it' = file it ∧
            status it' = (if is_pending it
                          then (if succeeds br cfg it then completed
                                else error)
                          else status it) ∧
            (is_pending it = true →
             ∀ blob,
               resizeImage br (quality cfg) (file it)
                 (resizeArgs cfg it).1 (resizeArgs cfg it).2
                 (maintainAspectRatio cfg) = resolve blob →
               ∃ u, resizedUrl it' = Some u ∧
                    fetch_blob (urls st') u = Some blob)) ∧
  Forall2 (λ it c, c.1 = entryName it ∧
                   ∃ u, resizedUrl it = Some u ∧
                        fetch_blob (urls st') u = Some c.2)
    finished calls ∧
  (NoDup (entryName <$> finished) →
   archive (handleDownloadAll st') = calls).
Proof.
  intros Hnd Hreg st' finished calls.
  assert (Hreg' : registered st') by by apply registered_run.
  split; [|split].
  - intros k it Hk.
    destruct (run_lookup br cfg (List.filter is_pending (imageFiles st))
                st k it Hk) as (it' & Hk' & Hid & Hf & Hnone & Hsome).
    destruct (run_urls br cfg (List.filter is_pending (imageFiles st))
                st k it (NoDup_ids_pending _ Hnd) Hk)
      as (it'' & Hk'' & _ & Hurl).
    assert (it'' = it') as -> by (unfold st' in *; congruence).
    exists it'. split; [exact Hk'|]. split; [done|]. split; [done|].
    assert (Hin : it ∈ imageFiles st) by (apply list_elem_of_lookup; eauto).
    destruct (is_pending it) eqn:Hp.
    + split.
      * apply Hsome.
        -- intros p Hp' Hpid.
           apply list_elem_of_In, filter_In in Hp' as [Hp' _].
           apply list_elem_of_In in Hp'.
           by rewrite (id_injective _ _ _ Hnd Hp' Hin Hpid).
        -- exists it. split; [|done].
           apply list_elem_of_In, filter_In. split; [|done].
           by apply list_elem_of_In.
      * intros _ blob Hres. apply (Hurl it blob); [|done|done].
        apply list_elem_of_In, filter_In. split; [|done].
        by apply list_elem_of_In.
    + split; [|done]. apply Hnone. intros p Hp' Hpid.
      apply list_elem_of_In, filter_In in Hp' as [Hp' Hpp].
      apply list_elem_of_In in Hp'.
      rewrite (id_injective _ _ _ Hnd Hp' Hin Hpid) in Hpp. congruence.
  - by apply handleDownloadAll_calls.
  - intros Hnames. unfold archive. apply JSZipFacts.filled_distinct.
    fold calls. unfold calls. by rewrite calls_names.
Qed.

(** Five items of which the third throws: four end [completed], the
    third ends [error], and the archive has four entries. *)
Lemma handleResizeAll_resilient_witness :
  let st' := handleResizeAll browser_ok both_empty five_items in
  status <$> imageFiles st'
    = [completed; completed; error; completed; completed] ∧
  length (archive (handleDownloadAll st')) = 4%nat.
Proof.
  intros st'.
  destruct (handleResizeAll_resilient browser_ok both_empty five_items)
    as (Hitems & Hcalls & Harch).
  - apply (bool_decide_unpack (NoDup (id <$> imageFiles five_items))).
    vm_compute. exact I.
  - split.
    + repeat constructor; discriminate.
    + intros u [b Hb]. discriminate.
  - fold st' in Hitems, Hcalls, Harch. split.
    + apply list_eq. intros k. rewrite list_lookup_fmap.
      destruct (imageFiles five_items !! k) as [it|] eqn:Hk.
      * destruct (Hitems k it Hk) as (it' & Hk' & _ & _ & Hs & _).
        rewrite Hk'. cbn [fmap option_fmap option_map]. rewrite Hs.
        do 5 (destruct k as [|k];
              [cbn in Hk; injection Hk as <-; reflexivity|]).
        discriminate.
      * do 5 (destruct k as [|k]; [discriminate|]). reflexivity.
    + rewrite Harch.
      * apply Forall2_length in Hcalls. rewrite <- Hcalls. reflexivity.
      * apply (bool_decide_unpack _). vm_compute. exact I.
Defined.

(** Run on its own on an item that is pending, the single-item handler
    moves every status forward. *)
Lemma resizeSingleImage_forward (br : Browser) (cfg : Settings)
    (p : ImageFile) (st : State) (k : nat) (it : ImageFile) :
  NoDup (id <$> imageFiles st) → p ∈ imageFiles st → status p = pending →
  imageFiles st !! k = Some it →
  ∃ it1 it2,
    imageFiles (resizeSingleImage_begin p st) !! k = Some it1 ∧
    imageFiles (resizeSingleImage br cfg p st) !! k = Some it2 ∧
    (rank (status it) ≤ rank (status it1))%nat ∧
    (rank (status it1) ≤ rank (status it2))%nat.
Proof.
  intros Hnd Hp Hpend Hk.
  destruct (resizeSingleImage_begin_lookup p st k it Hk)
    as (it1 & Hk1 & _ & Hs1).
  destruct (resizeSingleImage_lookup br cfg p st k it Hk)
    as (it2 & Hk2 & _ & _ & Hs2).
  exists it1, it2. split; [done|]. split; [done|].
  rewrite Hs1, Hs2.
  destruct (String.eqb_spec (id it) (id p)) as [E|E]; [|lia].
  assert (it = p) as ->.
  { eapply id_injective; eauto. apply list_elem_of_lookup; eauto. }
  rewrite Hpend. unfold outcome. destruct (succeeds br cfg p); cbn; lia.
Qed.

End BatchFacts.

(** ** Compress page *)

Module CompressFacts.
Import DOM Compress JS JSFacts.

(** The scan finds a transparent pixel exactly when some alpha byte, the
    fourth of a pixel, is below 255. *)
Lemma hasTransparency_spec (data : list Z) :
  hasTransparency data = true ↔
  ∃ k a, data !! (4 * k + 3)%nat = Some a ∧ a < 255.
Proof.
  unfold hasTransparency. rewrite some_spec. split.
  - intros (j & x & Hj & Hp).
    apply andb_true_iff in Hp as [Hm Ha].
    apply Z.eqb_eq in Hm. rewrite Hj in Ha. apply Z.ltb_lt in Ha.
    exists (j / 4)%nat, x. split; [|done].
    replace (4 * (j / 4) + 3)%nat with j; [done|].
    pose proof (Nat.div_mod_eq j 4) as Hd.
    assert (Hn : (j mod 4 = 3)%nat).
    { apply Nat2Z.inj. rewrite Nat2Z.inj_mod. exact Hm. }
    lia.
  - intros (k & a & Hk & Ha). exists (4 * k + 3)%nat, a.
    split; [done|]. rewrite Hk.
    apply andb_true_iff. split; [|by apply Z.ltb_lt].
    apply Z.eqb_eq. rewrite Nat2Z.inj_add, Nat2Z.inj_mul.
    change (Z.of_nat 4) with 4. change (Z.of_nat 3) with 3.
    rewrite Z.add_comm, Z.mul_comm, Z_mod_plus_full. reflexivity.
Qed.

Lemma hasTransparency_opaque (data : list Z) :
  (∀ k a, data !! (4 * k + 3)%nat = Some a → a = 255) →
  hasTransparency data = false.
Proof.
  intros Hop. apply not_true_is_false. intros Ht.
  apply hasTransparency_spec in Ht as (k & a & Hk & Ha).
  apply Hop in Hk. lia.
Qed.

Section Outcome.
Variables (sf : Surfaces) (f : File) (img : HTMLImageElement) (q : Q).
Hypothesis Hf : bitmap f = Some img.
Hypothesis Hctx : ctx sf = true.
Hypothesis Htmp : tempCtx sf = true.
Hypothesis Hblob : blob_ok sf = true.

Lemma compressImage_png_translucent :
  toLowerCase (type f) = "image/png" →
  hasTransparency (data img) = true →
  compressImage sf f q
  = resolve {| b_width := width img; b_height := height img;
               b_type := "image/png";
               b_quality := Math_max (1 # 10) (q * (9 # 10)) |}.
Proof.
  intros Ht Htr. unfold compressImage.
  by rewrite Hf, Hctx, Htmp, Hblob, Ht, Htr.
Qed.

Lemma compressImage_png_opaque :
  toLowerCase (type f) = "image/png" →
  hasTransparency (data img) = false →
  compressImage sf f q
  = resolve {| b_width := width img; b_height := height img;
               b_type := "image/jpeg"; b_quality := q |}.
Proof.
  intros Ht Htr. unfold compressImage.
  by rewrite Hf, Hctx, Htmp, Hblob, Ht, Htr.
Qed.

Lemma compressImage_webp :
  toLowerCase (type f) = "image/webp" →
  compressImage sf f q
  = resolve {| b_width := width img; b_height := height img;
               b_type := "image/webp"; b_quality := q |}.
Proof.
  intros Ht. unfold compressImage.
  by rewrite Hf, Hctx, Hblob, Ht.
Qed.

Lemma compressImage_other :
  toLowerCase (type f) ≠ "image/png" →
  toLowerCase (type f) ≠ "image/webp" →
  compressImage sf f q
  = resolve {| b_width := width img; b_height := height img;
               b_type := "image/jpeg"; b_quality := q |}.
Proof.
  intros Hp Hw. unfold compressImage.
  rewrite Hf, Hctx, Hblob. cbn [negb].
  destruct (String.eqb_spec (toLowerCase (type f)) "image/png"); [done|].
  destruct (String.eqb_spec (toLowerCase (type f)) "image/webp"); [done|].
  by destruct (includes "jpeg" _ || includes "jpg" _).
Qed.
End Outcome.

(** Claim C4, as the code has it.  The output encoding follows the
    source type: a PNG source with a pixel of alpha below 255 stays PNG
    at the quality [max 0.1 (0.9 * q)], which is [0.9 * q] from
    [q = 1/9] on; a PNG source whose alpha bytes are all 255 becomes JPEG
    at [q]; a WEBP source stays WEBP at [q]; every other source, JPEG
    included, becomes JPEG at [q]. *)
Theorem compressImage_encoding (sf : Surfaces) (f : File)
    (img : HTMLImageElement) (q : Q) :
  bitmap f = Some img →
  ctx sf = true → tempCtx sf = true → blob_ok sf = true →
  ∃ blob,
    compressImage sf f q = resolve blob ∧
    let t := toLowerCase (type f) in
    (t = "image/png" →
       ((∃ k a, data img !! (4 * k + 3)%nat = Some a ∧ a < 255) →
          b_type blob = "image/png" ∧
          (b_quality blob == Qmax (1 # 10) ((9 # 10) * q))%Q ∧
          ((1 # 9 <= q)%Q → (b_quality blob == (9 # 10) * q)%Q)) ∧
       ((∀ k a, data img !! (4 * k + 3)%nat = Some a → a = 255) →
          b_type blob = "image/jpeg" ∧ b_quality blob = q)) ∧
    (t = "image/webp" →
       b_type blob = "image/webp" ∧ b_quality blob = q) ∧
    (t ≠ "image/png" → t ≠ "image/webp" →
       b_type blob = "image/jpeg" ∧ b_quality blob = q).
Proof.
  intros Hf Hctx Htmp Hblob. cbv zeta.
  destruct (decide (toLowerCase (type f) = "image/png")) as [Ep|Ep].
  - destruct (hasTransparency (data img)) eqn:Et.
    + rewrite (compressImage_png_translucent _ _ img) by done.
      eexists; split; [reflexivity|]. cbn [b_type b_quality].
      split; [|split; [by rewrite Ep|done]].
      intros _. split.
      * intros _. split; [done|]. split.
        -- rewrite Math_max_Qmax. apply Q.max_compat; [reflexivity|].
           apply Qmult_comm.
        -- intros Hq. rewrite Math_max_Qmax, Q.max_r; lra.
      * intros Hop. apply hasTransparency_opaque in Hop. congruence.
    + rewrite (compressImage_png_opaque _ _ img) by done.
      eexists; split; [reflexivity|]. cbn [b_type b_quality].
      split; [|split; [by rewrite Ep|done]].
      intros _. split; [|done].
      intros Htr. apply hasTransparency_spec in Htr. congruence.
  - destruct (decide (toLowerCase (type f) = "image/webp")) as [Ew|Ew].
    + rewrite (compressImage_webp _ _ img) by done.
      eexists; split; [reflexivity|]. cbn [b_type b_quality].
      split; [done|]. split; [done|]. by intros _ ?.
    + rewrite (compressImage_other _ _ img) by done.
      eexists; split; [reflexivity|]. by cbn [b_type b_quality].
Qed.

(** Quality 0.8 on a PNG with a pixel of alpha 100: PNG at 0.72. *)
Lemma compressImage_encoding_witness :
  ∃ blob,
    compressImage surfaces_ok translucent_png (8 # 10) = resolve blob ∧
    b_type blob = "image/png" ∧ (b_quality blob == 72 # 100)%Q.
Proof.
  destruct (compressImage_encoding surfaces_ok translucent_png _ (8 # 10)
              eq_refl eq_refl eq_refl eq_refl) as (blob & Hb & Hpng & _).
  exists blob. split; [exact Hb|].
  destruct (Hpng eq_refl) as [Htr _].
  destruct Htr as (Ht & _ & Hq).
  { exists 0%nat, 100. split; [reflexivity|lia]. }
  split; [exact Ht|]. rewrite Hq; [reflexivity|discriminate].
Defined.

(** Quality 0.1 on the same PNG: the output quality is not 0.09. *)
Lemma compressImage_damping_counterexample :
  ∃ blob,
    compressImage surfaces_ok translucent_png (1 # 10) = resolve blob ∧
    b_type blob = "image/png" ∧
    ¬ (b_quality blob == (9 # 10) * (1 # 10))%Q.
Proof.
  eexists. split; [reflexivity|]. split; [reflexivity|].
  cbn. discriminate.
Qed.

(** Claim C10.  For a PNG source with a pixel of alpha below 255 the
    output quality is [max 0.1 (0.9 * q)]: it is never below 0.1, and it
    is 0.1 when [0.9 * q] is below 0.1. *)
Theorem compressImage_png_quality_floor (sf : Surfaces) (f : File)
    (img : HTMLImageElement) (q : Q) :
  bitmap f = Some img →
  ctx sf = true → tempCtx sf = true → blob_ok sf = true →
  toLowerCase (type f) = "image/png" →
  (∃ k a, data img !! (4 * k + 3)%nat = Some a ∧ a < 255) →
  ∃ blob,
    compressImage sf f q = resolve blob ∧
    (b_quality blob == Qmax (1 # 10) ((9 # 10) * q))%Q ∧
    (1 # 10 <= b_quality blob)%Q ∧
    (((9 # 10) * q < 1 # 10)%Q → (b_quality blob == 1 # 10)%Q).
Proof.
  intros Hf Hctx Htmp Hblob Ht Htr.
  apply hasTransparency_spec in Htr.
  rewrite (compressImage_png_translucent _ _ img) by done.
  eexists; split; [reflexivity|]. cbn [b_quality].
  split; [|split].
  - rewrite Math_max_Qmax. apply Q.max_compat; [reflexivity|].
    apply Qmult_comm.
  - apply Math_max_lower.
  - intros Hlt. rewrite Math_max_Qmax, Q.max_l; lra.
Qed.

Lemma compressImage_png_quality_floor_witness :
  ∃ blob,
    compressImage surfaces_ok translucent_png (1 # 10) = resolve blob ∧
    (b_quality blob == 1 # 10)%Q.
Proof.
  destruct (compressImage_png_quality_floor surfaces_ok translucent_png
              _ (1 # 10) eq_refl eq_refl eq_refl eq_refl eq_refl)
    as (blob & Hb & _ & _ & Hfloor).
  - exists 0%nat, 100. split; [reflexivity|lia].
  - exists blob. split; [exact Hb|]. apply Hfloor. reflexivity.
Defined.

End CompressFacts.

(** ** Conversion endpoint *)

Module ConvertFacts.
Import Convert.

Lemma includes_spec (arr : list string) (x : string) :
  includes arr x = true ↔ x ∈ arr.
Proof.
  unfold includes. rewrite existsb_exists. split.
  - intros (y & Hy & E). apply String.eqb_eq in E as ->.
    by apply list_elem_of_In.
  - intros Hx. exists x. split; [by apply list_elem_of_In|].
    apply String.eqb_refl.
Qed.

Lemma is_error_json (msg : string) (code : Z) :
  is_error (json msg code) code.
Proof. split; [done|]. by exists msg. Qed.

Ltac one_of H :=
  repeat (apply elem_of_cons in H as [->|H]);
  [..|by apply elem_of_nil in H].

Ltac none_of H :=
  repeat (apply elem_of_cons in H as [H|H]; [discriminate|]);
  by apply elem_of_nil in H.

(** The six-format route keeps the contract for the formats that are in
    the closed set once lower-cased. *)
Lemma RouteExt_contract :
  contract (λ fmt, JS.toLowerCase fmt ∈ closed_set) RouteExt.POST.
Proof.
  intros sharp request r. subst r. split.
  { intros ->. apply is_error_json. }
  intros fd ->. split.
  { intros Hi. cbn. rewrite Hi. apply is_error_json. }
  intros file Hi. split.
  { intros Hf. cbn. rewrite Hi, Hf. apply is_error_json. }
  intros fmt Hf. cbn [RouteExt.POST]. rewrite Hi, Hf. split.
  - intros Hna.
    destruct (includes RouteExt.validFormats (JS.toLowerCase fmt)) eqn:E.
    { apply includes_spec in E. contradiction. }
    rewrite orb_true_r. apply is_error_json.
  - intros Hacc. cbv zeta.
    assert (Hne : String.eqb fmt EmptyString = false).
    { destruct fmt; [|done]. cbn in Hacc. unfold closed_set in Hacc.
      none_of Hacc. }
    rewrite Hne.
    assert (E : includes RouteExt.validFormats (JS.toLowerCase fmt) = true)
      by by apply includes_spec.
    rewrite E. cbn [orb negb].
    generalize dependent (JS.toLowerCase fmt). intros t Ht _.
    unfold closed_set in Ht.
    one_of Ht;
      cbn -[RouteExt.mimeTypes ok];
      (destruct (sharp file _) as [out|]; [|apply is_error_json]);
      f_equal.
Qed.

(** The three-format route keeps it for the formats it lists. *)
Lemma Route_contract :
  contract (λ fmt, fmt ∈ ["webp"; "png"; "jpg"]) Route.POST.
Proof.
  intros sharp request r. subst r. split.
  { intros ->. apply is_error_json. }
  intros fd ->. split.
  { intros Hi. cbn. rewrite Hi. apply is_error_json. }
  intros file Hi. split.
  { intros Hf. cbn. rewrite Hi, Hf. apply is_error_json. }
  intros fmt Hf. cbn [Route.POST]. rewrite Hi, Hf. split.
  - intros Hna.
    destruct (includes ["webp"; "png"; "jpg"] fmt) eqn:E.
    { apply includes_spec in E. contradiction. }
    rewrite orb_true_r. apply is_error_json.
  - intros Hacc. cbv zeta.
    one_of Hacc;
      cbn -[Route.mimeTypes ok];
      (destruct (sharp file _) as [out|]; [|apply is_error_json]);
      f_equal.
Qed.

(** Claim C7, as the code has it.  Both copies of the route answer 500
    when the request cannot be read or the encoder throws, 400 with an
    error payload when the image is missing, and 400 with an error
    payload when the format is missing or, compared without regard to
    case, outside [webp, png, jpg, jpeg, gif, tiff]; a successful answer
    carries the canonical content type of the lower-cased format and the
    file name [converted.<ext>] with [jpeg] turned into [jpg].  The
    six-format copy accepts every format of the set in any case; the
    three-format copy accepts [webp], [png] and [jpg] as written. *)
Theorem POST_contract :
  contract (λ fmt, JS.toLowerCase fmt ∈ closed_set) RouteExt.POST ∧
  contract (λ fmt, fmt ∈ ["webp"; "png"; "jpg"]) Route.POST ∧
  (∀ fmt, fmt ∈ ["webp"; "png"; "jpg"] → JS.toLowerCase fmt ∈ closed_set).
Proof.
  split; [exact RouteExt_contract|]. split; [exact Route_contract|].
  intros fmt H. unfold closed_set.
  one_of H; cbn; rewrite !elem_of_cons; tauto.
Qed.

(** [jpeg] on the six-format copy and [jpg] on the three-format copy:
    [image/jpeg] and [converted.jpg]. *)
Lemma POST_contract_witness :
  RouteExt.POST echo (form "jpeg") = ok [] "image/jpeg" "jpg" ∧
  Route.POST echo (form "jpg") = ok [] "image/jpeg" "jpg".
Proof.
  destruct POST_contract as (Hext & Hroute & _). split.
  - destruct (Hext echo (form "jpeg")) as [_ H0].
    destruct (H0 _ eq_refl) as [_ H1].
    destruct (H1 _ eq_refl) as [_ H2].
    destruct (H2 _ eq_refl) as [_ H3].
    apply H3. cbn. unfold closed_set. rewrite !elem_of_cons. tauto.
  - destruct (Hroute echo (form "jpg")) as [_ H0].
    destruct (H0 _ eq_refl) as [_ H1].
    destruct (H1 _ eq_refl) as [_ H2].
    destruct (H2 _ eq_refl) as [_ H3].
    apply H3. rewrite !elem_of_cons. tauto.
Defined.

(** [PNG] is not in the closed set, and the six-format copy converts
    it. *)
Lemma POST_uppercase_counterexample :
  ("PNG" ∉ closed_set) ∧
  status (RouteExt.POST echo (form "PNG")) = 200 ∧
  RouteExt.POST echo (form "PNG") = ok [] "image/png" "png".
Proof.
  split; [|split; reflexivity].
  unfold closed_set. intros H. none_of H.
Qed.

End ConvertFacts.

(** ** The pages under the event loop *)

Module EventLoopFacts.
Import DOM EventLoop.

(** Claim C8, on the pages.  Two pending items; the batch button is
    clicked, then the button of the second item while the first is being
    processed; the second item settles first.  When the first item
    settles the batch handler goes on to the second item of its snapshot
    and marks it as being processed again: its status goes from
    [completed] back to the processing status, on both pages. *)
Theorem status_moves_backward_on_overlap :
  resize_statuses
    (resize_history browser_ok Resize.both_empty two_pending
       overlapping_clicks)
  = [[Resize.resizing; Resize.pending];
     [Resize.resizing; Resize.resizing];
     [Resize.resizing; Resize.completed];
     [Resize.completed; Resize.resizing]] ∧
  compress_statuses
    (compress_history Compress.surfaces_ok (λ _, 1) (7 # 10)
       two_pending_compress overlapping_clicks)
  = [[Compress.compressing; Compress.pending];
     [Compress.compressing; Compress.compressing];
     [Compress.compressing; Compress.completed];
     [Compress.completed; Compress.compressing]] ∧
  (Resize.rank Resize.resizing < Resize.rank Resize.completed)%nat ∧
  (Compress.rank Compress.compressing
   < Compress.rank Compress.completed)%nat.
Proof.
  split; [vm_compute; reflexivity|].
  split; [vm_compute; reflexivity|].
  split; cbn; lia.
Qed.

End EventLoopFacts.

(** ** File names *)

Module NameFacts.
Import JS.

Lemma split_nonempty (sep : ascii) (s : string) : split sep s ≠ [].
Proof.
  destruct s as [|c r]; cbn; [done|].
  destruct (Ascii.eqb c sep); [done|]. by destruct (split sep r).
Qed.

Lemma split_cons (sep c : ascii) (r : string) :
  c ≠ sep →
  ∃ h t, split sep r = h :: t ∧ split sep (String c r) = String c h :: t.
Proof.
  intros Hc. cbn [split]. apply Ascii.eqb_neq in Hc. rewrite Hc.
  destruct (split sep r) as [|h t] eqn:E.
  - by apply split_nonempty in E.
  - by exists h, t.
Qed.

(** Splitting at a separator that is there: the parts before it, then
    the parts after it. *)
Lemma split_app (sep : ascii) (b e : string) :
  split sep (b +:+ String sep e) = split sep b ++ split sep e.
Proof.
  induction b as [|c b IH].
  - change (EmptyString +:+ String sep e) with (String sep e).
    cbn [split]. by rewrite Ascii.eqb_refl.
  - destruct (decide (c = sep)) as [->|Hc].
    + change (String sep b +:+ String sep e)
        with (String sep (b +:+ String sep e)).
      cbn [split]. rewrite Ascii.eqb_refl. cbn [app].
      f_equal. exact IH.
    + destruct (split_cons sep c b Hc) as (h & t & Hb & Hcb).
      destruct (split_cons sep c (b +:+ String sep e) Hc)
        as (h' & t' & Hbe & Hcbe).
      change (String c b +:+ String sep e)
        with (String c (b +:+ String sep e)).
      rewrite Hcbe, Hcb. rewrite IH, Hb in Hbe. cbn in Hbe.
      by simplify_eq.
Qed.

Lemma split_plain (sep : ascii) (s : string) :
  (∀ c, In c (list_ascii_of_string s) → c ≠ sep) → split sep s = [s].
Proof.
  induction s as [|c r IH]; intros Hs; [done|].
  destruct (split_cons sep c r) as (h & t & Hr & Hcr).
  { apply Hs. by left. }
  rewrite Hcr. rewrite IH in Hr by (intros d Hd; apply Hs; by right).
  by simplify_eq.
Qed.

Lemma join_split (sep : ascii) (s : string) :
  join (String sep EmptyString) (split sep s) = s.
Proof.
  induction s as [|c r IH]; [done|].
  destruct (decide (c = sep)) as [->|Hc].
  - cbn [split]. rewrite Ascii.eqb_refl.
    destruct (split sep r) as [|h t] eqn:E;
      [by apply split_nonempty in E|].
    rewrite <- IH. reflexivity.
  - destruct (split_cons sep c r Hc) as (h & t & Hr & Hcr).
    rewrite Hcr. rewrite Hr in IH. rewrite <- IH.
    by destruct t.
Qed.
End NameFacts.

(** ** Resize page: the object URLs it holds *)

Module ResizePageFacts.
Import DOM Resize ResizePage.

Lemma elem_of_update_by_id (i : string) (f : ImageFile → ImageFile)
    (l : list ImageFile) (y : ImageFile) :
  y ∈ update_by_id i f l ↔
  ∃ x, x ∈ l ∧ y = if String.eqb (id x) i then f x else x.
Proof.
  unfold update_by_id. change (map ?g l) with (g <$> l).
  rewrite list_elem_of_fmap. split.
  - intros (x & -> & Hx). by exists x.
  - intros (x & Hx & ->). by exists x.
Qed.

Lemma ids_update_by_id (i : string) (f : ImageFile → ImageFile)
    (l : list ImageFile) :
  (∀ x, id (f x) = id x) →
  id <$> update_by_id i f l = id <$> l.
Proof.
  intros Hf. unfold update_by_id. change (map ?g l) with (g <$> l).
  rewrite <- list_fmap_compose. apply list_fmap_ext. intros _ x _. cbn.
  by destruct (String.eqb (id x) i).
Qed.

(** The list after one run of the single-item handler. *)
Lemma resizeSingleImage_items (br : Browser) (cfg : Settings)
    (p : ImageFile) (st : State) :
  let st' := resizeSingleImage br cfg p st in
  (succeeds br cfg p = true ∧
   ∃ blob w h,
     urls st' = (createObjectURL (urls st) blob).2 ∧
     imageFiles st'
     = update_by_id (id p)
         (λ x, set_completed (next (urls st)) w h (set_resizing x))
         (imageFiles st)) ∨
  (succeeds br cfg p = false ∧
   urls st' = urls st ∧
   imageFiles st'
   = update_by_id (id p) (λ x, set_error (set_resizing x)) (imageFiles st)).
Proof.
  unfold resizeSingleImage, resizeSingleImage_settle,
    resizeSingleImage_begin, succeeds.
  destruct (resizeArgs cfg p) as [w h]. cbn [fst snd].
  destruct (resizeImage _ _ _ _ _ _) as [blob|msg];
    cbn -[update_by_id]; [left|right]; (split; [done|]).
  - exists blob, w, h. split; [done|].
    unfold update_by_id. rewrite map_map. apply map_ext. intros x.
    destruct (String.eqb (id x) (id p)) eqn:E; cbn; by rewrite ?E.
  - split; [done|].
    unfold update_by_id. rewrite map_map. apply map_ext. intros x.
    destruct (String.eqb (id x) (id p)) eqn:E; cbn; by rewrite ?E.
Qed.

Lemma tidy_resizeSingleImage (br : Browser) (cfg : Settings)
    (p : ImageFile) (st : State) :
  tidy st →
  (∃ x, x ∈ imageFiles st ∧ id x = id p) →
  (∀ x, x ∈ imageFiles st → id x = id p → status x = pending) →
  tidy (resizeSingleImage br cfg p st).
Proof.
  intros (Hnd & Hurl & Hdone & Hlive & Hinj) (x0 & Hx0 & Hid0) Hpend.
  assert (Hnone : ∀ x, x ∈ imageFiles st → id x = id p →
                       resizedUrl x = None).
  { intros x Hx Hid. destruct (resizedUrl x) as [u|] eqn:E; [|done].
    destruct (Hurl x u Hx E) as [Hc _].
    rewrite (Hpend x Hx Hid) in Hc. discriminate. }
  destruct (resizeSingleImage_items br cfg p st)
    as [(_ & blob & w & h & Hu & Hl)|(_ & Hu & Hl)];
    unfold tidy; rewrite Hu, Hl; clear Hu Hl.
  - unfold fetch_blob in *. cbn [createObjectURL snd registry next].
    split; [by rewrite ids_update_by_id|].
    split; [|split; [|split]].
    + intros y u Hy Hyu. apply elem_of_update_by_id in Hy as (x & Hx & ->).
      destruct (String.eqb_spec (id x) (id p)) as [E|E].
      * cbn in Hyu. simplify_eq. split; [done|].
        rewrite lookup_insert_eq. by eexists.
      * destruct (Hurl x u Hx Hyu) as [Hc Hreg]. split; [done|].
        rewrite lookup_insert_ne; [done|].
        apply Hlive in Hreg as [Hlt _]. lia.
    + intros y Hy Hc. apply elem_of_update_by_id in Hy as (x & Hx & ->).
      destruct (String.eqb_spec (id x) (id p)) as [E|E]; [by eexists|].
      by apply Hdone.
    + intros u Hreg.
      destruct (decide (u = next (urls st))) as [->|Hne].
      * split; [lia|].
        eexists. split.
        -- apply elem_of_update_by_id. exists x0. split; [done|].
           rewrite Hid0, String.eqb_refl. reflexivity.
        -- done.
      * rewrite lookup_insert_ne in Hreg by done.
        destruct (Hlive u Hreg) as (Hlt & it & Hit & Hitu).
        split; [lia|]. exists it. split; [|done].
        apply elem_of_update_by_id. exists it. split; [done|].
        destruct (String.eqb_spec (id it) (id p)) as [E|E]; [|done].
        rewrite (Hnone it Hit E) in Hitu. discriminate.
    + intros y1 y2 u Hy1 Hy2 Hu1 Hu2.
      apply elem_of_update_by_id in Hy1 as (x1 & Hx1 & ->).
      apply elem_of_update_by_id in Hy2 as (x2 & Hx2 & ->).
      destruct (String.eqb_spec (id x1) (id p)) as [E1|E1];
        destruct (String.eqb_spec (id x2) (id p)) as [E2|E2].
      * cbn. congruence.
      * cbn in Hu1. simplify_eq.
        destruct (Hurl x2 _ Hx2 Hu2) as [_ Hreg].
        apply Hlive in Hreg as [Hlt _]. lia.
      * cbn in Hu2. simplify_eq.
        destruct (Hurl x1 _ Hx1 Hu1) as [_ Hreg].
        apply Hlive in Hreg as [Hlt _]. lia.
      * by eapply Hinj.
  - split; [by rewrite ids_update_by_id|].
    split; [|split; [|split]].
    + intros y u Hy Hyu. apply elem_of_update_by_id in Hy as (x & Hx & ->).
      destruct (String.eqb_spec (id x) (id p)) as [E|E].
      * cbn in Hyu. rewrite (Hnone x Hx E) in Hyu. discriminate.
      * by apply Hurl.
    + intros y Hy Hc. apply elem_of_update_by_id in Hy as (x & Hx & ->).
      destruct (String.eqb_spec (id x) (id p)) as [E|E]; [discriminate|].
      by apply Hdone.
    + intros u Hreg. destruct (Hlive u Hreg) as (Hlt & it & Hit & Hitu).
      split; [done|]. exists it. split; [|done].
      apply elem_of_update_by_id. exists it. split; [done|].
      destruct (String.eqb_spec (id it) (id p)) as [E|E]; [|done].
      rewrite (Hnone it Hit E) in Hitu. discriminate.
    + intros y1 y2 u Hy1 Hy2 Hu1 Hu2.
      apply elem_of_update_by_id in Hy1 as (x1 & Hx1 & ->).
      apply elem_of_update_by_id in Hy2 as (x2 & Hx2 & ->).
      destruct (String.eqb_spec (id x1) (id p)) as [E1|E1];
        destruct (String.eqb_spec (id x2) (id p)) as [E2|E2].
      * cbn. congruence.
      * cbn in Hu1. rewrite (Hnone x1 Hx1 E1) in Hu1. discriminate.
      * cbn in Hu2. rewrite (Hnone x2 Hx2 E2) in Hu2. discriminate.
      * by eapply Hinj.
Qed.

Lemma tidy_run (br : Browser) (cfg : Settings) (ps : list ImageFile) :
  ∀ st, tidy st → NoDup (id <$> ps) →
    (∀ p, p ∈ ps →
       (∃ x, x ∈ imageFiles st ∧ id x = id p) ∧
       (∀ x, x ∈ imageFiles st → id x = id p → status x = pending)) →
    tidy (fold_left (λ st p, resizeSingleImage br cfg p st) ps st).
Proof.
  induction ps as [|p ps IH]; intros st Ht Hnd Hps; [done|].
  cbn [fold_left]. rewrite fmap_cons in Hnd.
  apply NoDup_cons in Hnd as [Hp Hnd].
  destruct (Hps p) as [Hex Hpend]; [by left|].
  apply IH; [by apply tidy_resizeSingleImage|done|].
  intros q Hq.
  assert (Hne : id q ≠ id p).
  { intros E. apply Hp. rewrite <- E. by apply list_elem_of_fmap_2. }
  destruct (Hps q) as [(x & Hx & Hxid) Hqpend]; [by right|].
  assert (Hsame : ∀ y, y ∈ imageFiles (resizeSingleImage br cfg p st) →
                       id y = id q → y ∈ imageFiles st).
  { intros y Hy Hyid.
    destruct (resizeSingleImage_items br cfg p st)
      as [(_ & blob & w & h & _ & Hl)|(_ & _ & Hl)];
      rewrite Hl in Hy; apply elem_of_update_by_id in Hy as (z & Hz & ->);
      destruct (String.eqb_spec (id z) (id p)) as [E|E];
      try done; cbn in Hyid; congruence. }
  split.
  - exists x. split; [|done].
    destruct (resizeSingleImage_items br cfg p st)
      as [(_ & blob & w & h & _ & Hl)|(_ & _ & Hl)];
      rewrite Hl; apply elem_of_update_by_id; exists x; (split; [done|]);
      destruct (String.eqb_spec (id x) (id p)) as [E|E];
      try done; congruence.
  - intros y Hy Hyid. apply Hqpend; [|done]. by apply Hsame.
Qed.

Lemma NoDup_ids_filter (P : ImageFile → bool) (l : list ImageFile) :
  NoDup (id <$> l) → NoDup (id <$> List.filter P l).
Proof.
  induction l as [|x l IH]; [done|]. cbn. rewrite NoDup_cons.
  intros [Hx Hnd]. destruct (P x); [|by apply IH].
  cbn. apply NoDup_cons. split; [|by apply IH].
  intros Hin. apply Hx.
  apply list_elem_of_fmap in Hin as (y & -> & Hy).
  apply list_elem_of_fmap_2.
  apply list_elem_of_In, filter_In in Hy as [Hy _].
  by apply list_elem_of_In.
Qed.

Lemma id_unique (l : list ImageFile) (x y : ImageFile) :
  NoDup (id <$> l) → x ∈ l → y ∈ l → id x = id y → x = y.
Proof.
  intros Hnd Hx Hy Hid.
  apply list_elem_of_lookup in Hx as [i Hi].
  apply list_elem_of_lookup in Hy as [j Hj].
  assert (i = j) as ->.
  { eapply NoDup_lookup; [exact Hnd| |];
      rewrite list_lookup_fmap; [by rewrite Hi|by rewrite Hj, Hid]. }
  congruence.
Qed.

Lemma tidy_handleResizeAll (br : Browser) (cfg : Settings) (st : State) :
  tidy st → tidy (handleResizeAll br cfg st).
Proof.
  intros Ht. unfold handleResizeAll.
  pose proof Ht as (Hnd & _).
  apply tidy_run; [done|by apply NoDup_ids_filter|].
  intros p Hp. apply list_elem_of_In, filter_In in Hp as [Hp Hpp].
  apply list_elem_of_In in Hp. split; [by exists p|].
  intros x Hx Hid. rewrite (id_unique _ _ _ Hnd Hx Hp Hid).
  unfold is_pending in Hpp. by apply bool_decide_eq_true in Hpp.
Qed.

Lemma elem_of_List_filter {A} (P : A → bool) (l : list A) (x : A) :
  x ∈ List.filter P l ↔ x ∈ l ∧ P x = true.
Proof. rewrite !list_elem_of_In. apply filter_In. Qed.

Lemma find_by_id (i : string) (l : list ImageFile) :
  match List.find (λ img, String.eqb (id img) i) l with
  | Some f => f ∈ l ∧ id f = i
  | None => ∀ x, x ∈ l → id x ≠ i
  end.
Proof.
  destruct (List.find _ l) as [f|] eqn:E.
  - apply find_some in E as [Hin He]. split; [by apply list_elem_of_In|].
    by apply String.eqb_eq.
  - intros x Hx Hid. apply list_elem_of_In in Hx.
    pose proof (find_none _ _ E x Hx) as Hn. cbn in Hn.
    rewrite Hid, String.eqb_refl in Hn. discriminate.
Qed.

Lemma tidy_handleRemove (i : string) (st : State) :
  tidy st → tidy (handleRemove i st).
Proof.
  intros (Hnd & Hurl & Hdone & Hlive & Hinj).
  unfold handleRemove.
  pose proof (find_by_id i (imageFiles st)) as Hfind.
  set (l' := List.filter _ (imageFiles st)).
  assert (Hl' : ∀ x, x ∈ l' ↔ x ∈ imageFiles st ∧ id x ≠ i).
  { intros x. subst l'. rewrite elem_of_List_filter.
    split; intros [Hx Hne]; (split; [done|]).
    - intros E. rewrite E, String.eqb_refl in Hne. discriminate.
    - destruct (String.eqb_spec (id x) i); [contradiction|done]. }
  assert (Hkeep : ∀ it u, it ∈ l' → resizedUrl it = Some u →
    is_Some (fetch_blob
      match List.find (λ img, String.eqb (id img) i) (imageFiles st) with
      | Some f => match resizedUrl f with
                  | Some u => revokeObjectURL (urls st) u
                  | None => urls st
                  end
      | None => urls st
      end u)).
  { intros it u Hit Hu. apply Hl' in Hit as [Hit Hne].
    destruct (Hurl it u Hit Hu) as [_ Hreg].
    destruct (List.find _ _) as [f|]; [|done].
    destruct Hfind as [Hf Hfi].
    destruct (resizedUrl f) as [u0|] eqn:Ef; [|done].
    unfold fetch_blob, revokeObjectURL. cbn.
    rewrite lookup_delete_ne; [done|].
    intros ->. apply Hne. rewrite <- Hfi. by eapply Hinj. }
  assert (Hsub : ∀ u,
    is_Some (fetch_blob
      match List.find (λ img, String.eqb (id img) i) (imageFiles st) with
      | Some f => match resizedUrl f with
                  | Some u => revokeObjectURL (urls st) u
                  | None => urls st
                  end
      | None => urls st
      end u) →
    is_Some (fetch_blob (urls st) u) ∧
    ∀ f, f ∈ imageFiles st → id f = i → resizedUrl f ≠ Some u).
  { intros u Hreg.
    destruct (List.find _ _) as [f|].
    - destruct Hfind as [Hf Hfi].
      destruct (resizedUrl f) as [u0|] eqn:Ef.
      + unfold fetch_blob, revokeObjectURL in Hreg. cbn in Hreg.
        destruct (decide (u0 = u)) as [->|Hne].
        { rewrite lookup_delete_eq in Hreg. by destruct Hreg. }
        rewrite lookup_delete_ne in Hreg by done. split; [done|].
        intros g Hg Hgi Hgu.
        assert (g = f) as -> by (eapply id_unique; eauto; congruence).
        congruence.
      + split; [done|]. intros g Hg Hgi Hgu.
        assert (g = f) as -> by (eapply id_unique; eauto; congruence).
        congruence.
    - split; [done|]. intros g Hg Hgi. by apply Hfind in Hg. }
  assert (Hnext : next
      match List.find (λ img, String.eqb (id img) i) (imageFiles st) with
      | Some f => match resizedUrl f with
                  | Some u => revokeObjectURL (urls st) u
                  | None => urls st
                  end
      | None => urls st
      end = next (urls st)).
  { destruct (List.find _ _) as [f|]; [|done]. by destruct (resizedUrl f). }
  unfold tidy. cbn [imageFiles urls]. rewrite Hnext.
  split; [by apply NoDup_ids_filter|].
  split; [|split; [|split]].
  - intros it u Hit Hu. split; [|by apply (Hkeep it)].
    apply Hl' in Hit as [Hit _]. by destruct (Hurl it u Hit Hu).
  - intros it Hit Hc. apply Hl' in Hit as [Hit _]. by apply Hdone.
  - intros u Hreg. apply Hsub in Hreg as [Hreg Hnot].
    destruct (Hlive u Hreg) as (Hlt & it & Hit & Hitu).
    split; [done|]. exists it. split; [|done].
    apply Hl'. split; [done|]. intros E. by apply (Hnot it).
  - intros x y u Hx Hy. apply Hl' in Hx as [Hx _]. apply Hl' in Hy as [Hy _].
    by apply Hinj.
Qed.

Lemma revoke_all (l : list ImageFile) :
  ∀ (u : ObjectURLs) (x : URL),
    let u' := fold_left (λ u f, match resizedUrl f with
                                | Some url => revokeObjectURL u url
                                | None => u
                                end) l u in
    next u' = next u ∧
    ((∃ it, it ∈ l ∧ resizedUrl it = Some x) → fetch_blob u' x = None) ∧
    (is_Some (fetch_blob u' x) → is_Some (fetch_blob u x)).
Proof.
  induction l as [|f l IH]; intros u x; cbn.
  - split; [done|]. split; [|done]. intros (it & Hit & _).
    by apply elem_of_nil in Hit.
  - set (u1 := match resizedUrl f with
               | Some url => revokeObjectURL u url
               | None => u
               end).
    destruct (IH u1 x) as (Hn & Hheld & Hsub).
    assert (Hn1 : next u1 = next u) by (subst u1; by destruct (resizedUrl f)).
    assert (Hsub1 : is_Some (fetch_blob u1 x) → is_Some (fetch_blob u x)).
    { subst u1. destruct (resizedUrl f) as [u0|]; [|done].
      unfold fetch_blob, revokeObjectURL. cbn.
      destruct (decide (u0 = x)) as [->|Hne].
      - rewrite lookup_delete_eq. by intros [? ?].
      - by rewrite lookup_delete_ne. }
    split; [congruence|]. split; [|auto].
    intros (it & Hit & Hu). apply elem_of_cons in Hit as [->|Hit].
    + destruct (fetch_blob _ x) eqn:E; [|done].
      exfalso. assert (Hs : is_Some (fetch_blob u1 x)) by (apply Hsub; eauto).
      subst u1. rewrite Hu in Hs.
      unfold fetch_blob, revokeObjectURL in Hs. cbn in Hs.
      rewrite lookup_delete_eq in Hs. by destruct Hs.
    + apply Hheld. by exists it.
Qed.

Lemma tidy_handleClear (st : State) : tidy st → tidy (handleClear st).
Proof.
  intros (Hnd & Hurl & Hdone & Hlive & Hinj).
  unfold tidy, handleClear. cbn [imageFiles urls].
  split; [constructor|].
  split; [intros it u Hit; by apply elem_of_nil in Hit|].
  split; [intros it Hit; by apply elem_of_nil in Hit|].
  split; [|intros x y u Hx; by apply elem_of_nil in Hx].
  intros u Hreg. exfalso.
  destruct (revoke_all (imageFiles st) (urls st) u) as (_ & Hheld & Hsub).
  destruct (Hlive u (Hsub Hreg)) as (_ & it & Hit & Hitu).
  rewrite Hheld in Hreg by eauto. by destruct Hreg.
Qed.

(** The items a selection adds. *)
Lemma selected_items (cfg : Settings) (fresh : nat → string)
    (vs : list File) (new : list ImageFile) :
  mapM (λ x, x) (imap (λ k f, loadImageMetadata cfg (fresh k) f) vs)
    = Some new →
  length new = length vs ∧
  ∀ k y, new !! k = Some y →
    ∃ f, vs !! k = Some f ∧ loadImageMetadata cfg (fresh k) f = Some y.
Proof.
  intros Hm. apply mapM_Some in Hm.
  split.
  - apply Forall2_length in Hm. by rewrite length_imap in Hm.
  - intros k y Hk.
    destruct (Forall2_lookup_r _ _ _ _ _ Hm Hk) as (o & Ho & ->).
    rewrite list_lookup_imap in Ho.
    destruct (vs !! k) as [f|]; [|done]. cbn in Ho. simplify_eq.
    by exists f.
Qed.

Lemma loaded_item (cfg : Settings) (i : string) (f : File) (y : ImageFile) :
  loadImageMetadata cfg i f = Some y →
  id y = i ∧ file y = f ∧ status y = pending ∧ resizedUrl y = None ∧
  is_Some (bitmap f).
Proof.
  unfold loadImageMetadata. destruct (bitmap f) as [img|]; [|done].
  intros [= <-]. by repeat split.
Qed.

Lemma tidy_handleImageSelect (cfg : Settings) (fresh : nat → string)
    (files : list File) (st st' : State) :
  tidy st → draws_new_ids st (Select cfg fresh files) →
  handleImageSelect cfg fresh files st = Some st' → tidy st'.
Proof.
  intros Ht [Hfresh Hnew]. unfold handleImageSelect.
  destruct (length (List.filter is_image files) =? 0)%nat;
    [by intros [= <-]|].
  destruct (mapM _ _) as [new|] eqn:Hm; [|done]. intros [= <-].
  apply selected_items in Hm as [Hlen Hitems].
  destruct Ht as (Hnd & Hurl & Hdone & Hlive & Hinj).
  assert (Hy : ∀ y, y ∈ new →
    ∃ k, (k < length (List.filter is_image files))%nat ∧
         id y = fresh k ∧ status y = pending ∧ resizedUrl y = None).
  { intros y Hin. apply list_elem_of_lookup in Hin as [k Hk].
    destruct (Hitems k y Hk) as (f & Hf & Hload).
    apply loaded_item in Hload as (Hid & _ & Hs & Hu & _).
    exists k. split; [|done]. by apply lookup_lt_Some in Hf. }
  unfold tidy. cbn [imageFiles urls].
  split; [|split; [|split; [|split]]].
  - rewrite fmap_app. apply NoDup_app. split; [done|]. split.
    + intros i Hi Hi'. apply list_elem_of_fmap in Hi' as (y & -> & Hin).
      destruct (Hy y Hin) as (k & Hk & Hid & _).
      rewrite Hid in Hi. by apply (Hnew k).
    + assert (E : id <$> new
                  = fresh <$> seq 0 (length (List.filter is_image files))).
      { apply list_eq. intros k. rewrite !list_lookup_fmap.
        destruct (new !! k) as [y|] eqn:Hk.
        - destruct (Hitems k y Hk) as (f & Hf & Hload).
          apply loaded_item in Hload as (Hid & _).
          apply lookup_lt_Some in Hf.
          rewrite lookup_seq_lt by done. cbn. by rewrite Hid.
        - apply lookup_ge_None in Hk.
          rewrite lookup_seq_ge by lia. done. }
      by rewrite E.
  - intros it u Hit Hu. apply elem_of_app in Hit as [Hit|Hit].
    + by apply Hurl.
    + destruct (Hy it Hit) as (k & _ & _ & _ & Hnone). congruence.
  - intros it Hit Hc. apply elem_of_app in Hit as [Hit|Hit].
    + by apply Hdone.
    + destruct (Hy it Hit) as (k & _ & _ & Hs & _). congruence.
  - intros u Hreg. destruct (Hlive u Hreg) as (Hlt & it & Hit & Hitu).
    split; [done|]. exists it. split; [|done]. apply elem_of_app. by left.
  - intros x y u Hx Hy' Hxu Hyu.
    apply elem_of_app in Hx as [Hx|Hx];
      [|destruct (Hy x Hx) as (k & _ & _ & _ & Hnone); congruence].
    apply elem_of_app in Hy' as [Hy'|Hy'];
      [|destruct (Hy y Hy') as (k & _ & _ & _ & Hnone); congruence].
    by eapply Hinj.
Qed.

Theorem reachable_tidy (st : State) : reachable st → tidy st.
Proof.
  induction 1 as [|st op Hreach IH Hvalid].
  - unfold tidy, initial, fetch_blob. cbn.
    split; [constructor|].
    split; [intros it u Hit; by apply elem_of_nil in Hit|].
    split; [intros it Hit; by apply elem_of_nil in Hit|].
    split; [|intros x y u Hx; by apply elem_of_nil in Hx].
    intros u [b Hb]. by rewrite lookup_empty in Hb.
  - destruct op as [cfg fresh files|br cfg k|br cfg|i|]; cbn [apply].
    + destruct (handleImageSelect cfg fresh files st) as [st'|] eqn:E;
        [|done]. by eapply tidy_handleImageSelect.
    + destruct (imageFiles st !! k) as [it|] eqn:Hk; [|done].
      destruct (is_pending it) eqn:Hp; [|done].
      assert (Hin : it ∈ imageFiles st)
        by (apply list_elem_of_lookup; eauto).
      apply tidy_resizeSingleImage; [done|by exists it|].
      intros x Hx Hid. destruct IH as (Hnd & _).
      rewrite (id_unique _ _ _ Hnd Hx Hin Hid).
      unfold is_pending in Hp. by apply bool_decide_eq_true in Hp.
    + by apply tidy_handleResizeAll.
    + by apply tidy_handleRemove.
    + by apply tidy_handleClear.
Qed.
End ResizePageFacts.

Module ResizePageProps.
Import DOM Resize ResizePage ResizePageFacts BatchFacts.

Lemma tidy_registered (st : State) : tidy st → registered st.
Proof.
  intros (_ & Hurl & Hdone & Hlive & _). split.
  - apply Forall_forall. intros it Hit Hc.
    destruct (Hdone it Hit Hc) as [u Hu]. exists u. split; [done|].
    by destruct (Hurl it u Hit Hu).
  - intros u Hu. by destruct (Hlive u Hu).
Qed.

Lemma reachable_sample : reachable Samples.after_session.
Proof.
  unfold Samples.after_session, Samples.session. cbn [fold_left].
  apply reach_apply; [apply reach_apply; [apply reach_initial|]|exact I].
  split.
  - apply (bool_decide_unpack _). vm_compute. exact I.
  - intros k _ Hin. cbn in Hin. by apply elem_of_nil in Hin.
Qed.

Lemma reachable_page_state (p : Page) :
  reachable_page p → reachable (p_state p).
Proof.
  induction 1 as [|p op _ IH Hids]; [apply reach_initial|].
  cbn [apply_page p_state]. by apply reach_apply.
Qed.

Lemma reachable_torn : reachable_page Samples.after_torn.
Proof.
  unfold Samples.after_torn, Samples.torn_session, Samples.session.
  cbn [fold_left app].
  apply reach_page_apply;
    [apply reach_page_apply;
       [apply reach_page_apply; [apply reach_page_initial|]|exact I]|].
  - split.
    + apply (bool_decide_unpack _). vm_compute. exact I.
    + intros k _ Hin. cbn in Hin. by apply elem_of_nil in Hin.
  - split.
    + apply (bool_decide_unpack _). vm_compute. exact I.
    + intros k Hk. destruct k as [|k]; [|cbn in Hk; lia].
      apply (bool_decide_unpack _). vm_compute. exact I.
Qed.

Lemma files_update_by_id (i : string) (f : ImageFile → ImageFile)
    (l : list ImageFile) :
  (∀ x, file (f x) = file x) →
  file <$> update_by_id i f l = file <$> l.
Proof.
  intros Hf. unfold update_by_id. change (map ?g l) with (g <$> l).
  rewrite <- list_fmap_compose. apply list_fmap_ext. intros _ x _. cbn.
  by destruct (String.eqb (id x) i).
Qed.

Lemma files_resizeSingleImage (br : Browser) (cfg : Settings)
    (p : ImageFile) (st : State) :
  file <$> imageFiles (resizeSingleImage br cfg p st)
  = file <$> imageFiles st.
Proof.
  destruct (resizeSingleImage_items br cfg p st)
    as [(_ & blob & w & h & _ & ->)|(_ & _ & ->)];
    by apply files_update_by_id.
Qed.

Lemma files_run (br : Browser) (cfg : Settings) (ps : list ImageFile) :
  ∀ st,
    file <$> imageFiles
               (fold_left (λ st p, resizeSingleImage br cfg p st) ps st)
    = file <$> imageFiles st.
Proof.
  induction ps as [|p ps IH]; intros st; [done|].
  cbn [fold_left]. by rewrite IH, files_resizeSingleImage.
Qed.

(** Every item of the page has a file that decodes: a selection adds
    its files all together or not at all. *)
Lemma items_decode (st : State) :
  reachable st →
  Forall (λ f, is_Some (bitmap f)) (file <$> imageFiles st).
Proof.
  induction 1 as [|st op _ IH _]; [constructor|].
  destruct op as [cfg fresh files|br cfg k|br cfg|i|]; cbn [apply].
  - unfold handleImageSelect.
    destruct (length _ =? 0)%nat; [exact IH|].
    destruct (mapM _ _) as [new|] eqn:E;
      cbn [default from_option Datatypes.id imageFiles]; [|exact IH].
    rewrite fmap_app. apply Forall_app. split; [done|].
    apply Forall_fmap, Forall_lookup. intros k y Hk.
    destruct (selected_items _ _ _ _ E) as [_ Hnew].
    destruct (Hnew k y Hk) as (f & _ & Hy).
    apply loaded_item in Hy as (_ & <- & _ & _ & Hs). exact Hs.
  - destruct (imageFiles st !! k) as [it|]; [|exact IH].
    destruct (is_pending it); [|exact IH].
    by rewrite files_resizeSingleImage.
  - unfold handleResizeAll. by rewrite files_run.
  - unfold handleRemove. cbn [imageFiles].
    rewrite Forall_fmap in IH. rewrite Forall_fmap.
    rewrite Forall_forall in IH. apply Forall_forall. intros x Hx.
    apply list_elem_of_In, filter_In in Hx as [Hx _].
    apply IH. by apply list_elem_of_In.
  - constructor.
Qed.

(** The files whose URL is live are typed as images and do not decode. *)
Lemma sources_undecodable (p : Page) :
  reachable_page p →
  ∀ f, f ∈ p_sources p → is_image f = true ∧ bitmap f = None.
Proof.
  induction 1 as [|p op _ IH _]; intros f Hf.
  { by apply elem_of_nil in Hf. }
  destruct op as [cfg fresh files|br cfg k|br cfg|i|];
    cbn [apply_page p_sources] in Hf; try (by apply IH).
  apply elem_of_app in Hf as [Hf|Hf]; [by apply IH|].
  unfold unrevoked in Hf.
  apply list_elem_of_In, filter_In in Hf as [Hf Hb].
  apply filter_In in Hf as [_ Hi]. split; [exact Hi|].
  apply negb_true_iff, bool_decide_eq_false in Hb.
  destruct (bitmap f); [|done]. exfalso. by apply Hb.
Qed.

(** In every state of the page the live object URLs are the URLs of the
    completed items, which give their results, and the URLs of the
    selected files that are typed as images and did not decode.  The
    latter belong to no item of the page: every item has a file that
    decodes. *)
Theorem live_urls_are_completed_items (p : Page) (u : URL) :
  reachable_page p →
  (is_Some (fetch_blob (urls (p_state p)) u) ↔
   ∃ it, it ∈ imageFiles (p_state p) ∧ status it = completed ∧
         resizedUrl it = Some u) ∧
  (∀ f, f ∈ p_sources p → is_image f = true ∧ bitmap f = None) ∧
  (∀ it, it ∈ imageFiles (p_state p) → is_Some (bitmap (file it))) ∧
  (∀ f it, f ∈ p_sources p → it ∈ imageFiles (p_state p) → file it ≠ f).
Proof.
  intros Hp. pose proof (reachable_page_state _ Hp) as Hr.
  pose proof (sources_undecodable _ Hp) as Hsrc.
  assert (Hdec : ∀ it, it ∈ imageFiles (p_state p) →
                       is_Some (bitmap (file it))).
  { intros it Hit. pose proof (items_decode _ Hr) as Hd.
    rewrite Forall_fmap, Forall_forall in Hd.
    by apply Hd. }
  split; [|split; [done|split; [done|]]].
  - apply reachable_tidy in Hr as (_ & Hurl & _ & Hlive & _).
    split.
    + intros Hu. destruct (Hlive u Hu) as (_ & it & Hit & Hitu).
      exists it. split; [done|]. split; [|done].
      by destruct (Hurl it u Hit Hitu).
    + intros (it & Hit & _ & Hitu). by destruct (Hurl it u Hit Hitu).
  - intros f it Hf Hit E. destruct (Hsrc f Hf) as [_ Hn].
    destruct (Hdec it Hit) as [img Himg]. congruence.
Qed.

Lemma live_urls_are_completed_items_witness :
  is_Some (fetch_blob (urls (p_state Samples.after_torn)) 1%nat) ∧
  (∃ it, it ∈ imageFiles (p_state Samples.after_torn) ∧
         status it = completed ∧ resizedUrl it = Some 1%nat) ∧
  p_sources Samples.after_torn = [Samples.broken "torn.png" "image/png"].
Proof.
  assert (Hs : is_Some (fetch_blob (urls (p_state Samples.after_torn))
                          1%nat))
    by (vm_compute; eauto).
  split; [exact Hs|]. split; [|reflexivity].
  by apply (live_urls_are_completed_items _ 1%nat reachable_torn).
Defined.

(** In every state of the page the archive is made of the completed
    items: [handleDownloadAll] makes one call per completed item, in list
    order, under its entry name and with the blob behind its URL (no
    fetch fails).  The archive has one entry for each entry name, with
    the blob of the last completed item of that name; it has as many
    entries as there are completed items exactly when their entry names
    are distinct, and then the calls are its entries. *)
Theorem reachable_archive_complete (st : State) :
  reachable st →
  let finished := List.filter is_completed (imageFiles st) in
  let calls := default [] (handleDownloadAll st) in
  let zip := archive (handleDownloadAll st) in
  Forall2 (λ it c, c.1 = entryName it ∧
                   ∃ u, resizedUrl it = Some u ∧
                        fetch_blob (urls st) u = Some c.2)
    finished calls ∧
  NoDup zip.*1 ∧
  (∀ n, n ∈ zip.*1 ↔ n ∈ entryName <$> finished) ∧
  (∀ n b, (n, b) ∈ zip → ∃ l1 l2, calls = l1 ++ (n, b) :: l2 ∧ n ∉ l2.*1) ∧
  (length zip ≤ completedCount st)%nat ∧
  (NoDup (entryName <$> finished) ↔ length zip = completedCount st) ∧
  (NoDup (entryName <$> finished) → zip = calls).
Proof.
  intros Hr finished calls zip.
  apply reachable_tidy, tidy_registered in Hr.
  pose proof (handleDownloadAll_calls st Hr) as Hc.
  pose proof (calls_names st Hr) as Hn.
  fold finished calls in Hc, Hn.
  assert (Hlen : length calls = completedCount st).
  { unfold completedCount. fold finished.
    by rewrite <- (length_fmap fst), Hn, length_fmap. }
  split; [exact Hc|].
  split; [apply JSZipFacts.filled_NoDup|].
  split; [intros n; rewrite <- Hn; apply JSZipFacts.filled_names|].
  split; [apply JSZipFacts.filled_last|].
  split; [rewrite <- Hlen; apply JSZipFacts.filled_length|].
  split; [|intros Hnd; apply JSZipFacts.filled_distinct; by rewrite Hn].
  rewrite <- Hn, <- Hlen. split.
  - intros Hnd. unfold zip, archive. fold calls.
    by rewrite JSZipFacts.filled_distinct.
  - intros Hl. destruct (decide (NoDup calls.*1)) as [|Hnd]; [done|].
    apply JSZipFacts.filled_collision in Hnd.
    unfold zip, archive in Hl. fold calls in Hl. lia.
Qed.

Lemma reachable_archive_complete_witness :
  (archive (handleDownloadAll Samples.after_session)).*1
    = ["a_640x480.png"; "b_800x600.jpg"] ∧
  length (archive (handleDownloadAll Samples.after_session))
    = completedCount Samples.after_session.
Proof.
  destruct (reachable_archive_complete _ reachable_sample)
    as (_ & _ & _ & _ & _ & Hiff & _).
  split; [vm_compute; reflexivity|]. apply Hiff.
  apply (bool_decide_unpack _). vm_compute. exact I.
Defined.

(** [handleClear] empties the list and revokes every URL of a result.
    The URLs of the files that did not decode stay: it does not know
    them. *)
Theorem handleClear_releases_all (p : Page) :
  reachable_page p →
  let p' := apply_page p Clear in
  imageFiles (p_state p') = [] ∧
  registry (urls (p_state p')) = ∅ ∧
  p_sources p' = p_sources p.
Proof.
  intros Hp p'. split; [done|]. split; [|done].
  pose proof (reachable_page_state _ Hp) as Hr.
  set (st := p_state p) in *. cbn [p' apply_page p_state apply].
  apply reachable_tidy in Hr as (_ & _ & _ & Hlive & _).
  apply map_eq. intros u. rewrite lookup_empty.
  destruct (registry (urls (handleClear st)) !! u) as [b|] eqn:E; [|done].
  exfalso.
  destruct (revoke_all (imageFiles st) (urls st) u) as (_ & Hheld & Hsub).
  assert (Hs : is_Some (fetch_blob (urls (handleClear st)) u))
    by (by exists b).
  destruct (Hlive u (Hsub Hs)) as (_ & it & Hit & Hitu).
  assert (Hnone : fetch_blob (urls (handleClear st)) u = None)
    by (apply Hheld; eauto).
  rewrite Hnone in Hs. by destruct Hs.
Qed.

Lemma handleClear_releases_all_witness :
  let p' := apply_page Samples.after_torn Clear in
  registry (urls (p_state Samples.after_torn)) ≠ ∅ ∧
  registry (urls (p_state p')) = ∅ ∧
  p_sources p' = [Samples.broken "torn.png" "image/png"].
Proof.
  intros p'.
  destruct (handleClear_releases_all _ reachable_torn) as (_ & He & Hs).
  split; [|split; [exact He|exact Hs]].
  intros E.
  assert (H : registry (urls (p_state Samples.after_torn)) !! 0%nat = None)
    by (rewrite E; apply lookup_empty).
  vm_compute in H. discriminate.
Defined.

(** Removing an item takes it off the list and releases its URL; the
    other items stay in order and their URLs stay live. *)
Theorem handleRemove_releases_item (st : State) (i : string) :
  reachable st →
  let st' := handleRemove i st in
  imageFiles st'
    = List.filter (λ it, negb (String.eqb (id it) i)) (imageFiles st) ∧
  (∀ it u, it ∈ imageFiles st → id it = i → resizedUrl it = Some u →
     fetch_blob (urls st') u = None) ∧
  (∀ it u, it ∈ imageFiles st' → resizedUrl it = Some u →
     is_Some (fetch_blob (urls st') u)).
Proof.
  intros Hr st'. pose proof (reachable_tidy _ Hr) as Ht.
  split; [done|]. split.
  - intros it u Hit Hid Hu. destruct Ht as (Hnd & _).
    subst st'. unfold handleRemove. cbn [urls].
    pose proof (find_by_id i (imageFiles st)) as Hfind.
    destruct (List.find _ _) as [f|].
    + destruct Hfind as [Hf Hfi].
      assert (f = it) as -> by (eapply id_unique; eauto; congruence).
      rewrite Hu. unfold fetch_blob, revokeObjectURL. cbn.
      apply lookup_delete_eq.
    + exfalso. by apply (Hfind it).
  - intros it u Hit Hu.
    destruct (tidy_handleRemove i st Ht) as (_ & Hurl & _).
    by destruct (Hurl it u Hit Hu).
Qed.

Lemma handleRemove_releases_item_witness :
  let st' := handleRemove (Samples.ids 0) Samples.after_session in
  id <$> imageFiles st' = [Samples.ids 1] ∧
  fetch_blob (urls st') 0%nat = None ∧
  is_Some (fetch_blob (urls st') 1%nat).
Proof.
  intros st'.
  destruct (handleRemove_releases_item _ (Samples.ids 0) reachable_sample)
    as (Hl & Hgone & Hkept).
  fold st' in Hl, Hgone, Hkept.
  split; [rewrite Hl; vm_compute; reflexivity|]. split.
  - eapply (Hgone (default Resize.small_photo
                     (imageFiles Samples.after_session !! 0%nat)));
      [|reflexivity|reflexivity].
    apply list_elem_of_lookup. exists 0%nat. reflexivity.
  - eapply (Hkept (default Resize.small_photo (imageFiles st' !! 0%nat)));
      [|reflexivity].
    apply list_elem_of_lookup. exists 0%nat. reflexivity.
Defined.
End ResizePageProps.

Module ResizeSelectProps.
Import DOM Resize ResizePage ResizePageFacts BatchFacts.

(** One image-typed file that does not decode holds the whole selection
    back: the handler never reaches [setImageFiles], whatever the other
    files are. *)
Theorem handleImageSelect_blocked (cfg : Settings) (fresh : nat → string)
    (files : list File) (st : State) (f : File) :
  f ∈ files → is_image f = true → bitmap f = None →
  handleImageSelect cfg fresh files st = None.
Proof.
  intros Hf Himg Hbmp. unfold handleImageSelect.
  assert (Hv : f ∈ List.filter is_image files)
    by (by apply elem_of_List_filter).
  destruct (List.filter is_image files) as [|v vs] eqn:E;
    [by apply elem_of_nil in Hv|].
  cbn [length Nat.eqb].
  destruct (mapM _ _) as [new|] eqn:Hm; [|done]. exfalso.
  apply selected_items in Hm as [Hlen Hitems].
  apply list_elem_of_lookup in Hv as [k Hk].
  destruct (new !! k) as [y|] eqn:Hy.
  - destruct (Hitems k y Hy) as (g & Hg & Hload).
    assert (g = f) as -> by congruence.
    apply loaded_item in Hload as (_ & _ & _ & _ & [img Himg']).
    congruence.
  - apply lookup_ge_None in Hy. apply lookup_lt_Some in Hk. lia.
Qed.

Lemma handleImageSelect_blocked_witness :
  handleImageSelect both_empty Samples.ids
    (Samples.broken "torn.png" "image/png" :: Samples.picked)
    ResizePage.initial = None.
Proof.
  apply (handleImageSelect_blocked _ _ _ _
           (Samples.broken "torn.png" "image/png"));
    [by left | reflexivity | reflexivity].
Defined.

(** When every image-typed file decodes, the selection appends one
    pending item per image-typed file, in order, with the id drawn for
    it, the size of its image as original size, and as target the value
    of the form or, for an empty field, the original; the items already
    on the page and the object URLs are left as they are. *)
Theorem handleImageSelect_appends (cfg : Settings) (fresh : nat → string)
    (files : list File) (st : State) :
  (∀ f, f ∈ files → is_image f = true → is_Some (bitmap f)) →
  ∃ new,
    handleImageSelect cfg fresh files st
      = Some {| imageFiles := imageFiles st ++ new; urls := urls st |} ∧
    file <$> new = List.filter is_image files ∧
    id <$> new = fresh <$> seq 0 (length (List.filter is_image files)) ∧
    ∀ y, y ∈ new →
      status y = pending ∧ resizedUrl y = None ∧
      ∃ img, bitmap (file y) = Some img ∧
        originalWidth y = Some (width img) ∧
        originalHeight y = Some (height img) ∧
        targetWidth y = Some (default (width img) (s_targetWidth cfg)) ∧
        targetHeight y = Some (default (height img) (s_targetHeight cfg)).
Proof.
  intros Hdec. unfold handleImageSelect.
  set (vs := List.filter is_image files).
  assert (Hvs : ∀ f, f ∈ vs → is_Some (bitmap f)).
  { intros f Hf. apply elem_of_List_filter in Hf as [Hf Hi]. auto. }
  clearbody vs.
  destruct vs as [|v vs'] eqn:Evs.
  { exists []. cbn. rewrite app_nil_r. split; [by destruct st|].
    split; [done|]. split; [done|]. intros y Hy.
    by apply elem_of_nil in Hy. }
  rewrite <- Evs in *. clear Evs v vs'.
  destruct (length vs =? 0)%nat eqn:El.
  { apply Nat.eqb_eq in El. destruct vs; [|done].
    exists []. cbn. rewrite app_nil_r. split; [by destruct st|].
    split; [done|]. split; [done|]. intros y Hy.
    by apply elem_of_nil in Hy. }
  assert (Hsome : is_Some (mapM (λ x, x)
            (imap (λ k f, loadImageMetadata cfg (fresh k) f) vs))).
  { apply mapM_is_Some, Forall_forall. intros o Ho.
    apply elem_of_lookup_imap in Ho as (k & f & -> & Hk).
    destruct (Hvs f) as [img Himg]; [apply list_elem_of_lookup; eauto|].
    unfold loadImageMetadata. rewrite Himg. by eexists. }
  destruct Hsome as [new Hm]. rewrite Hm. exists new. split; [done|].
  apply selected_items in Hm as [Hlen Hitems].
  split; [|split].
  - apply list_eq. intros k. rewrite list_lookup_fmap.
    destruct (new !! k) as [y|] eqn:Hy.
    + destruct (Hitems k y Hy) as (f & Hf & Hload).
      apply loaded_item in Hload as (_ & Hfile & _). cbn. congruence.
    + apply lookup_ge_None in Hy. cbn. symmetry.
      apply lookup_ge_None. lia.
  - apply list_eq. intros k. rewrite !list_lookup_fmap.
    destruct (new !! k) as [y|] eqn:Hy.
    + destruct (Hitems k y Hy) as (f & Hf & Hload).
      apply loaded_item in Hload as (Hid & _).
      apply lookup_lt_Some in Hf.
      rewrite lookup_seq_lt by done. cbn. by rewrite Hid.
    + apply lookup_ge_None in Hy. rewrite lookup_seq_ge by lia. done.
  - intros y Hin. apply list_elem_of_lookup in Hin as [k Hk].
    destruct (Hitems k y Hk) as (f & Hf & Hload).
    unfold loadImageMetadata in Hload.
    destruct (bitmap f) as [img|] eqn:Himg; [|done].
    injection Hload as <-. cbn. split; [done|]. split; [done|].
    exists img. split; [done|]. split; [done|]. split; [done|].
    split; by destruct (_ cfg).
Qed.

Lemma handleImageSelect_appends_witness :
  ∃ new,
    handleImageSelect (width_only 200) Samples.ids Samples.picked
      ResizePage.initial
      = Some {| imageFiles := new; urls := no_urls |} ∧
    name ∘ file <$> new = ["a.png"; "b.jpg"] ∧
    targetWidth <$> new = [Some 200; Some 200] ∧
    targetHeight <$> new = [Some 480; Some 600].
Proof.
  destruct (handleImageSelect_appends (width_only 200) Samples.ids
              Samples.picked ResizePage.initial) as (new & Hs & _).
  - intros f Hf Hi.
    repeat (apply elem_of_cons in Hf as [->|Hf]);
      [by eexists | discriminate | by eexists
       | by apply elem_of_nil in Hf].
  - exists new. split; [exact Hs|].
    vm_compute in Hs. injection Hs as <-. vm_compute. by repeat split.
Defined.

(** A batch run leaves no item pending. *)
Lemma run_leaves_none_pending (br : Browser) (cfg : Settings)
    (ps : list ImageFile) :
  ∀ st y,
    y ∈ imageFiles (fold_left (λ st p, resizeSingleImage br cfg p st) ps st) →
    status y = pending →
    y ∈ imageFiles st ∧ ∀ p, p ∈ ps → id p ≠ id y.
Proof.
  induction ps as [|p ps IH]; intros st y Hy Hs.
  - split; [done|]. intros p Hp. by apply elem_of_nil in Hp.
  - cbn [fold_left] in Hy. destruct (IH _ _ Hy Hs) as [Hy1 Hps].
    assert (Hy0 : y ∈ imageFiles st ∧ id p ≠ id y).
    { destruct (resizeSingleImage_items br cfg p st)
        as [(_ & blob & w & h & _ & Hl)|(_ & _ & Hl)];
        rewrite Hl in Hy1;
        apply elem_of_update_by_id in Hy1 as (x & Hx & ->);
        destruct (String.eqb_spec (id x) (id p)) as [E|E];
        try discriminate; split; try done; congruence. }
    destruct Hy0 as [Hy0 Hne]. split; [done|].
    intros q Hq. apply elem_of_cons in Hq as [->|Hq]; [done|]. by apply Hps.
Qed.

(** After [handleResizeAll] no item is pending, and running it again
    changes nothing. *)
Theorem handleResizeAll_idempotent (br br' : Browser)
    (cfg cfg' : Settings) (st : State) :
  pendingCount (handleResizeAll br cfg st) = 0%nat ∧
  handleResizeAll br' cfg' (handleResizeAll br cfg st)
    = handleResizeAll br cfg st.
Proof.
  assert (Hnil : List.filter is_pending
                   (imageFiles (handleResizeAll br cfg st)) = []).
  { destruct (List.filter _ _) as [|y l] eqn:E; [done|]. exfalso.
    assert (Hy : y ∈ List.filter is_pending
                       (imageFiles (handleResizeAll br cfg st)))
      by (rewrite E; by left).
    apply elem_of_List_filter in Hy as [Hy Hp].
    unfold is_pending in Hp. apply bool_decide_eq_true in Hp.
    destruct (run_leaves_none_pending br cfg _ st y Hy Hp) as [Hin Hno].
    apply (Hno y); [|done].
    apply elem_of_List_filter. split; [done|].
    unfold is_pending. by apply bool_decide_eq_true. }
  split.
  - unfold pendingCount. by rewrite Hnil.
  - unfold handleResizeAll at 1. by rewrite Hnil.
Qed.
End ResizeSelectProps.

Module ResizeSizeProps.
Import DOM Resize JS JSFacts NumberFacts ResizeFacts.

(** What the page passes to the resizer for an item that carries the
    size of its image. *)
Lemma resizeArgs_loaded (cfg : Settings) (it : ImageFile) (W H : Z) :
  originalWidth it = Some W → originalHeight it = Some H →
  0 < W → 0 < H →
  resizeArgs cfg it
  = (Some (match s_targetWidth cfg with
           | Some w => if 0 <? w then w else W
           | None => W
           end),
     Some (match s_targetHeight cfg with
           | Some h => if 0 <? h then h else H
           | None => H
           end)).
Proof.
  intros HW HH HWp HHp. unfold resizeArgs. rewrite HW, HH.
  destruct (s_targetWidth cfg) as [w|], (s_targetHeight cfg) as [h|];
    repeat (match goal with
            | |- context [0 <? ?z] => destruct (Z.ltb_spec 0 z)
            end);
    rewrite ?truthy_pos by done; reflexivity.
Qed.

(** A width that was typed, as the resizer gets it: a number that is not
    below the width of the image when the typed width is not. *)
Lemma typed_not_below (w W : Z) :
  0 < W → W ≤ 2 ^ 31 - 1 → W ≤ w →
  of_Z w = Infinity false ∨
  ∃ x, of_Z w = Finite x ∧ Qred x = x ∧ (inject_Z W <= x)%Q.
Proof.
  intros HW HW' Hle. apply fl_ge_int; [done|lia|].
  by rewrite <- Zle_Qle.
Qed.

Lemma quotient_not_below_one (x : Q) (W : Z) :
  0 < W → (inject_Z W <= x)%Q →
  num_div (Finite x) (Finite (inject_Z W)) = Infinity false ∨
  ∃ a, num_div (Finite x) (Finite (inject_Z W)) = Finite a ∧
       Qred a = a ∧ (1 <= a)%Q.
Proof.
  intros HW Hx. rewrite num_div_pos by done.
  pose proof (inject_Z_pos' _ HW) as HWq.
  apply (fl_ge_int 1); [done|done|].
  apply Qle_shift_div_l; [done|]. by rewrite Qmult_1_l.
Qed.

Lemma num_min_one (a : Q) :
  Qred a = a → (1 <= a)%Q → num_min (Finite a) (Finite 1) = Finite 1.
Proof.
  intros Ha H1. cbn [num_min num_le].
  destruct (Qle_bool a 1) eqn:E; [|done].
  apply Qle_bool_iff in E. f_equal.
  apply canonical_eq; [done|reflexivity|]. by apply Qle_antisym.
Qed.

(** The box the page passes for a typed width that is not below the
    width of the image: the ratio is 1 and the output has the size of
    the image, however large the typed width is. *)
Lemma resizeImage_box_not_below (br : Browser) (q : Q) (f : File)
    (img : HTMLImageElement) (w : Z) :
  bitmap f = Some img → 0 < width img → 0 < height img →
  width img ≤ w →
  getContext2d br = true → toBlob_ok br = true →
  resizeImage br q f (Some w) (Some (height img)) true
  = resolve {| b_width := width img; b_height := height img;
               b_type := type f; b_quality := q |}.
Proof.
  intros Hf HW HH Hle Hctx Hblob.
  destruct (bitmap_loadable _ _ Hf) as (_ & _ & HW' & _ & HH').
  pose proof (inject_Z_pos' _ HW) as HWq.
  pose proof (inject_Z_pos' _ HH) as HHq.
  unfold resizeImage. rewrite Hf, Hctx, Hblob. cbv zeta.
  cbn [fmap option_fmap option_map negb].
  rewrite (of_Z_int (width img)), (of_Z_int (height img)) by lia.
  assert (Hone : num_div (Finite (inject_Z (height img)))
                   (Finite (inject_Z (height img))) = Finite 1).
  { rewrite num_div_pos by done.
    rewrite (fl_comp _ (inject_Z 1)) by (field; lra).
    by apply fl_int. }
  assert (HmulW : num_round (num_mul (Finite (inject_Z (width img)))
                               (Finite 1))
                  = Finite (inject_Z (width img))).
  { cbn [num_mul].
    rewrite (fl_comp _ (inject_Z (width img))) by ring.
    rewrite fl_int by lia. cbn [num_round]. by rewrite Math_round_int. }
  assert (HmulH : num_round (num_mul (Finite (inject_Z (height img)))
                               (Finite 1))
                  = Finite (inject_Z (height img))).
  { cbn [num_mul].
    rewrite (fl_comp _ (inject_Z (height img))) by ring.
    rewrite fl_int by lia. cbn [num_round]. by rewrite Math_round_int. }
  unfold num_nonzero, num_or.
  rewrite (num_truthy_pos (height img)) by done.
  destruct (typed_not_below w (width img)) as [Ew|(x & Ew & Hx & Hxw)];
    try done; rewrite Ew.
  - cbn [num_truthy andb orb].
    assert (En : is_negative (inject_Z (width img)) = false).
    { unfold is_negative. apply negb_false_iff, Qle_bool_iff. lra. }
    rewrite Hone. cbn [num_div]. rewrite En. cbn [xorb num_min num_le].
    rewrite HmulW, HmulH. cbn [canvas_side_of].
    by rewrite !canvas_side_int by lia.
  - assert (Et : num_truthy (Some (Finite x)) = true).
    { cbn. apply negb_true_iff, not_true_is_false. intros E.
      apply Qeq_bool_eq in E. lra. }
    rewrite Et. cbn [andb orb]. rewrite Hone.
    assert (Er : num_min (num_div (Finite x)
                            (Finite (inject_Z (width img))))
                   (Finite 1) = Finite 1).
    { destruct (quotient_not_below_one x (width img))
        as [E|(a & E & Ha & Ha1)]; try done; rewrite E.
      - reflexivity.
      - by apply num_min_one. }
    rewrite Er, HmulW, HmulH. cbn [canvas_side_of].
    by rewrite !canvas_side_int by lia.
Qed.

(** A whole number within half a pixel and [2^-20] of a number that is
    at most a whole number is at most that whole number. *)
Lemma whole_le (a b : Z) (x : Q) :
  (inject_Z a <= x + (1 # 2) + (1 # 1048576))%Q → (x <= inject_Z b)%Q →
  a ≤ b.
Proof.
  intros H1 H2.
  assert (H3 : (inject_Z a < inject_Z (b + 1))%Q).
  { rewrite inject_Z_plus. change (inject_Z 1) with 1%Q. lra. }
  rewrite <- Zlt_Qlt in H3. lia.
Qed.

(** On the page, with the aspect ratio kept, a width typed and the height
    left empty, the output fits in the typed width and in the original
    size; a width that is not below the original gives the original
    size. *)
Theorem page_width_only_never_upscales (br : Browser) (cfg : Settings)
    (it : ImageFile) (img : HTMLImageElement) (w : Z) :
  maintainAspectRatio cfg = true →
  s_targetWidth cfg = Some w → 0 < w → s_targetHeight cfg = None →
  bitmap (file it) = Some img →
  originalWidth it = Some (width img) →
  originalHeight it = Some (height img) →
  0 < width img → 0 < height img →
  getContext2d br = true → toBlob_ok br = true →
  ∃ blob,
    resizeImage br (quality cfg) (file it)
      (resizeArgs cfg it).1 (resizeArgs cfg it).2 (maintainAspectRatio cfg)
      = resolve blob ∧
    b_width blob ≤ w ∧ b_width blob ≤ width img ∧
    b_height blob ≤ height img ∧
    (width img ≤ w →
     b_width blob = width img ∧ b_height blob = height img).
Proof.
  intros Hm Hsw Hw Hsh Hf HoW HoH HW HH Hctx Hblob.
  rewrite (resizeArgs_loaded cfg it _ _ HoW HoH HW HH), Hsw, Hsh, Hm.
  destruct (Z.ltb_spec 0 w) as [_|Hbad]; [|lia]. cbn [fst snd].
  destruct (bitmap_loadable _ _ Hf) as (_ & _ & HW' & _ & HH').
  destruct (Z_le_gt_dec (width img) w) as [Hle|Hgt].
  - rewrite (resizeImage_box_not_below _ _ _ img) by done.
    eexists. split; [reflexivity|]. cbn [b_width b_height].
    split; [done|]. split; [lia|]. split; [lia|]. done.
  - destruct (resizeImage_fit br (quality cfg) (file it) img w
                (height img))
      as (cw & ch & E & _ & Hcw & _ & Hch & _ & H2 & _);
      try done; try lia.
    eexists. split; [exact E|]. cbn [b_width b_height].
    split; [done|]. split; [lia|]. split; [done|]. lia.
Qed.

Lemma page_width_only_never_upscales_witness :
  ∃ blob,
    resizeImage browser_ok (9 # 10) (file small_photo)
      (Some 200) (Some 50) true = resolve blob ∧
    b_width blob = 100 ∧ b_height blob = 50.
Proof.
  destruct (page_width_only_never_upscales browser_ok (width_only 200)
              small_photo {| width := 100; height := 50 |} 200)
    as (blob & Hb & _ & _ & _ & Hsame); try reflexivity.
  exists blob. split; [exact Hb|]. apply Hsame. discriminate.
Defined.

(** With the aspect box unchecked each side of the output is the typed
    size as a canvas takes it, an empty or non-positive field standing
    for the original size: a typed size up to [2^31 - 1] is kept as it
    is; of a larger one the canvas keeps what is left modulo [2^32], or
    takes its default side, 300 or 150, when that is above [2^31 - 1].
    Typed sizes are below [2^53]. *)
Theorem page_unchecked_exact (br : Browser) (cfg : Settings)
    (it : ImageFile) (img : HTMLImageElement) :
  maintainAspectRatio cfg = false →
  bitmap (file it) = Some img →
  originalWidth it = Some (width img) →
  originalHeight it = Some (height img) →
  0 < width img → 0 < height img →
  (∀ w, s_targetWidth cfg = Some w → w < 2 ^ 53) →
  (∀ h, s_targetHeight cfg = Some h → h < 2 ^ 53) →
  getContext2d br = true → toBlob_ok br = true →
  let side := λ (dflt : Z) (typed : option Z) (original : Z),
    match typed with
    | Some t =>
        if 0 <? t then
          if t <=? 2 ^ 31 - 1 then t
          else if t mod 2 ^ 32 <=? 2 ^ 31 - 1 then t mod 2 ^ 32
               else dflt
        else original
    | None => original
    end in
  ∃ blob,
    resizeImage br (quality cfg) (file it)
      (resizeArgs cfg it).1 (resizeArgs cfg it).2 (maintainAspectRatio cfg)
      = resolve blob ∧
    b_width blob = side 300 (s_targetWidth cfg) (width img) ∧
    b_height blob = side 150 (s_targetHeight cfg) (height img).
Proof.
  intros Hm Hf HoW HoH HW HH Hwb Hhb Hctx Hblob side.
  destruct (bitmap_loadable _ _ Hf) as (_ & _ & HW' & _ & HH').
  rewrite (resizeArgs_loaded cfg it _ _ HoW HoH HW HH), Hm.
  cbn [fst snd]. unfold resizeImage. rewrite Hf, Hctx, Hblob. cbv zeta.
  cbn [fmap option_fmap option_map andb negb].
  assert (Hside : ∀ dflt typed original,
            0 < original → original ≤ 2 ^ 31 - 1 →
            (∀ t, typed = Some t → t < 2 ^ 53) →
            canvas_side_of dflt
              (num_or (Some (of_Z (match typed with
                                   | Some t => if 0 <? t then t
                                               else original
                                   | None => original
                                   end)))
                 (of_Z original))
            = side dflt typed original).
  { intros dflt typed original Ho Ho' Ht. unfold side, num_or.
    destruct typed as [t|].
    - specialize (Ht t eq_refl).
      destruct (Z.ltb_spec 0 t) as [Hpos|Hneg].
      + rewrite of_Z_int by lia. rewrite num_truthy_pos by done.
        cbn [canvas_side_of]. rewrite canvas_side_wrap.
        destruct (Z.leb_spec t (2 ^ 31 - 1)) as [Hs|Hl]; [|done].
        rewrite Z.mod_small by lia.
        destruct (Z.leb_spec t (2 ^ 31 - 1)); [done|lia].
      + rewrite of_Z_int by lia. rewrite num_truthy_pos by done.
        cbn [canvas_side_of]. by rewrite canvas_side_int by lia.
    - rewrite of_Z_int by lia. rewrite num_truthy_pos by done.
      cbn [canvas_side_of]. by rewrite canvas_side_int by lia. }
  eexists. split; [reflexivity|]. cbn [b_width b_height].
  split; by apply Hside.
Qed.

(** Width 4294967396 typed, height left at a non-positive value, on a
    100 by 50 image: the output is 100 by 50. *)
Lemma page_unchecked_exact_witness :
  ∃ blob,
    resizeImage browser_ok (9 # 10) (file small_photo)
      (Some 4294967396) (Some 50) false = resolve blob ∧
    b_width blob = 100 ∧ b_height blob = 50.
Proof.
  destruct (page_unchecked_exact browser_ok
              {| s_targetWidth := Some 4294967396;
                 s_targetHeight := Some (-4);
                 maintainAspectRatio := false; quality := 9 # 10 |}
              small_photo {| width := 100; height := 50 |})
    as (blob & Hb & Hw & Hh); try reflexivity.
  - intros w [= <-]. reflexivity.
  - intros h [= <-]. reflexivity.
  - exists blob. split; [exact Hb|]. split; [exact Hw | exact Hh].
Defined.

(** With both dimensions given, each at most [2^31 - 1], and the aspect
    ratio kept, the output has the aspect ratio of the source up to the
    rounding of each side: [2 * |outW * H - outH * W|] is at most
    [(1 + 2^-19) * (W + H)], and at most [W + H] when [W + H] is below
    [2^19]. *)
Theorem resizeImage_aspect_drift (br : Browser) (q : Q) (f : File)
    (img : HTMLImageElement) (w h : Z) :
  bitmap f = Some img → 0 < width img → 0 < height img →
  0 < w → w ≤ 2 ^ 31 - 1 → 0 < h → h ≤ 2 ^ 31 - 1 →
  getContext2d br = true → toBlob_ok br = true →
  ∃ blob,
    resizeImage br q f (Some w) (Some h) true = resolve blob ∧
    524288 * (2 * Z.abs (b_width blob * height img
                         - b_height blob * width img))
    ≤ 524289 * (width img + height img) ∧
    (width img + height img < 524288 →
     2 * Z.abs (b_width blob * height img - b_height blob * width img)
     ≤ width img + height img).
Proof.
  intros Hf HW HH Hw Hw' Hh Hh' Hctx Hblob.
  destruct (resizeImage_fit br q f img w h)
    as (a & b & E & _ & _ & _ & _ & Ha1 & Ha2 & Hb1 & Hb2 & _);
    try done.
  eexists. split; [exact E|]. cbn [b_width b_height].
  set (W := inject_Z (width img)) in *.
  set (H := inject_Z (height img)) in *.
  set (r := Math_min _ _) in *.
  assert (HWq : (0 < W)%Q) by by apply inject_Z_pos'.
  assert (HHq : (0 < H)%Q) by by apply inject_Z_pos'.
  assert (Hup : (inject_Z (524288 * (2 * (a * height img
                                          - b * width img)))
                 <= inject_Z (524289 * (width img + height img)))%Q).
  { unfold Z.sub.
    rewrite !inject_Z_mult, !inject_Z_plus, inject_Z_opp, !inject_Z_mult.
    fold W H. change (inject_Z 2) with 2%Q.
    change (inject_Z 524288) with 524288%Q.
    change (inject_Z 524289) with 524289%Q. nra. }
  assert (Hlo : (inject_Z (- (524289 * (width img + height img)))
                 <= inject_Z (524288 * (2 * (a * height img
                                             - b * width img))))%Q).
  { unfold Z.sub.
    rewrite !inject_Z_opp, !inject_Z_mult, !inject_Z_plus, inject_Z_opp,
      !inject_Z_mult.
    fold W H. change (inject_Z 2) with 2%Q.
    change (inject_Z 524288) with 524288%Q.
    change (inject_Z 524289) with 524289%Q. nra. }
  rewrite <- Zle_Qle in Hup, Hlo. split; lia.
Qed.

Lemma resizeImage_aspect_drift_witness :
  ∃ blob,
    resizeImage browser_ok (9 # 10) (Samples.photo "c.png" "image/png" 7 5)
      (Some 3) (Some 3) true = resolve blob ∧
    b_width blob = 3 ∧ b_height blob = 2.
Proof.
  destruct (resizeImage_aspect_drift browser_ok (9 # 10)
              (Samples.photo "c.png" "image/png" 7 5)
              {| width := 7; height := 5 |} 3 3)
    as (blob & Hb & _); try reflexivity; try lia.
  exists blob. split; [exact Hb|].
  vm_compute in Hb. injection Hb as <-. by split.
Defined.
End ResizeSizeProps.

(** ** Compress page *)

Module CompressPageFacts.
Import DOM Compress CompressPage.

Lemma compress_update_by_id_lookup (i : string) (f : ImageFile → ImageFile)
    (l : list ImageFile) (k : nat) :
  update_by_id i f l !! k
  = (λ it, if String.eqb (id it) i then f it else it) <$> l !! k.
Proof.
  unfold update_by_id.
  change (map ?g l) with (g <$> l). apply list_lookup_fmap.
Qed.

Lemma compressSingleImage_lookup (sf : Surfaces) (bs : Blob → Z) (q : Q)
    (p : ImageFile) (st : State) (k : nat) (it : ImageFile) :
  imageFiles st !! k = Some it →
  ∃ it',
    imageFiles (compressSingleImage sf bs q p st) !! k = Some it' ∧
    id it' = id it ∧ file it' = file it ∧
    status it' = if String.eqb (id it) (id p) then outcome sf q p
                 else status it.
Proof.
  intros Hk.
  unfold compressSingleImage, compressSingleImage_settle, outcome, succeeds.
  destruct (compressImage _ _ _) as [blob|msg];
    cbn -[update_by_id];
    rewrite !compress_update_by_id_lookup, Hk; cbn;
    destruct (String.eqb (id it) (id p)) eqn:E; cbn; rewrite ?E;
    eexists; (split; [reflexivity|]); by cbn.
Qed.

Lemma compressSingleImage_flag (sf : Surfaces) (bs : Blob → Z) (q : Q)
    (p : ImageFile) (st : State) :
  isCompressing (compressSingleImage sf bs q p st) = isCompressing st.
Proof.
  unfold compressSingleImage, compressSingleImage_settle.
  by destruct (compressImage _ _ _).
Qed.

Lemma run_flag (sf : Surfaces) (bs : Blob → Z) (q : Q)
    (ps : list ImageFile) :
  ∀ st,
    isCompressing
      (fold_left (λ st p, compressSingleImage sf bs q p st) ps st)
    = isCompressing st.
Proof.
  induction ps as [|p ps IH]; intros st; [done|].
  cbn [fold_left]. by rewrite IH, compressSingleImage_flag.
Qed.

Lemma compress_run_lookup (sf : Surfaces) (bs : Blob → Z) (q : Q)
    (ps : list ImageFile) :
  ∀ (st : State) (k : nat) (it : ImageFile),
    imageFiles st !! k = Some it →
    ∃ it',
      imageFiles
        (fold_left (λ st p, compressSingleImage sf bs q p st) ps st)
        !! k = Some it' ∧
      id it' = id it ∧ file it' = file it ∧
      ((∀ p, p ∈ ps → id p ≠ id it) → status it' = status it) ∧
      ((∃ p, p ∈ ps ∧ id p = id it) → status it' ≠ pending) ∧
      (∀ s, (∀ p, p ∈ ps → id p = id it → outcome sf q p = s) →
            (∃ p, p ∈ ps ∧ id p = id it) → status it' = s).
Proof.
  induction ps as [|p ps IH]; intros st k it Hk.
  - exists it. cbn. split; [done|]. split; [done|]. split; [done|].
    split; [done|].
    split; [intros (p & Hp & _)|intros s _ (p & Hp & _)];
      by apply elem_of_nil in Hp.
  - destruct (compressSingleImage_lookup sf bs q p st k it Hk)
      as (it1 & Hk1 & Hid1 & Hf1 & Hs1).
    destruct (IH _ _ _ Hk1)
      as (it' & Hk' & Hid' & Hf' & Hnone & Hnp & Hsome).
    exists it'. split; [exact Hk'|].
    split; [congruence|]. split; [congruence|]. rewrite Hid1 in *.
    assert (Hdec : Exists (λ r, id r = id it) ps
                   ∨ ∀ r, r ∈ ps → id r ≠ id it).
    { destruct (decide (Exists (λ r, id r = id it) ps)) as [He|Hne];
        [by left|right].
      intros r Hr E. apply Hne, Exists_exists. by exists r. }
    split; [|split].
    + intros Hno. rewrite Hnone.
      * rewrite Hs1.
        destruct (String.eqb_spec (id it) (id p)) as [E|E]; [|done].
        exfalso. apply (Hno p); [by left|done].
      * intros r Hr. apply Hno. by right.
    + intros (q0 & Hq0 & He0).
      destruct Hdec as [Hex|Hnex].
      * apply Hnp. apply Exists_exists in Hex as (r & Hr & He).
        by exists r.
      * rewrite (Hnone Hnex), Hs1.
        apply elem_of_cons in Hq0 as [->|Hq0]; [|by apply Hnex in Hq0].
        rewrite He0, String.eqb_refl. unfold outcome.
        by destruct (succeeds sf q p).
    + intros s Hall (q0 & Hq0 & He0).
      destruct Hdec as [Hex|Hnex].
      * apply Hsome.
        -- intros r Hr. apply Hall. by right.
        -- apply Exists_exists in Hex as (r & Hr & He). by exists r.
      * rewrite (Hnone Hnex), Hs1.
        apply elem_of_cons in Hq0 as [->|Hq0]; [|by apply Hnex in Hq0].
        rewrite He0, String.eqb_refl. apply Hall; [by left|done].
Qed.

Lemma compress_id_unique (l : list ImageFile) (x y : ImageFile) :
  NoDup (id <$> l) → x ∈ l → y ∈ l → id x = id y → x = y.
Proof.
  intros Hnd Hx Hy Hid.
  apply list_elem_of_lookup in Hx as [i Hi].
  apply list_elem_of_lookup in Hy as [j Hj].
  assert (i = j) as ->.
  { eapply NoDup_lookup; [exact Hnd| |];
      rewrite list_lookup_fmap; [by rewrite Hi|by rewrite Hj, Hid]. }
  congruence.
Qed.

Lemma elem_of_pending (l : list ImageFile) (x : ImageFile) :
  x ∈ List.filter is_pending l ↔ x ∈ l ∧ status x = pending.
Proof.
  rewrite !list_elem_of_In, filter_In. unfold is_pending.
  by rewrite bool_decide_eq_true.
Qed.

Lemma compressSingleImage_members (sf : Surfaces) (bs : Blob → Z)
    (q : Q) (p : ImageFile) (st : State) (y : ImageFile) :
  y ∈ imageFiles (compressSingleImage sf bs q p st) →
  ∃ x, x ∈ imageFiles st ∧
       if String.eqb (id x) (id p) then status y ≠ pending else y = x.
Proof.
  unfold compressSingleImage, compressSingleImage_settle,
    compressSingleImage_begin.
  destruct (compressImage _ _ _) as [blob|msg]; cbn -[update_by_id];
    unfold update_by_id; rewrite map_map, list_elem_of_In, in_map_iff;
    intros (x & <- & Hx); exists x; (split; [by apply list_elem_of_In|]);
    destruct (String.eqb (id x) (id p)) eqn:E; cbn; by rewrite ?E.
Qed.

Lemma compress_run_leaves_none_pending (sf : Surfaces) (bs : Blob → Z) (q : Q)
    (ps : list ImageFile) :
  ∀ st y,
    y ∈ imageFiles
          (fold_left (λ st p, compressSingleImage sf bs q p st) ps st) →
    status y = pending →
    y ∈ imageFiles st ∧ ∀ p, p ∈ ps → id p ≠ id y.
Proof.
  induction ps as [|p ps IH]; intros st y Hy Hs.
  - split; [done|]. intros p Hp. by apply elem_of_nil in Hp.
  - cbn [fold_left] in Hy. destruct (IH _ _ Hy Hs) as [Hy1 Hps].
    apply compressSingleImage_members in Hy1 as (x & Hx & Hxy).
    destruct (String.eqb_spec (id x) (id p)) as [E|E]; [done|].
    subst y. split; [done|].
    intros r Hr. apply elem_of_cons in Hr as [->|Hr]; [done|].
    by apply Hps.
Qed.

(** The batch run of the compress page: every item that was pending ends
    [completed] or [error] by its own processing, [error] in particular
    when its file does not decode; the other items keep their status;
    nothing is left pending, and the flag that disables the batch button
    is down again. *)
Theorem handleCompressAll_resilient (sf : Surfaces) (bs : Blob → Z)
    (q : Q) (st : State) :
  NoDup (id <$> imageFiles st) →
  let st' := handleCompressAll sf bs q st in
  (∀ k it, imageFiles st !! k = Some it →
     ∃ it', imageFiles st' !! k = Some it' ∧
            id it' = id it ∧ file it' = file it ∧
            status it' = (if is_pending it then outcome sf q it
                          else status it) ∧
            (is_pending it = true → bitmap (file it) = None →
             status it' = error)) ∧
  pendingCount st' = 0%nat ∧
  ((0 < pendingCount st)%nat → isCompressing st' = false) ∧
  handleCompressAll sf bs q st' = st'.
Proof.
  intros Hnd st'.
  enough (Hmain :
    (∀ k it, imageFiles st !! k = Some it →
       ∃ it', imageFiles st' !! k = Some it' ∧
              id it' = id it ∧ file it' = file it ∧
              status it' = (if is_pending it then outcome sf q it
                            else status it) ∧
              (is_pending it = true → bitmap (file it) = None →
               status it' = error)) ∧
    pendingCount st' = 0%nat ∧
    ((0 < pendingCount st)%nat → isCompressing st' = false)).
  { destruct Hmain as (H1 & H2 & H3). repeat split; try done.
    unfold handleCompressAll. unfold pendingCount in H2. by rewrite H2. }
  subst st'. unfold handleCompressAll, pendingCount.
  destruct (length (List.filter is_pending (imageFiles st)) =? 0)%nat
    eqn:El.
  - apply Nat.eqb_eq in El. rewrite El.
    apply nil_length_inv in El.
    split; [|split; [done|lia]].
    intros k it Hk. exists it. split; [done|]. split; [done|].
    split; [done|].
    assert (Hnp : is_pending it = false).
    { destruct (is_pending it) eqn:E; [|done]. exfalso.
      assert (Hin : it ∈ List.filter is_pending (imageFiles st)).
      { apply elem_of_pending. split; [apply list_elem_of_lookup; eauto|].
        unfold is_pending in E. by apply bool_decide_eq_true in E. }
      rewrite El in Hin. by apply elem_of_nil in Hin. }
    rewrite Hnp. split; [done|]. discriminate.
  - cbn [imageFiles isCompressing setIsCompressing].
    split; [|split; [|done]].
    + intros k it Hk.
      destruct (compress_run_lookup sf bs q
                  (List.filter is_pending (imageFiles st))
                  (setIsCompressing true st) k it Hk)
        as (it' & Hk' & Hid & Hf & Hnone & _ & Hsome).
      exists it'. split; [exact Hk'|]. split; [done|]. split; [done|].
      assert (Hin : it ∈ imageFiles st)
        by (apply list_elem_of_lookup; eauto).
      assert (Hs : status it' = if is_pending it then outcome sf q it
                                else status it).
      { destruct (is_pending it) eqn:Hp.
        - apply Hsome.
          + intros p Hp' Hpid. apply elem_of_pending in Hp' as [Hp' _].
            by rewrite (compress_id_unique _ _ _ Hnd Hp' Hin Hpid).
          + exists it. split; [|done]. apply elem_of_pending.
            split; [done|].
            unfold is_pending in Hp. by apply bool_decide_eq_true in Hp.
        - apply Hnone. intros p Hp' Hpid.
          apply elem_of_pending in Hp' as [Hp' Hpp].
          rewrite (compress_id_unique _ _ _ Hnd Hp' Hin Hpid) in Hpp.
          unfold is_pending in Hp. by apply bool_decide_eq_false in Hp. }
      split; [done|]. intros Hp Hb. rewrite Hs, Hp.
      unfold outcome, succeeds, compressImage. by rewrite Hb.
    + destruct (List.filter is_pending
                  (imageFiles (fold_left _ _ _))) as [|y l] eqn:E;
        [done|]. exfalso.
      assert (Hy : y ∈ List.filter is_pending
                 (imageFiles
                    (fold_left (λ st p, compressSingleImage sf bs q p st)
                       (List.filter is_pending (imageFiles st))
                       (setIsCompressing true st))))
        by (rewrite E; by left).
      apply elem_of_pending in Hy as [Hy Hyp].
      destruct (compress_run_leaves_none_pending sf bs q _ _ y Hy Hyp)
        as [Hin Hno].
      apply (Hno y); [|done]. by apply elem_of_pending.
Qed.

Lemma handleCompressAll_resilient_witness :
  let st' := handleCompressAll surfaces_ok (Samples.flat_size 3) (7 # 10)
               Samples.compress_picked in
  status <$> imageFiles st' = [completed; error] ∧
  isCompressing st' = false.
Proof.
  intros st'.
  destruct (handleCompressAll_resilient surfaces_ok (Samples.flat_size 3)
              (7 # 10) Samples.compress_picked)
    as (Hitems & _ & Hflag & _).
  - apply (bool_decide_unpack _). vm_compute. exact I.
  - fold st' in Hitems, Hflag. split.
    + destruct (Hitems 0%nat _ eq_refl) as (a & Ha & _ & _ & Hsa & _).
      destruct (Hitems 1%nat _ eq_refl) as (b & Hb & _ & _ & _ & Hsb).
      apply list_eq. intros [|[|k]]; rewrite list_lookup_fmap.
      * rewrite Ha. cbn. by rewrite Hsa.
      * rewrite Hb. cbn. by rewrite Hsb.
      * vm_compute. reflexivity.
    + apply Hflag. vm_compute. lia.
Defined.

Lemma removelast_snoc {A} (l : list A) (x : A) : removelast (l ++ [x]) = l.
Proof. apply removelast_last. Qed.

(** The download name keeps the extension of the upload: for a PNG whose
    pixels are all opaque the blob is JPEG while the name, for the
    archive and for the single download, still ends in the extension of
    the source. *)
Theorem opaque_png_download_name (sf : Surfaces) (it : ImageFile)
    (img : HTMLImageElement) (q : Q) (u : URL) (base ext : string) :
  bitmap (file it) = Some img →
  ctx sf = true → tempCtx sf = true → blob_ok sf = true →
  JS.toLowerCase (type (file it)) = "image/png" →
  (∀ k a, data img !! (4 * k + 3)%nat = Some a → a = 255) →
  name (file it) = base +:+ "." +:+ ext →
  (∀ c, In c (list_ascii_of_string ext) → c ≠ "."%char) →
  compressedUrl it = Some u →
  (∃ blob, compressImage sf (file it) q = resolve blob ∧
           b_type blob = "image/jpeg") ∧
  entryName it = base +:+ "_compressed." +:+ ext ∧
  handleDownload it = Some (base +:+ "_compressed." +:+ ext).
Proof.
  intros Hf Hctx Htmp Hblob Ht Hop Hname Hext Hu.
  assert (He : entryName it = base +:+ "_compressed." +:+ ext).
  { unfold entryName. rewrite Hname.
    change (base +:+ "." +:+ ext) with (base +:+ String "." ext).
    rewrite NameFacts.split_app, (NameFacts.split_plain _ ext Hext).
    rewrite removelast_snoc, last_last.
    change "."%string with (String "." EmptyString).
    by rewrite NameFacts.join_split. }
  split; [|split; [done|]].
  - rewrite (CompressFacts.compressImage_png_opaque _ _ img) by
      (done || by apply CompressFacts.hasTransparency_opaque).
    by eexists.
  - unfold handleDownload. by rewrite Hu, He.
Qed.

Lemma opaque_png_download_name_witness :
  (∃ blob, compressImage surfaces_ok Samples.scan (7 # 10) = resolve blob ∧
           b_type blob = "image/jpeg") ∧
  entryName {| file := Samples.scan; id := "1"; status := completed;
               compressedUrl := Some 0%nat; error_msg := None;
               originalSize := Some 4; compressedSize := Some 3 |}
  = "scan.v2_compressed.png".
Proof.
  destruct (opaque_png_download_name surfaces_ok
              {| file := Samples.scan; id := "1"; status := completed;
                 compressedUrl := Some 0%nat; error_msg := None;
                 originalSize := Some 4; compressedSize := Some 3 |}
              {| width := 1; height := 1; data := [10; 20; 30; 255] |}
              (7 # 10) 0%nat "scan.v2" "png")
    as (Hb & He & _); try reflexivity.
  - intros k a Hk. destruct k as [|k]; [cbn in Hk; congruence|].
    rewrite lookup_ge_None_2 in Hk; [done | cbn; lia].
  - intros c Hc. cbn in Hc.
    repeat (destruct Hc as [Hc|Hc]; [by rewrite <- Hc|]). done.
  - split; [exact Hb | exact He].
Defined.

End CompressPageFacts.

Module CompressTotals.
Import DOM Compress CompressPage.

Lemma fold_sum_shift (g : ImageFile → Z) (l : list ImageFile) (a : Z) :
  fold_left (λ sum img, sum + g img) l a
  = a + fold_left (λ sum img, sum + g img) l 0.
Proof.
  revert a. induction l as [|x l IH]; intros a; cbn [fold_left]; [lia|].
  rewrite (IH (a + g x)), (IH (0 + g x)). lia.
Qed.

Lemma fold_sum_app (g : ImageFile → Z) (l m : list ImageFile) :
  fold_left (λ sum img, sum + g img) (l ++ m) 0
  = fold_left (λ sum img, sum + g img) l 0
    + fold_left (λ sum img, sum + g img) m 0.
Proof. by rewrite fold_left_app, fold_sum_shift. Qed.

Lemma fold_sum_le (g h : ImageFile → Z) (l : list ImageFile) :
  (∀ x, x ∈ l → g x ≤ h x) →
  fold_left (λ sum img, sum + g img) l 0
  ≤ fold_left (λ sum img, sum + h img) l 0.
Proof.
  induction l as [|x l IH]; intros Hl; cbn [fold_left]; [lia|].
  rewrite (fold_sum_shift g), (fold_sum_shift h).
  assert (g x ≤ h x) by (apply Hl; by left).
  assert (fold_left (λ sum img, sum + g img) l 0
          ≤ fold_left (λ sum img, sum + h img) l 0)
    by (apply IH; intros y Hy; apply Hl; by right).
  lia.
Qed.

Lemma fold_sum_nonneg (g : ImageFile → Z) (l : list ImageFile) :
  (∀ x, x ∈ l → 0 ≤ g x) →
  0 ≤ fold_left (λ sum img, sum + g img) l 0.
Proof.
  intros Hl.
  assert (H := fold_sum_le (λ _, 0) g l Hl).
  assert (H0 : fold_left (λ sum (_ : ImageFile), sum + 0) l 0 = 0).
  { clear. induction l as [|x l IH]; [done|]. cbn [fold_left].
    by rewrite Z.add_0_r. }
  cbn beta in H. rewrite H0 in H. exact H.
Qed.

Lemma ratio_range (a b : Z) :
  0 ≤ a → a ≤ b → 0 < b →
  (0 <= (1 - inject_Z a / inject_Z b) * 100 <= 100)%Q.
Proof.
  intros Ha Hab Hb.
  assert (Hb' : (0 < inject_Z b)%Q) by (by apply JSFacts.inject_Z_pos).
  assert (Hq0 : (0 <= inject_Z a / inject_Z b)%Q).
  { apply Qle_shift_div_l; [done|]. rewrite Qmult_0_l.
    change 0%Q with (inject_Z 0). by rewrite <- Zle_Qle. }
  assert (Hq1 : (inject_Z a / inject_Z b <= 1)%Q).
  { apply Qle_shift_div_r; [done|]. rewrite Qmult_1_l.
    by rewrite <- Zle_Qle. }
  split; lra.
Qed.

(** The reduction shown above the list is a percentage between 0 and 100
    as long as no item is recorded with a compressed size above its
    original size; with no bytes selected it is 0. *)
Theorem compressionRatio_range (st : State) :
  (∀ it, it ∈ imageFiles st →
     0 ≤ JS.or_else (compressedSize it) 0
       ≤ JS.or_else (originalSize it) 0) →
  (0 <= compressionRatio st <= 100)%Q ∧
  (totalOriginalSize st ≤ 0 → compressionRatio st = 0%Q).
Proof.
  intros Hit. unfold compressionRatio.
  destruct (Z.ltb_spec 0 (totalOriginalSize st)) as [Hpos|Hle].
  - split; [|lia]. apply ratio_range; [| |done].
    + apply fold_sum_nonneg. intros x Hx. by apply Hit.
    + apply fold_sum_le. intros x Hx. by apply Hit.
  - split; [split; lra|done].
Qed.

Lemma compressionRatio_range_witness :
  let st' := handleCompressAll surfaces_ok (Samples.flat_size 3) (7 # 10)
               Samples.compress_picked in
  (0 <= compressionRatio st' <= 100)%Q.
Proof.
  intros st'. apply (compressionRatio_range st').
  intros it Hit. vm_compute in Hit.
  apply elem_of_cons in Hit as [->|Hit];
    [vm_compute; split; discriminate|].
  apply elem_of_cons in Hit as [->|Hit];
    [vm_compute; split; discriminate|].
  by apply elem_of_nil in Hit.
Defined.

Lemma selected_sizes (fresh : nat → string) (l : list File) (n : nat) :
  (∀ f, f ∈ l → 0 ≤ size f) →
  ∀ it, it ∈ imap (λ k f, {| file := f; id := fresh (n + k)%nat;
                             status := pending;
                             compressedUrl := None; error_msg := None;
                             originalSize := Some (size f);
                             compressedSize := None |}) l →
  JS.or_else (compressedSize it) 0 = 0 ∧
  0 ≤ JS.or_else (originalSize it) 0.
Proof.
  intros Hl it Hit. apply list_elem_of_lookup in Hit as [k Hk].
  rewrite list_lookup_imap in Hk.
  destruct (l !! k) as [f|] eqn:Ef; [|done]. cbn in Hk.
  injection Hk as <-. cbn. split; [done|].
  assert (0 ≤ size f) by (apply Hl; apply list_elem_of_lookup; eauto).
  destruct (Z.eqb_spec (size f) 0); lia.
Qed.

(** Files that were only selected count with their full size in the
    original total and with nothing in the compressed total: selecting
    more files never lowers the reduction shown for what was compressed
    so far. *)
Theorem selecting_raises_compressionRatio (fresh : nat → string)
    (files : list File) (st : State) :
  (∀ f, f ∈ files → 0 ≤ size f) →
  0 ≤ totalCompressedSize st →
  0 < totalOriginalSize st →
  let st' := handleImageSelect fresh files st in
  totalCompressedSize st' = totalCompressedSize st ∧
  totalOriginalSize st ≤ totalOriginalSize st' ∧
  (compressionRatio st <= compressionRatio st')%Q.
Proof.
  intros Hsz Hc Ho st'.
  assert (Hc' : totalCompressedSize st' = totalCompressedSize st ∧
                totalOriginalSize st ≤ totalOriginalSize st').
  { subst st'. unfold handleImageSelect.
    destruct (length (List.filter is_image files) =? 0)%nat; [lia|].
    unfold totalCompressedSize, totalOriginalSize. cbn [imageFiles].
    rewrite !fold_sum_app.
    assert (Hnew := selected_sizes fresh (List.filter is_image files) 0).
    cbn [Nat.add] in Hnew.
    assert (Hf : ∀ f, f ∈ List.filter is_image files → 0 ≤ size f).
    { intros f Hf. apply Hsz. apply list_elem_of_In in Hf.
      apply filter_In in Hf as [Hf _]. by apply list_elem_of_In. }
    specialize (Hnew Hf).
    assert (H1 := fold_sum_nonneg
                    (λ img, JS.or_else (originalSize img) 0) _
                    (λ x Hx, proj2 (Hnew x Hx))).
    assert (H2 := fold_sum_le
                    (λ img, JS.or_else (compressedSize img) 0) (λ _, 0) _
                    (λ x Hx, Z.eq_le_incl _ _ (proj1 (Hnew x Hx)))).
    assert (H3 := fold_sum_nonneg
                    (λ img, JS.or_else (compressedSize img) 0) _
                    (λ x Hx, Z.eq_le_incl _ _
                               (eq_sym (proj1 (Hnew x Hx))))).
    assert (H0 : ∀ l : list ImageFile,
               fold_left (λ sum (_ : ImageFile), sum + 0) l 0 = 0).
    { clear. induction l as [|x l IH]; [done|]. cbn [fold_left].
      by rewrite Z.add_0_r. }
    cbn beta in H1, H2, H3. rewrite H0 in H2. lia. }
  destruct Hc' as [Hc' Ho']. split; [done|]. split; [done|].
  unfold compressionRatio. rewrite Hc'.
  destruct (Z.ltb_spec 0 (totalOriginalSize st)) as [_|]; [|lia].
  destruct (Z.ltb_spec 0 (totalOriginalSize st')) as [_|]; [|lia].
  assert (Hb : (0 < inject_Z (totalOriginalSize st))%Q)
    by (by apply JSFacts.inject_Z_pos).
  assert (Hb' : (inject_Z (totalOriginalSize st)
                 <= inject_Z (totalOriginalSize st'))%Q)
    by (by rewrite <- Zle_Qle).
  assert (Ha : (0 <= inject_Z (totalCompressedSize st))%Q).
  { change 0%Q with (inject_Z 0). by rewrite <- Zle_Qle. }
  generalize dependent (inject_Z (totalOriginalSize st')).
  generalize dependent (inject_Z (totalOriginalSize st)).
  generalize dependent (inject_Z (totalCompressedSize st)).
  intros a Ha b Hb b' Hb'.
  assert (Hq : (a / b' <= a / b)%Q).
  { apply Qle_shift_div_r; [lra|].
    assert (Hx : (0 <= a / b)%Q).
    { apply Qle_shift_div_l; [done|]. lra. }
    assert (Hy : (a / b * b == a)%Q) by (field; lra).
    nra. }
  lra.
Qed.

Lemma selecting_raises_compressionRatio_witness :
  let st := handleCompressAll surfaces_ok (Samples.flat_size 3) (7 # 10)
              Samples.compress_picked in
  (compressionRatio st
   <= compressionRatio (handleImageSelect Samples.ids [Samples.scan] st))%Q.
Proof.
  intros st.
  apply (selecting_raises_compressionRatio Samples.ids [Samples.scan] st).
  - intros f Hf. apply list_elem_of_singleton in Hf as ->.
    vm_compute. discriminate.
  - vm_compute. discriminate.
  - vm_compute. reflexivity.
Defined.

End CompressTotals.

(** ** Collage page: geometry and counts *)

Module CollageGeometry.
Import DOM Collage CollagePage JS JSFacts NumberFacts.




Lemma elem_of_for_range (n i : Z) : i ∈ for_range n → 0 ≤ i < n.
Proof.
  unfold for_range. intros Hi. apply list_elem_of_In in Hi.
  apply in_map_iff in Hi as (k & <- & Hk). apply in_seq in Hk. lia.
Qed.

(** The canvas of a cell is 800 by 1422: the height of a cell, 12800/9,
    loses its fraction. *)
Lemma cell_size (has_ctx : bool) (img : HTMLImageElement) :
  c_width (cropAndResizeImage has_ctx img cellWidth cellHeight) = 800 ∧
  c_height (cropAndResizeImage has_ctx img cellWidth cellHeight) = 1422.
Proof.
  unfold cropAndResizeImage. destruct has_ctx; cbn [negb]; [|done].
  by destruct (negb (Qle_bool _ _)).
Qed.

Lemma cellHeight_pos : (0 < cellHeight)%Q.
Proof. reflexivity. Qed.

Lemma cellWidth_pos : (0 < cellWidth)%Q.
Proof. reflexivity. Qed.

Lemma grid_bound (i n : Z) (side : Q) :
  0 ≤ i < n → (0 < side)%Q →
  (0 <= inject_Z i * side ∧ inject_Z i * side + side <= side * inject_Z n)%Q.
Proof.
  intros Hi Hs.
  assert (H0 : (0 <= inject_Z i)%Q).
  { change 0%Q with (inject_Z 0). rewrite <- Zle_Qle. lia. }
  assert (H1 : (inject_Z i + 1 <= inject_Z n)%Q).
  { change 1%Q with (inject_Z 1). rewrite <- inject_Z_plus, <- Zle_Qle.
    lia. }
  split; [by apply Qmult_le_0_compat; [|lra]|].
  assert (E : (inject_Z i * side + side == side * (inject_Z i + 1))%Q)
    by ring.
  rewrite E. apply Qmult_le_l; done.
Qed.

(** The collage canvas is [800 * columns] wide. *)
Lemma collage_width (columns : Z) :
  0 ≤ columns → 800 * columns ≤ 2 ^ 31 - 1 →
  canvas_side default_width (cellWidth * inject_Z columns)
  = 800 * columns.
Proof.
  intros H0 H1.
  assert (E : (cellWidth * inject_Z columns
               == inject_Z (800 * columns))%Q).
  { rewrite inject_Z_mult. reflexivity. }
  unfold canvas_side, truncate.
  assert (Ep : Qle_bool 0 (cellWidth * inject_Z columns) = true).
  { apply Qle_bool_iff. rewrite E. change 0%Q with (inject_Z 0).
    rewrite <- Zle_Qle. lia. }
  rewrite Ep, (Qfloor_comp _ _ E), Qfloor_Z, Z.mod_small by lia.
  destruct (Z.leb_spec (800 * columns) (2 ^ 31 - 1)); [done|lia].
Qed.

(** The collage canvas is as high as the whole part of
    [12800/9 * rows]. *)
Lemma collage_height (rows : Z) :
  0 ≤ rows → 12800 * rows < 9 * 2 ^ 31 →
  canvas_side default_height (cellHeight * inject_Z rows)
  = 12800 * rows / 9.
Proof.
  intros H0 H1.
  assert (E : (cellHeight * inject_Z rows == 12800 * rows # 9)%Q).
  { unfold cellHeight, cellWidth, cellAspectRatio.
    rewrite (Qmake_Qdiv (12800 * rows) 9), inject_Z_mult.
    change (inject_Z (Z.pos 9)) with 9%Q.
    change (inject_Z 12800) with 12800%Q. field. }
  assert (H2 : (0 <= inject_Z rows)%Q).
  { change 0%Q with (inject_Z 0). rewrite <- Zle_Qle. lia. }
  pose proof cellHeight_pos as Hc.
  rewrite canvas_side_floor.
  - by rewrite (Qfloor_comp _ _ E).
  - by apply Qmult_le_0_compat; [apply Qlt_le_weak|].
  - rewrite E. unfold Qlt. cbn [Qnum Qden]. lia.
Qed.

(** Every cell drawn on a collage is a canvas of 800 by 1422 whose top
    left corner is that of a grid cell; it lies inside the collage
    canvas from left to right; from top to bottom it begins inside it,
    and ends at most 7/9 of a pixel below its last line, since the
    height of the rows, 12800/9, and the height of the canvas lose their
    fractions one by one.  This holds for any grid up to the largest
    canvas and whatever the browser grants. *)
Theorem generateCollage_cells_inside (br : Browser)
    (imageFiles : list ImageFile) (columns rows : Z)
    (g : GeneratedCollage) (cell : CellCanvas) (x y : Q) :
  800 * columns ≤ 2 ^ 31 - 1 → 12800 * rows < 9 * 2 ^ 31 →
  g ∈ produced (generateCollage br imageFiles columns rows) →
  (cell, x, y) ∈ g_drawn (blob g) →
  c_width cell = 800 ∧ c_height cell = 1422 ∧
  g_width (blob g) = 800 * columns ∧
  g_height (blob g) = 12800 * rows / 9 ∧
  (∃ row col, 0 ≤ row < rows ∧ 0 ≤ col < columns ∧
     x = (inject_Z col * cellWidth)%Q ∧
     y = (inject_Z row * cellHeight)%Q) ∧
  (0 <= x ∧ x + inject_Z (c_width cell) <= inject_Z (g_width (blob g)) ∧
   0 <= y ∧ y < inject_Z (g_height (blob g)) ∧
   y + inject_Z (c_height cell)
   <= inject_Z (g_height (blob g)) + (7 # 9))%Q.
Proof.
  intros Hcols Hrows Hg Hc. unfold generateCollage in Hg.
  destruct (Z.of_nat (length imageFiles) =? 0);
    [by apply elem_of_nil in Hg|].
  destruct (Z.of_nat (length (filter _ imageFiles)) =? 0);
    [by apply elem_of_nil in Hg|].
  cbn [produced] in Hg. apply list_elem_of_In in Hg.
  apply in_flat_map in Hg as (k & _ & Hg). unfold composeOne in Hg.
  destruct (getContext2d br) eqn:Hctx; cbn [negb] in Hg; [|done].
  destruct (toBlob_ok br); [|done].
  destruct Hg as [<-|[]]. cbn [blob g_drawn g_width g_height] in *.
  apply list_elem_of_In in Hc.
  apply in_flat_map in Hc as (row & Hrow & Hc).
  apply in_flat_map in Hc as (col & Hcol & Hc).
  apply list_elem_of_In, elem_of_for_range in Hrow.
  apply list_elem_of_In, elem_of_for_range in Hcol.
  unfold drawCell in Hc.
  destruct (array_get _ _) as [f|]; [|done].
  destruct (image f) as [img|]; [|done].
  destruct Hc as [Hc|[]]. injection Hc as <- <- <-.
  destruct (cell_size (getContext2d br) img) as [-> ->].
  rewrite collage_width, collage_height by lia.
  split; [done|]. split; [done|]. split; [done|]. split; [done|].
  split; [by exists row, col|].
  destruct (grid_bound col columns cellWidth Hcol cellWidth_pos)
    as [Hx0 Hx1].
  destruct (grid_bound row rows cellHeight Hrow cellHeight_pos)
    as [Hy0 Hy1].
  assert (Ew : (cellWidth * inject_Z columns
                == inject_Z (800 * columns))%Q).
  { rewrite inject_Z_mult. reflexivity. }
  assert (Eh : (cellHeight * inject_Z rows == 12800 * rows # 9)%Q).
  { unfold cellHeight, cellWidth, cellAspectRatio.
    rewrite (Qmake_Qdiv (12800 * rows) 9), inject_Z_mult.
    change (inject_Z (Z.pos 9)) with 9%Q.
    change (inject_Z 12800) with 12800%Q. field. }
  assert (Erow : (inject_Z row * cellHeight == 12800 * row # 9)%Q).
  { unfold cellHeight, cellWidth, cellAspectRatio.
    rewrite (Qmake_Qdiv (12800 * row) 9), inject_Z_mult.
    change (inject_Z (Z.pos 9)) with 9%Q.
    change (inject_Z 12800) with 12800%Q. field. }
  pose proof (Z.div_mod (12800 * rows) 9 ltac:(lia)) as Hdm.
  pose proof (Z.mod_pos_bound (12800 * rows) 9 ltac:(lia)) as Hmb.
  split; [done|].
  split; [rewrite <- Ew; change (inject_Z 800) with cellWidth; exact Hx1|].
  split; [done|]. rewrite Erow. split.
  - unfold Qlt. cbn [Qnum Qden inject_Z]. lia.
  - unfold Qle, Qplus. cbn [Qnum Qden inject_Z]. lia.
Qed.

(** On a grid of 3 by 3 the canvas is 2400 by 4266, and a cell of the
    last row, drawn from [y = 25600/9] with its 1422 lines, ends below
    the canvas. *)
Lemma generateCollage_cells_inside_witness :
  ∃ g cell x y,
    produced (generateCollage browser_ok (ten_uploads ++ ten_uploads) 3 3)
      !! 0%nat = Some g ∧
    g_drawn (blob g) !! 8%nat = Some (cell, x, y) ∧
    g_width (blob g) = 2400 ∧ g_height (blob g) = 4266 ∧
    (y == 25600 # 9)%Q ∧
    (inject_Z (g_height (blob g)) < y + inject_Z (c_height cell))%Q ∧
    (y + inject_Z (c_height cell)
     <= inject_Z (g_height (blob g)) + (7 # 9))%Q.
Proof.
  eexists _, _, _, _. split; [reflexivity|]. split; [reflexivity|].
  edestruct (generateCollage_cells_inside browser_ok
               (ten_uploads ++ ten_uploads) 3 3)
    as (_ & _ & Hgw & Hgh & _ & _ & _ & _ & _ & Hend).
  - lia.
  - lia.
  - apply (list_elem_of_lookup_2 _ 0%nat). reflexivity.
  - apply (list_elem_of_lookup_2 _ 8%nat). reflexivity.
  - split; [exact Hgw|]. split; [exact Hgh|].
    split; [reflexivity|]. split; [reflexivity|]. exact Hend.
Defined.

Lemma produced_blob (br : Browser) (imageFiles : list ImageFile)
    (columns rows : Z) (g : GeneratedCollage) :
  g ∈ produced (generateCollage br imageFiles columns rows) →
  ∃ k, 0 ≤ k ∧ getContext2d br = true ∧
    g_drawn (blob g)
    = flat_map (λ row,
        flat_map (λ col,
          drawCell br (filter (λ f, is_Some (image f)) imageFiles)
            columns (k * (columns * rows)) row col)
          (for_range columns))
        (for_range rows).
Proof.
  intros Hg. unfold generateCollage in Hg.
  destruct (Z.of_nat (length imageFiles) =? 0);
    [by apply elem_of_nil in Hg|].
  destruct (Z.of_nat (length (filter _ imageFiles)) =? 0);
    [by apply elem_of_nil in Hg|].
  cbn [produced] in Hg. apply list_elem_of_In in Hg.
  apply in_flat_map in Hg as (k & Hk & Hg).
  apply list_elem_of_In, elem_of_for_range in Hk.
  unfold composeOne in Hg.
  destruct (getContext2d br) eqn:Hctx; cbn [negb] in Hg; [|done].
  destruct (toBlob_ok br); [|done].
  destruct Hg as [<-|[]]. exists k. split; [lia|]. by split.
Qed.

Lemma grid_position (c i j : nat) :
  (0 < c)%nat →
  (inject_Z (Z.of_nat (i mod c)) * cellWidth
   == inject_Z (Z.of_nat (j mod c)) * cellWidth)%Q →
  (inject_Z (Z.of_nat (i / c)) * cellHeight
   == inject_Z (Z.of_nat (j / c)) * cellHeight)%Q →
  i = j.
Proof.
  intros Hc Hx Hy.
  apply Qmult_inj_r in Hx; [|done]. apply Qmult_inj_r in Hy; [|done].
  apply inject_Z_injective, Nat2Z.inj in Hx.
  apply inject_Z_injective, Nat2Z.inj in Hy.
  rewrite (Nat.div_mod_eq i c), (Nat.div_mod_eq j c). by rewrite Hx, Hy.
Qed.

Lemma for_range_empty (n : Z) : n ≤ 0 → for_range n = [].
Proof.
  intros Hn. unfold for_range.
  by replace (Z.to_nat n) with 0%nat by lia.
Qed.

Lemma flat_map_nil {A B} (l : list A) :
  flat_map (λ _ : A, @nil B) l = [].
Proof. induction l as [|x l IH]; [done|]. exact IH. Qed.

(** No two images of a collage are drawn at the same position: each
    drawn cell has a grid cell of its own. *)
Theorem generateCollage_cells_distinct (br : Browser)
    (imageFiles : list ImageFile) (columns rows : Z)
    (g : GeneratedCollage) (i j : nat)
    (ci cj : CellCanvas) (xi yi xj yj : Q) :
  g ∈ produced (generateCollage br imageFiles columns rows) →
  g_drawn (blob g) !! i = Some (ci, xi, yi) →
  g_drawn (blob g) !! j = Some (cj, xj, yj) →
  (xi == xj)%Q → (yi == yj)%Q →
  i = j.
Proof.
  intros Hg Hi Hj Hx Hy.
  apply produced_blob in Hg as (k & Hk & Hctx & Hd).
  rewrite Hd in Hi, Hj. clear Hd.
  destruct (Z_lt_le_dec 0 columns) as [Hc|Hc]; cycle 1.
  { exfalso. rewrite (for_range_empty columns Hc) in Hi.
    cbn [flat_map] in Hi.
    by rewrite flat_map_nil, lookup_nil in Hi. }
  destruct (Z_lt_le_dec 0 rows) as [Hr|Hr]; cycle 1.
  { exfalso. rewrite (for_range_empty rows Hr) in Hi.
    cbn [flat_map] in Hi. by rewrite lookup_nil in Hi. }
  pose proof (CollageFacts.drawn_group br imageFiles (Z.to_nat columns)
                (Z.to_nat rows) (Z.to_nat (k * (columns * rows))) Hctx)
    as Hgroup.
  rewrite !Z2Nat.id in Hgroup by nia.
  rewrite Hgroup in Hi, Hj by lia.
  rewrite list_lookup_imap in Hi, Hj.
  destruct (take _ _ !! i) as [a|]; [|done].
  destruct (take _ _ !! j) as [b|]; [|done].
  cbn in Hi, Hj. unfold placed in Hi, Hj.
  injection Hi as _ <- <-. injection Hj as _ <- <-.
  apply (grid_position (Z.to_nat columns)); [lia|done|done].
Qed.

Lemma generateCollage_cells_distinct_witness :
  ∃ g ci xi yi cj xj yj,
    produced (generateCollage browser_ok ten_uploads 3 3) !! 0%nat = Some g ∧
    g_drawn (blob g) !! 2%nat = Some (ci, xi, yi) ∧
    g_drawn (blob g) !! 5%nat = Some (cj, xj, yj) ∧
    ¬ ((xi == xj)%Q ∧ (yi == yj)%Q).
Proof.
  eexists _, _, _, _, _, _, _.
  split; [reflexivity|]. split; [reflexivity|]. split; [reflexivity|].
  intros [Hx Hy].
  assert (E : 2%nat = 5%nat); [|discriminate].
  eapply (generateCollage_cells_distinct browser_ok ten_uploads 3 3).
  - apply (list_elem_of_lookup_2 _ 0%nat). reflexivity.
  - reflexivity.
  - reflexivity.
  - exact Hx.
  - exact Hy.
Defined.

Lemma length_flat_map_le {A B} (f : A → list B) (l : list A) :
  (∀ x, length (f x) ≤ 1)%nat → (length (flat_map f l) ≤ length l)%nat.
Proof.
  intros Hf. induction l as [|x l IH]; [done|].
  cbn [flat_map]. rewrite length_app. cbn [length].
  specialize (Hf x). lia.
Qed.

Lemma length_for_range (n : Z) : length (for_range n) = Z.to_nat n.
Proof. unfold for_range. by rewrite length_map, length_seq. Qed.

Lemma ceil_nonneg (n d : Z) : 0 ≤ n → 0 < d → 0 ≤ (n + d - 1) / d.
Proof. intros Hn Hd. apply Z.div_pos; lia. Qed.

(** The number of collages announced under the grid controls counts every
    uploaded item, the items whose image did not load included, so it is
    an upper bound on the number of collages produced; the two agree when
    every image loaded and the browser grants its canvases. *)
Theorem announced_bounds_produced (br : Browser)
    (imageFiles : list ImageFile) (columns rows : Z) :
  0 < columns → 0 < rows →
  let out := produced (generateCollage br imageFiles columns rows) in
  Z.of_nat (length out) ≤ announced imageFiles columns rows ∧
  (getContext2d br = true → toBlob_ok br = true →
   Forall (λ f, is_Some (image f)) imageFiles →
   Z.of_nat (length out) = announced imageFiles columns rows).
Proof.
  intros Hc Hr out.
  assert (Hslots : 0 < columns * rows) by lia.
  unfold announced. rewrite Math_ceil_div by done.
  assert (H0 := ceil_nonneg (Z.of_nat (length imageFiles)) _
                  (Nat2Z.is_nonneg _) Hslots).
  subst out. unfold generateCollage.
  destruct (Z.eqb_spec (Z.of_nat (length imageFiles)) 0) as [E|E].
  { split; [done|]. intros _ _ _. rewrite E. cbn [produced length].
    symmetry. apply Z.div_small. lia. }
  destruct (Z.eqb_spec
              (Z.of_nat (length (filter (λ img, is_Some (image img))
                                   imageFiles))) 0) as [E'|E'].
  { split; [done|]. intros _ _ Hall. exfalso. apply E.
    rewrite <- E'. do 2 f_equal. symmetry.
    clear -Hall. induction Hall as [|f l Hf Hl IH]; [done|].
    rewrite filter_cons, decide_True by done. by rewrite IH. }
  cbn [produced]. rewrite Math_ceil_div by done.
  assert (Hv : (length (filter (λ img, is_Some (image img)) imageFiles)
                ≤ length imageFiles)%nat) by apply length_filter.
  assert (H1 := ceil_nonneg
                  (Z.of_nat (length (filter (λ img, is_Some (image img))
                                       imageFiles))) _
                  (Nat2Z.is_nonneg _) Hslots).
  split.
  - etrans.
    + apply inj_le. apply length_flat_map_le. intros k.
      unfold composeOne. destruct (negb _); [cbn; lia|].
      destruct (toBlob_ok br); cbn; lia.
    + rewrite length_for_range, Z2Nat.id by done.
      apply Z.div_le_mono; lia.
  - intros Hctx Hblob Hall.
    assert (Hf : filter (λ img, is_Some (image img)) imageFiles
                 = imageFiles).
    { clear -Hall. induction Hall as [|f l Hf Hl IH]; [done|].
      rewrite filter_cons, decide_True by done. by rewrite IH. }
    rewrite Hf.
    erewrite flat_map_ext;
      [|intros k; by apply CollageFacts.composeOne_ok].
    rewrite CollageFacts.flat_map_singleton, length_fmap,
      length_for_range, Z2Nat.id; [done|].
    apply ceil_nonneg; lia.
Qed.

Lemma announced_bounds_produced_witness :
  let files := Samples.unloaded :: ten_uploads in
  let out := produced (generateCollage browser_ok files 5 2) in
  Z.of_nat (length out) ≤ announced files 5 2 ∧
  Z.of_nat (length out) = 1 ∧ announced files 5 2 = 2.
Proof.
  intros files out.
  destruct (announced_bounds_produced browser_ok files 5 2) as [Hle _];
    [lia | lia |].
  split; [exact Hle|]. split; reflexivity.
Defined.

(** Items whose image did not load take no part in the collages: the
    outcome is that of the loaded items alone. *)
Theorem generateCollage_skips_unloaded (br : Browser)
    (imageFiles : list ImageFile) (columns rows : Z) :
  generateCollage br imageFiles columns rows
  = generateCollage br (validImages imageFiles) columns rows.
Proof.
  unfold generateCollage, validImages.
  assert (Hf : filter (λ img, is_Some (image img))
                 (filter (λ img, is_Some (image img)) imageFiles)
               = filter (λ img, is_Some (image img)) imageFiles).
  { induction imageFiles as [|f l IH]; [done|].
    rewrite filter_cons. destruct (decide (is_Some (image f))) as [Hs|Hs].
    - by rewrite filter_cons, decide_True, IH.
    - exact IH. }
  rewrite Hf.
  destruct (Z.eqb_spec (Z.of_nat (length imageFiles)) 0) as [E|E].
  - assert (imageFiles = []) as -> by (apply nil_length_inv; lia). done.
  - destruct (Z.eqb_spec
                (Z.of_nat (length (filter (λ img, is_Some (image img))
                                     imageFiles))) 0) as [E'|E'];
      [done|done].
Qed.

End CollageGeometry.

(** ** Convert endpoint and page *)

Module RouteFacts.
Import Convert ConvertFacts.

Lemma page_format_lower (fmt : string) :
  fmt ∈ ["webp"; "png"; "jpg"] → JS.toLowerCase fmt = fmt.
Proof. intros H. by one_of H. Qed.

Lemma page_format_closed (fmt : string) :
  fmt ∈ ["webp"; "png"; "jpg"] → fmt ∈ closed_set.
Proof.
  intros H. unfold closed_set. one_of H; rewrite !elem_of_cons; tauto.
Qed.

Lemma routes_agree_on_page_formats (sharp : Sharp) (file : Buffer)
    (fmt : string) :
  fmt ∈ ["webp"; "png"; "jpg"] →
  Route.POST sharp (Some {| fd_image := Some file; fd_format := Some fmt |})
  = RouteExt.POST sharp
      (Some {| fd_image := Some file; fd_format := Some fmt |}).
Proof.
  intros H. one_of H; cbn; by destruct (sharp file _).
Qed.

Lemma status_ok_or_not (sharp : Sharp) (file : Buffer) (fmt : string) :
  status (RouteExt.POST sharp
            (Some {| fd_image := Some file; fd_format := Some fmt |}))
  ≠ 400 →
  JS.toLowerCase fmt ∈ closed_set.
Proof.
  intros Hs. cbn [RouteExt.POST fd_image fd_format] in Hs.
  destruct (includes RouteExt.validFormats (JS.toLowerCase fmt)) eqn:E.
  - by apply includes_spec in E.
  - rewrite orb_true_r in Hs. by cbn in Hs.
Qed.

(** The two copies of the endpoint answer a request alike exactly when
    its format is one the three-format copy lists or one the six-format
    copy refuses too; requests without a readable form, an image or a
    format get the same answer from both. *)
Theorem routes_agree (sharp : Sharp) (request : NextRequest) :
  Route.POST sharp request = RouteExt.POST sharp request ↔
  ∀ fd file fmt,
    request = Some fd → fd_image fd = Some file →
    fd_format fd = Some fmt →
    fmt ∈ ["webp"; "png"; "jpg"] ∨ JS.toLowerCase fmt ∉ closed_set.
Proof.
  destruct request as [[[file|] [fmt|]]|];
    try (split; [intros _ fd f' m' [= <-]; cbn; intros; discriminate
                |done]).
  split.
  - intros Heq fd file' fmt' [= <-] [= <-] [= <-].
    destruct (includes ["webp"; "png"; "jpg"] fmt) eqn:E3.
    { left. by apply includes_spec. }
    right. intros Hc.
    assert (Hr : status (Route.POST sharp
                   (Some {| fd_image := Some file;
                            fd_format := Some fmt |})) = 400).
    { cbn [Route.POST fd_image fd_format]. by rewrite E3, orb_true_r. }
    rewrite Heq in Hr.
    destruct (RouteExt_contract sharp
                (Some {| fd_image := Some file; fd_format := Some fmt |}))
      as [_ Hx].
    destruct (Hx _ eq_refl) as [_ Hy].
    destruct (Hy file eq_refl) as [_ Hz].
    destruct (Hz fmt eq_refl) as [_ Hok]. specialize (Hok Hc).
    cbv zeta in Hok.
    destruct (sharp file (encoder_for (JS.toLowerCase fmt))) as [out|].
    + rewrite Hok in Hr. done.
    + destruct Hok as [Hs _]. rewrite Hs in Hr. done.
  - intros H. destruct (H _ file fmt eq_refl eq_refl eq_refl) as [H3|Hn].
    + by apply routes_agree_on_page_formats.
    + cbn [Route.POST RouteExt.POST fd_image fd_format].
      destruct (includes RouteExt.validFormats (JS.toLowerCase fmt)) eqn:E.
      { apply includes_spec in E. contradiction. }
      destruct (includes ["webp"; "png"; "jpg"] fmt) eqn:E3.
      { apply includes_spec in E3. exfalso. apply Hn.
        rewrite (page_format_lower _ E3). by apply page_format_closed. }
      by rewrite !orb_true_r.
Qed.

End RouteFacts.

Module HomeFacts.
Import Convert ConvertFacts Home.

Lemma format_name_page (f : ImageFormat) :
  format_name f ∈ ["webp"; "png"; "jpg"].
Proof. destruct f; cbn; rewrite !elem_of_cons; tauto. Qed.

Lemma route_answer (sharp : Sharp) (file : Buffer) (f : ImageFormat) :
  Route.POST sharp
    (Some {| fd_image := Some file;
             fd_format := Some (format_name f) |})
  = match sharp file (encoder_for (format_name f)) with
    | Some out => ok out (canonical_mime (format_name f)) (format_name f)
    | None => json "Error al procesar la imagen" 500
    end.
Proof. destruct f; cbn; by destruct (sharp file _). Qed.

(** A conversion from the page, against either copy of the endpoint, is
    never refused as a bad request.  When the encoder goes through, the
    page holds the encoded bytes, shows no error, and the server names
    the file [converted.<format>]; the page names the download after the
    format selected when the download is clicked, so a format chosen
    after the conversion renames bytes that were encoded for the earlier
    one.  When the encoder throws, the page shows the error and keeps
    the result of the earlier conversion. *)
Theorem handleConvert_with_route (sharp : Sharp) (st : State)
    (file : File) (later : ImageFormat) :
  selectedImage st = Some file →
  let fmt := format_name (selectedFormat st) in
  let request := Some {| fd_image := Some (f_bytes file);
                         fd_format := Some fmt |} in
  let st' := handleConvert (Route.POST sharp) st in
  handleConvert (RouteExt.POST sharp) st = st' ∧
  status (Route.POST sharp request) ≠ 400 ∧
  isConverting st' = false ∧
  match sharp (f_bytes file) (encoder_for fmt) with
  | Some out =>
      Route.POST sharp request = ok out (canonical_mime fmt) fmt ∧
      convertedImageUrl st' = Some (bytes out) ∧
      error st' = None ∧
      handleDownload st' = Some ("converted." +:+ fmt) ∧
      convertedImageUrl (setSelectedFormat later st') = Some (bytes out) ∧
      handleDownload (setSelectedFormat later st')
      = Some ("converted." +:+ format_name later)
  | None =>
      convertedImageUrl st' = convertedImageUrl st ∧
      is_Some (error st')
  end.
Proof.
  intros Hsel fmt request st'.
  assert (Hagree : RouteExt.POST sharp request = Route.POST sharp request).
  { symmetry. apply RouteFacts.routes_agree_on_page_formats.
    apply format_name_page. }
  assert (Hans := route_answer sharp (f_bytes file) (selectedFormat st)).
  fold fmt in Hans. fold request in Hans.
  split.
  { subst st'. unfold handleConvert. rewrite Hsel. fold fmt. fold request.
    by rewrite Hagree. }
  subst st'. unfold handleConvert. rewrite Hsel. fold fmt. fold request.
  rewrite Hans.
  destruct (sharp (f_bytes file) (encoder_for fmt)) as [out|]; cbn.
  - repeat split; done.
  - repeat split; done.
Qed.

Lemma handleConvert_with_route_witness :
  let st := run (Route.POST echo) [Pick snapshot; Format png; Convert] in
  convertedImageUrl st = Some (bytes []) ∧
  handleDownload (setSelectedFormat jpg st) = Some "converted.jpg".
Proof.
  intros st.
  destruct (handleConvert_with_route echo
              (run (Route.POST echo) [Pick snapshot; Format png])
              snapshot jpg eq_refl)
    as (_ & _ & _ & H).
  cbn in H. destruct H as (_ & Hu & _ & _ & _ & Hd).
  split; [exact Hu | exact Hd].
Defined.

Lemma apply_keeps (server : NextRequest → NextResponse) (st : State)
    (op : Op) :
  (∀ request, response_ok (server request) = true →
     ∃ out, body (server request) = bytes out) →
  (isConverting st = false ∧
   ∀ b, convertedImageUrl st = Some b →
     (∃ out, b = bytes out) ∧ is_Some (selectedImage st)) →
  isConverting (apply server st op) = false ∧
  ∀ b, convertedImageUrl (apply server st op) = Some b →
    (∃ out, b = bytes out) ∧ is_Some (selectedImage (apply server st op)).
Proof.
  intros Hserver [Hc Hu]. destruct op as [file|format| |]; cbn [apply].
  - unfold handleImageSelect. destruct (negb _); cbn; [by split|].
    split; [done|]. intros b Hb. discriminate.
  - by split.
  - unfold handleConvert. destruct (selectedImage st) as [file|] eqn:Hs.
    + destruct (response_ok _) eqn:Hok; cbn.
      * split; [done|]. intros b [= <-]. split; [|done].
        by apply Hserver.
      * split; [done|]. intros b Hb. split; [|done]. by apply Hu.
    + split; [done|]. intros b Hb. rewrite Hs. by apply Hu.
  - cbn. split; [done|]. intros b Hb. discriminate.
Qed.

Lemma run_keeps (server : NextRequest → NextResponse) (ops : list Op) :
  (∀ request, response_ok (server request) = true →
     ∃ out, body (server request) = bytes out) →
  isConverting (run server ops) = false ∧
  ∀ b, convertedImageUrl (run server ops) = Some b →
    (∃ out, b = bytes out) ∧ is_Some (selectedImage (run server ops)).
Proof.
  intros Hserver. unfold run.
  induction ops as [|op ops IH] using rev_ind.
  - cbn. split; [done|]. intros b Hb. discriminate.
  - rewrite fold_left_app. cbn [fold_left]. by apply apply_keeps.
Qed.

Lemma route_ok_bytes (sharp : Sharp) (request : NextRequest) :
  (response_ok (Route.POST sharp request) = true →
   ∃ out, body (Route.POST sharp request) = bytes out) ∧
  (response_ok (RouteExt.POST sharp request) = true →
   ∃ out, body (RouteExt.POST sharp request) = bytes out).
Proof.
  split.
  - destruct request as [[[file|] [fmt|]]|]; try done. cbn.
    destruct (_ || _); [done|].
    destruct (if String.eqb fmt "webp" then _ else _); [|done].
    intros _. by eexists.
  - destruct request as [[[file|] [fmt|]]|]; try done. cbn.
    destruct (_ || _); [done|].
    destruct (if String.eqb (JS.toLowerCase fmt) "webp" then _ else _);
      [|done].
    intros _. by eexists.
Qed.

(** Whatever the user does on the convert page, each action handled to
    its end before the next, against either copy of the endpoint: a
    result is only offered while an image is selected,
    what is offered is always encoded image bytes, never the body of an
    error answer, and no conversion is left marked as running. *)
Theorem home_result_invariant (sharp : Sharp) (ops : list Op) :
  (let st := run (Route.POST sharp) ops in
   isConverting st = false ∧
   ∀ b, convertedImageUrl st = Some b →
     (∃ out, b = bytes out) ∧ is_Some (selectedImage st)) ∧
  (let st := run (RouteExt.POST sharp) ops in
   isConverting st = false ∧
   ∀ b, convertedImageUrl st = Some b →
     (∃ out, b = bytes out) ∧ is_Some (selectedImage st)).
Proof.
  split; apply run_keeps; intros request; by apply route_ok_bytes.
Qed.

End HomeFacts.

(** ** The pages under any interleaving *)

Module InterleavingFacts.
Import DOM EventLoop Interleaving.

Section Invariants.
Context {Item State F : Type}.
Variable items : State → list Item.
Variable is_pending : Item → bool.
Variable begin_item : Item → State → State.
Variable settle_item : Item → State → State.
Variable batch_enabled : State → bool.
Variable batch_enter : State → State.
Variable batch_leave : State → State.
Variable ident : Item → string.
Variable fixed : Item → F.
Variable busy : Item → bool.

Hypothesis begin_spec : ∀ it st,
  Forall2 (λ x x', kept is_pending ident fixed x x' ∧
             (busy x' = true → ident x = ident it ∨ busy x = true))
    (items st) (items (begin_item it st)).
Hypothesis settle_spec : ∀ it st,
  Forall2 (λ x x', kept is_pending ident fixed x x' ∧
             (busy x' = true → ident x ≠ ident it ∧ busy x = true))
    (items st) (items (settle_item it st)).
Hypothesis enter_spec : ∀ st, items (batch_enter st) = items st.
Hypothesis leave_spec : ∀ st, items (batch_leave st) = items st.

Lemma history_invariant (P : @Loop Item State → Prop) :
  (∀ l e, P l →
     P (step items is_pending begin_item settle_item batch_enabled
          batch_enter batch_leave l e)) →
  ∀ es l0, P l0 →
  ∀ l, l ∈ history items is_pending begin_item settle_item
             batch_enabled batch_enter batch_leave l0 es →
  P l.
Proof using Type.
  intros Hstep es. induction es as [|e es IH]; intros l0 H0 l Hl.
  - by apply elem_of_nil in Hl.
  - cbn [history] in Hl.
    apply elem_of_cons in Hl as [->|Hl].
    + by apply Hstep.
    + apply (IH _ (Hstep _ e H0)). done.
Qed.

Lemma kept_refl (l : list Item) :
  Forall2 (kept is_pending ident fixed) l l.
Proof using Type.
  apply Forall_Forall2_diag, Forall_forall. by intros x _.
Qed.

Lemma kept_trans (a b c : list Item) :
  Forall2 (kept is_pending ident fixed) a b →
  Forall2 (kept is_pending ident fixed) b c →
  Forall2 (kept is_pending ident fixed) a c.
Proof using Type.
  apply Forall2_trans.
  intros x y z (H1 & H2 & H3) (H4 & H5 & H6).
  split; [congruence|]. split; [congruence|]. auto.
Qed.

Lemma begin_kept (it : Item) (st : State) :
  Forall2 (kept is_pending ident fixed)
    (items st) (items (begin_item it st)).
Proof using begin_spec.
  eapply Forall2_impl; [apply begin_spec|]. by intros x y [H _].
Qed.

Lemma settle_kept (it : Item) (st : State) :
  Forall2 (kept is_pending ident fixed)
    (items st) (items (settle_item it st)).
Proof using settle_spec.
  eapply Forall2_impl; [apply settle_spec|]. by intros x y [H _].
Qed.

Lemma step_kept (l0 l : @Loop Item State) (e : Event) :
  Forall2 (kept is_pending ident fixed)
    (items (page l0)) (items (page l)) →
  Forall2 (kept is_pending ident fixed)
    (items (page l0))
    (items (page (step items is_pending begin_item settle_item
                    batch_enabled batch_enter batch_leave l e))).
Proof using begin_spec settle_spec enter_spec leave_spec.
  intros H0. eapply kept_trans; [exact H0|]. clear H0.
  destruct e as [i| |t]; cbn [step].
  - destruct (items (page l) !! i) as [it|]; [|apply kept_refl].
    destruct (is_pending it); [|apply kept_refl].
    cbn [page]. apply begin_kept.
  - destruct (batch_enabled (page l)); [|apply kept_refl].
    destruct (List.filter is_pending (items (page l))) as [|it rest];
      [apply kept_refl|].
    cbn [page]. rewrite <- (enter_spec (page l)) at 1. apply begin_kept.
  - destruct (tasks l !! t) as [task|]; [|apply kept_refl].
    destruct (queue task) as [|nxt rest]; cbn [page].
    + destruct (is_batch task); [rewrite leave_spec|]; apply settle_kept.
    + eapply kept_trans; [apply settle_kept|apply begin_kept].
Qed.

Lemma begin_attended (l : @Loop Item State) (it : Item) (st : State)
    (q : list Item) (b : bool) :
  attended items ident busy l → items st = items (page l) →
  attended items ident busy
    {| page := begin_item it st;
       tasks := tasks l ++ [{| current := it; queue := q;
                               is_batch := b |}] |}.
Proof using begin_spec.
  intros Hl Hst x' Hx' Hb. cbn [page tasks] in *.
  apply list_elem_of_lookup in Hx' as [k Hk].
  destruct (Forall2_lookup_r _ _ _ _ _ (begin_spec it st) Hk)
    as (x & Hx & Hkept & Hbusy).
  destruct Hkept as (Hid & _). rewrite Hid.
  destruct (Hbusy Hb) as [E|Hxb].
  - eexists. split; [apply elem_of_app; right; by left|]. by cbn.
  - destruct (Hl x) as (task & Ht & Hc); [|done|].
    { rewrite <- Hst. apply list_elem_of_lookup. eauto. }
    exists task. split; [|done]. apply elem_of_app. by left.
Qed.

Lemma step_attended (l : @Loop Item State) (e : Event) :
  attended items ident busy l →
  attended items ident busy
    (step items is_pending begin_item settle_item batch_enabled
       batch_enter batch_leave l e).
Proof using begin_spec settle_spec enter_spec leave_spec.
  intros Hl. destruct e as [i| |t]; cbn [step].
  - destruct (items (page l) !! i) as [it|]; [|done].
    destruct (is_pending it); [|done]. by apply begin_attended.
  - destruct (batch_enabled (page l)); [|done].
    destruct (List.filter is_pending (items (page l))) as [|it rest];
      [done|].
    apply begin_attended; [done|apply enter_spec].
  - destruct (tasks l !! t) as [task|] eqn:Ht; [|done].
    assert (Hsettled : ∀ x', x' ∈ items (settle_item (current task)
                                           (page l)) →
              busy x' = true →
              ∃ k task', tasks l !! k = Some task' ∧ k ≠ t ∧
                         ident (current task') = ident x').
    { intros x' Hx' Hb. apply list_elem_of_lookup in Hx' as [k Hk].
      destruct (Forall2_lookup_r _ _ _ _ _
                  (settle_spec (current task) (page l)) Hk)
        as (x & Hx & (Hid & _) & Hbusy).
      destruct (Hbusy Hb) as [Hne Hxb].
      destruct (Hl x) as (task' & Ht' & Hc);
        [apply list_elem_of_lookup; eauto|done|].
      apply list_elem_of_lookup in Ht' as [j Hj].
      exists j, task'. split; [done|]. split; [|congruence].
      intros ->. rewrite Ht in Hj. injection Hj as <-. congruence. }
    destruct (queue task) as [|nxt rest].
    + intros x' Hx' Hb. cbn [page tasks] in *.
      assert (Hin : x' ∈ items (settle_item (current task) (page l))).
      { destruct (is_batch task); [by rewrite leave_spec in Hx'|done]. }
      destruct (Hsettled x' Hin Hb) as (k & task' & Hk & Hne & Hc).
      exists task'. split; [|done].
      apply list_elem_of_lookup.
      destruct (decide (k < t)%nat) as [Hlt|Hge].
      * exists k. by rewrite list_lookup_delete_lt.
      * exists (pred k).
        rewrite list_lookup_delete_ge by lia.
        by replace (S (pred k)) with k by lia.
    + intros x' Hx' Hb. cbn [page tasks] in *.
      apply list_elem_of_lookup in Hx' as [k Hk].
      destruct (Forall2_lookup_r _ _ _ _ _
                  (begin_spec nxt (settle_item (current task) (page l)))
                  Hk)
        as (x & Hx & (Hid & _) & Hbusy).
      rewrite Hid. destruct (Hbusy Hb) as [E|Hxb].
      * eexists. split.
        -- apply list_elem_of_lookup. exists t.
           apply list_lookup_insert_eq.
           by apply lookup_lt_Some in Ht.
        -- by cbn.
      * destruct (Hsettled x) as (j & task' & Hj & Hne & Hc);
          [apply list_elem_of_lookup; eauto|done|].
        exists task'. split; [|done].
        apply list_elem_of_lookup. exists j.
        by rewrite list_lookup_insert_ne.
Qed.

(** From a page at rest, along any sequence of clicks and
    settlements. *)
Lemma history_kept_attended (l0 l : @Loop Item State) (es : list Event) :
  attended items ident busy l0 →
  l ∈ history items is_pending begin_item settle_item batch_enabled
        batch_enter batch_leave l0 es →
  Forall2 (kept is_pending ident fixed)
    (items (page l0)) (items (page l)) ∧
  attended items ident busy l.
Proof using begin_spec settle_spec enter_spec leave_spec.
  intros H0 Hl.
  apply (history_invariant
           (λ l, Forall2 (kept is_pending ident fixed)
                   (items (page l0)) (items (page l)) ∧
                 attended items ident busy l)
           ltac:(intros l1 e [H1 H2]; split;
                 [by apply step_kept|by apply step_attended])
           es l0); [|done].
  split; [apply kept_refl|done].
Qed.

End Invariants.

Section Guard.
Context {Item State : Type}.
Variable items : State → list Item.
Variable is_pending : Item → bool.
Variable begin_item : Item → State → State.
Variable settle_item : Item → State → State.
Variable batch_enabled : State → bool.
Variable batch_enter : State → State.
Variable batch_leave : State → State.
Variable flag : State → bool.

Hypothesis enabled_flag : ∀ st, batch_enabled st = true → flag st = false.
Hypothesis enter_flag : ∀ st, flag (batch_enter st) = true.
Hypothesis leave_flag : ∀ st, flag (batch_leave st) = false.
Hypothesis begin_flag : ∀ it st, flag (begin_item it st) = flag st.
Hypothesis settle_flag : ∀ it st, flag (settle_item it st) = flag st.

Lemma batches_split (ts : list (@Task Item)) (t : nat) (task : Task) :
  ts !! t = Some task →
  length (List.filter is_batch ts)
  = (length (List.filter is_batch (take t ts))
     + (if is_batch task then 1 else 0)
     + length (List.filter is_batch (drop (S t) ts)))%nat.
Proof using Type.
  intros Ht. rewrite <- (take_drop_middle ts t task Ht) at 1.
  rewrite List.filter_app, length_app. cbn [List.filter].
  destruct (is_batch task); cbn [length]; lia.
Qed.

Lemma batches_insert (ts : list (@Task Item)) (t : nat)
    (task task' : Task) :
  ts !! t = Some task → is_batch task' = is_batch task →
  length (List.filter is_batch (<[t := task']> ts))
  = length (List.filter is_batch ts).
Proof using Type.
  intros Ht Hb.
  assert (Ht' : <[t := task']> ts !! t = Some task').
  { apply list_lookup_insert_eq. by apply lookup_lt_Some in Ht. }
  rewrite (batches_split _ t task' Ht'), (batches_split _ t task Ht).
  rewrite take_insert_ge, drop_insert_lt by lia. by rewrite Hb.
Qed.

Lemma batches_delete (ts : list (@Task Item)) (t : nat) (task : Task) :
  ts !! t = Some task →
  length (List.filter is_batch ts)
  = (length (List.filter is_batch (delete t ts))
     + (if is_batch task then 1 else 0))%nat.
Proof using Type.
  intros Ht. rewrite (batches_split _ t task Ht).
  rewrite delete_take_drop, List.filter_app, length_app. lia.
Qed.

Lemma step_guarded (l : @Loop Item State) (e : Event) :
  guarded flag l →
  guarded flag (step items is_pending begin_item settle_item
                  batch_enabled batch_enter batch_leave l e).
Proof using enabled_flag enter_flag leave_flag begin_flag settle_flag.
  unfold guarded, batches. intros Hl.
  destruct e as [i| |t]; cbn [step].
  - destruct (items (page l) !! i) as [it|]; [|done].
    destruct (is_pending it); [|done]. cbn [page tasks].
    rewrite List.filter_app, length_app, begin_flag. cbn. lia.
  - destruct (batch_enabled (page l)) eqn:Hen; [|done].
    destruct (List.filter is_pending (items (page l))) as [|it rest];
      [done|].
    cbn [page tasks].
    rewrite List.filter_app, length_app, begin_flag, enter_flag.
    rewrite (enabled_flag _ Hen) in Hl. rewrite Hl. by cbn.
  - destruct (tasks l !! t) as [task|] eqn:Ht; [|done].
    destruct (queue task) as [|nxt rest]; cbn [page tasks].
    + pose proof (batches_delete _ _ _ Ht) as Hd.
      destruct (is_batch task).
      * rewrite leave_flag. destruct (flag (page l)); lia.
      * rewrite settle_flag. lia.
    + rewrite (batches_insert _ _ task) by done.
      by rewrite begin_flag, settle_flag.
Qed.

End Guard.

(** *** The resize page *)

Lemma resize_update_spec (i : string)
    (f : Resize.ImageFile → Resize.ImageFile) (P : Prop)
    (l : list Resize.ImageFile) :
  (∀ x, Resize.id (f x) = Resize.id x ∧ Resize.file (f x) = Resize.file x ∧
        Resize.status (f x) ≠ Resize.pending ∧
        (resize_busy (f x) = true → P)) →
  Forall2 (λ x x',
             kept Resize.is_pending Resize.id Resize.file x x' ∧
             (resize_busy x' = true →
              (Resize.id x = i ∧ P) ∨
              (Resize.id x ≠ i ∧ resize_busy x = true)))
    l (Resize.update_by_id i f l).
Proof.
  intros Hf. unfold Resize.update_by_id.
  change (map ?g l) with (g <$> l).
  apply Forall2_fmap_r, Forall_Forall2_diag, Forall_forall.
  intros x _. cbn.
  destruct (String.eqb_spec (Resize.id x) i) as [E|E].
  - destruct (Hf x) as (H1 & H2 & H3 & H4).
    split; [|intros Hb; left; by auto].
    split; [done|]. split; [done|]. intros _.
    unfold Resize.is_pending. by apply bool_decide_eq_false.
  - split; [done|]. intros Hb. by right.
Qed.

Lemma resize_begin_spec (it : Resize.ImageFile) (st : Resize.State) :
  Forall2 (λ x x',
             kept Resize.is_pending Resize.id Resize.file x x' ∧
             (resize_busy x' = true →
              Resize.id x = Resize.id it ∨ resize_busy x = true))
    (Resize.imageFiles st)
    (Resize.imageFiles (Resize.resizeSingleImage_begin it st)).
Proof.
  eapply Forall2_impl;
    [apply (resize_update_spec (Resize.id it) Resize.set_resizing True)|].
  - by intros x.
  - intros x y [Hk Hb]. split; [done|]. intros H.
    destruct (Hb H) as [[? _]|[_ ?]]; auto.
Qed.

Lemma resize_settle_spec (br : Browser) (cfg : Resize.Settings)
    (it : Resize.ImageFile) (st : Resize.State) :
  Forall2 (λ x x',
             kept Resize.is_pending Resize.id Resize.file x x' ∧
             (resize_busy x' = true →
              Resize.id x ≠ Resize.id it ∧ resize_busy x = true))
    (Resize.imageFiles st)
    (Resize.imageFiles (Resize.resizeSingleImage_settle br cfg it st)).
Proof.
  unfold Resize.resizeSingleImage_settle.
  destruct (Resize.resizeArgs cfg it) as [w h].
  destruct (Resize.resizeImage _ _ _ _ _ _) as [blob|msg];
    cbn [Resize.imageFiles fst snd createObjectURL];
    (eapply Forall2_impl;
     [apply (resize_update_spec (Resize.id it) _ False); by intros x
     |intros x y [Hk Hb]; split; [done|]; intros H;
      destruct (Hb H) as [[_ []]|?]; done]).
Qed.

(** Clicks and settlements in any order on the resize page: the list
    keeps its items, each with its id and file, and no item goes back to
    [pending]; every item shown as being resized has a handler in flight
    for its id, so with no handler in flight no item is left shown as
    being resized. *)
Theorem resize_interleaving (br : Browser) (cfg : Resize.Settings)
    (l0 l : @Loop Resize.ImageFile Resize.State) (es : list Event) :
  (∀ x, x ∈ Resize.imageFiles (page l0) →
        Resize.status x ≠ Resize.resizing) →
  l ∈ resize_history br cfg l0 es →
  Forall2 (λ x x', Resize.id x' = Resize.id x ∧
                   Resize.file x' = Resize.file x ∧
                   (Resize.status x ≠ Resize.pending →
                    Resize.status x' ≠ Resize.pending))
    (Resize.imageFiles (page l0)) (Resize.imageFiles (page l)) ∧
  (∀ x, x ∈ Resize.imageFiles (page l) →
        Resize.status x = Resize.resizing →
        ∃ task, task ∈ tasks l ∧ Resize.id (current task) = Resize.id x) ∧
  (tasks l = [] →
   ∀ x, x ∈ Resize.imageFiles (page l) →
        Resize.status x ≠ Resize.resizing).
Proof.
  intros H0 Hl.
  destruct (history_kept_attended
              Resize.imageFiles Resize.is_pending
              Resize.resizeSingleImage_begin
              (Resize.resizeSingleImage_settle br cfg)
              (λ st, existsb Resize.is_pending (Resize.imageFiles st))
              (λ st, st) (λ st, st)
              Resize.id Resize.file resize_busy
              resize_begin_spec (resize_settle_spec br cfg)
              (λ _, eq_refl) (λ _, eq_refl) l0 l es)
    as [Hk Ha]; [|exact Hl|].
  { intros x Hx Hb. exfalso. apply (H0 x Hx).
    by apply bool_decide_eq_true in Hb. }
  split; [|split].
  - eapply Forall2_impl; [exact Hk|].
    intros x y (H1 & H2 & H3). split; [done|]. split; [done|].
    intros Hp Hy. unfold Resize.is_pending in H3.
    rewrite bool_decide_eq_false in H3.
    rewrite bool_decide_eq_false in H3. by apply H3.
  - intros x Hx Hs. apply (Ha x Hx). by apply bool_decide_eq_true.
  - intros Hnone x Hx Hs.
    destruct (Ha x Hx) as (task & Ht & _);
      [by apply bool_decide_eq_true|].
    rewrite Hnone in Ht. by apply elem_of_nil in Ht.
Qed.


Lemma resize_interleaving_witness :
  ∃ l, last (resize_history browser_ok Resize.both_empty two_pending
               (overlapping_clicks ++ [Settle 0%nat])) = Some l ∧
       tasks l = [] ∧
       ∀ x, x ∈ Resize.imageFiles (page l) →
            Resize.status x ≠ Resize.resizing.
Proof.
  eexists. split; [vm_compute; reflexivity|]. split; [reflexivity|].
  eapply (resize_interleaving browser_ok Resize.both_empty two_pending _
            (overlapping_clicks ++ [Settle 0%nat])).
  - intros x Hx. cbn in Hx.
    apply elem_of_cons in Hx as [->|Hx]; [discriminate|].
    apply elem_of_cons in Hx as [->|Hx]; [discriminate|].
    by apply elem_of_nil in Hx.
  - apply (list_elem_of_lookup_2 _ 4%nat). vm_compute. reflexivity.
  - reflexivity.
Defined.

(** *** The compress page *)

Lemma compress_update_spec (i : string)
    (f : Compress.ImageFile → Compress.ImageFile) (P : Prop)
    (l : list Compress.ImageFile) :
  (∀ x, Compress.id (f x) = Compress.id x ∧
        Compress.file (f x) = Compress.file x ∧
        Compress.status (f x) ≠ Compress.pending ∧
        (compress_busy (f x) = true → P)) →
  Forall2 (λ x x',
             kept Compress.is_pending Compress.id Compress.file x x' ∧
             (compress_busy x' = true →
              (Compress.id x = i ∧ P) ∨
              (Compress.id x ≠ i ∧ compress_busy x = true)))
    l (Compress.update_by_id i f l).
Proof.
  intros Hf. unfold Compress.update_by_id.
  change (map ?g l) with (g <$> l).
  apply Forall2_fmap_r, Forall_Forall2_diag, Forall_forall.
  intros x _. cbn.
  destruct (String.eqb_spec (Compress.id x) i) as [E|E].
  - destruct (Hf x) as (H1 & H2 & H3 & H4).
    split; [|intros Hb; left; by auto].
    split; [done|]. split; [done|]. intros _.
    unfold Compress.is_pending. by apply bool_decide_eq_false.
  - split; [done|]. intros Hb. by right.
Qed.

Lemma compress_begin_spec (it : Compress.ImageFile) (st : Compress.State) :
  Forall2 (λ x x',
             kept Compress.is_pending Compress.id Compress.file x x' ∧
             (compress_busy x' = true →
              Compress.id x = Compress.id it ∨ compress_busy x = true))
    (Compress.imageFiles st)
    (Compress.imageFiles (Compress.compressSingleImage_begin it st)).
Proof.
  eapply Forall2_impl;
    [apply (compress_update_spec (Compress.id it)
              Compress.set_compressing True)|].
  - by intros x.
  - intros x y [Hk Hb]. split; [done|]. intros H.
    destruct (Hb H) as [[? _]|[_ ?]]; auto.
Qed.

Lemma compress_settle_spec (sf : Compress.Surfaces) (bs : Blob → Z)
    (q : Q) (it : Compress.ImageFile) (st : Compress.State) :
  Forall2 (λ x x',
             kept Compress.is_pending Compress.id Compress.file x x' ∧
             (compress_busy x' = true →
              Compress.id x ≠ Compress.id it ∧ compress_busy x = true))
    (Compress.imageFiles st)
    (Compress.imageFiles
       (Compress.compressSingleImage_settle sf bs q it st)).
Proof.
  unfold Compress.compressSingleImage_settle.
  destruct (Compress.compressImage _ _ _) as [blob|msg];
    cbn [Compress.imageFiles fst snd createObjectURL];
    (eapply Forall2_impl;
     [apply (compress_update_spec (Compress.id it) _ False); by intros x
     |intros x y [Hk Hb]; split; [done|]; intros H;
      destruct (Hb H) as [[_ []]|?]; done]).
Qed.

Lemma compress_settle_flag (sf : Compress.Surfaces) (bs : Blob → Z)
    (q : Q) (it : Compress.ImageFile) (st : Compress.State) :
  Compress.isCompressing
    (Compress.compressSingleImage_settle sf bs q it st)
  = Compress.isCompressing st.
Proof.
  unfold Compress.compressSingleImage_settle.
  by destruct (Compress.compressImage _ _ _).
Qed.

Lemma compress_enabled_flag (st : Compress.State) :
  existsb Compress.is_pending (Compress.imageFiles st)
  && negb (Compress.isCompressing st) = true →
  Compress.isCompressing st = false.
Proof.
  intros H. apply andb_true_iff in H as [_ H].
  by apply negb_true_iff in H.
Qed.

(** Clicks and settlements in any order on the compress page: the list
    keeps its items, each with its id and file, and no item goes back to
    [pending]; every item shown as being compressed has a handler in
    flight for its id; and the flag that disables the batch button is up
    exactly while a batch handler is in flight, so that two batch
    handlers never run at once. *)
Theorem compress_interleaving (sf : Compress.Surfaces) (bs : Blob → Z)
    (q : Q) (l0 l : @Loop Compress.ImageFile Compress.State)
    (es : list Event) :
  tasks l0 = [] → Compress.isCompressing (page l0) = false →
  (∀ x, x ∈ Compress.imageFiles (page l0) →
        Compress.status x ≠ Compress.compressing) →
  l ∈ compress_history sf bs q l0 es →
  Forall2 (λ x x', Compress.id x' = Compress.id x ∧
                   Compress.file x' = Compress.file x ∧
                   (Compress.status x ≠ Compress.pending →
                    Compress.status x' ≠ Compress.pending))
    (Compress.imageFiles (page l0)) (Compress.imageFiles (page l)) ∧
  (∀ x, x ∈ Compress.imageFiles (page l) →
        Compress.status x = Compress.compressing →
        ∃ task, task ∈ tasks l ∧
                Compress.id (current task) = Compress.id x) ∧
  (batches l ≤ 1)%nat ∧
  (Compress.isCompressing (page l) = true ↔ batches l = 1%nat).
Proof.
  intros Ht0 Hf0 H0 Hl.
  destruct (history_kept_attended
              Compress.imageFiles Compress.is_pending
              Compress.compressSingleImage_begin
              (Compress.compressSingleImage_settle sf bs q)
              (λ st, existsb Compress.is_pending (Compress.imageFiles st)
                     && negb (Compress.isCompressing st))
              (Compress.setIsCompressing true)
              (Compress.setIsCompressing false)
              Compress.id Compress.file compress_busy
              compress_begin_spec (compress_settle_spec sf bs q)
              (λ _, eq_refl) (λ _, eq_refl) l0 l es)
    as [Hk Ha]; [|exact Hl|].
  { intros x Hx Hb. exfalso. apply (H0 x Hx).
    by apply bool_decide_eq_true in Hb. }
  assert (Hg : guarded Compress.isCompressing l).
  { apply (history_invariant
             Compress.imageFiles Compress.is_pending
             Compress.compressSingleImage_begin
             (Compress.compressSingleImage_settle sf bs q)
             (λ st, existsb Compress.is_pending (Compress.imageFiles st)
                    && negb (Compress.isCompressing st))
             (Compress.setIsCompressing true)
             (Compress.setIsCompressing false)
             (guarded Compress.isCompressing)
             (λ l1 e, step_guarded
                        Compress.imageFiles Compress.is_pending
                        Compress.compressSingleImage_begin
                        (Compress.compressSingleImage_settle sf bs q)
                        (λ st, existsb Compress.is_pending
                                 (Compress.imageFiles st)
                               && negb (Compress.isCompressing st))
                        (Compress.setIsCompressing true)
                        (Compress.setIsCompressing false)
                        Compress.isCompressing
                        compress_enabled_flag (λ _, eq_refl)
                        (λ _, eq_refl) (λ _ _, eq_refl)
                        (compress_settle_flag sf bs q) l1 e)
             es l0); [|exact Hl].
    unfold guarded, batches. by rewrite Ht0, Hf0. }
  split; [|split; [|split]].
  - eapply Forall2_impl; [exact Hk|].
    intros x y (H1 & H2 & H3). split; [done|]. split; [done|].
    intros Hp Hy. unfold Compress.is_pending in H3.
    rewrite bool_decide_eq_false in H3.
    rewrite bool_decide_eq_false in H3. by apply H3.
  - intros x Hx Hs. apply (Ha x Hx). by apply bool_decide_eq_true.
  - unfold guarded in Hg. rewrite Hg.
    destruct (Compress.isCompressing (page l)); lia.
  - unfold guarded in Hg. rewrite Hg.
    destruct (Compress.isCompressing (page l)); split; done.
Qed.

Lemma compress_interleaving_witness :
  ∃ l, last (compress_history Compress.surfaces_ok (λ _, 1) (7 # 10)
               two_pending_compress [ClickAll; ClickAll; ClickItem 1%nat])
       = Some l ∧
       batches l = 1%nat ∧ length (tasks l) = 2%nat.
Proof.
  eexists. split; [vm_compute; reflexivity|].
  split; [|reflexivity].
  eapply (compress_interleaving Compress.surfaces_ok (λ _, 1) (7 # 10)
            two_pending_compress _
            [ClickAll; ClickAll; ClickItem 1%nat]).
  - reflexivity.
  - reflexivity.
  - intros x Hx. cbn in Hx.
    apply elem_of_cons in Hx as [->|Hx]; [discriminate|].
    apply elem_of_cons in Hx as [->|Hx]; [discriminate|].
    by apply elem_of_nil in Hx.
  - apply (list_elem_of_lookup_2 _ 2%nat). vm_compute. reflexivity.
  - reflexivity.
Defined.

End InterleavingFacts.

(** ** Settlement, names and release of URLs *)

Module SettleFacts.
Import DOM.

Lemma canvas_side_of_bounds (dflt : Z) (n : JS.Number) :
  0 ≤ dflt ≤ 2 ^ 31 - 1 → 0 ≤ canvas_side_of dflt n ≤ 2 ^ 31 - 1.
Proof.
  intros Hd. destruct n as [x|s|]; cbn [canvas_side_of]; [|lia|lia].
  by apply NumberFacts.canvas_side_bounds.
Qed.

(** [resizeImage] resolves exactly when the file decodes, the canvas
    gives its context and the encoder gives a blob.  The encoder is asked
    for the type of the upload and the quality of the form: the blob has
    the type of the upload when the browser encodes that type, and is a
    PNG otherwise.  Its sides are those of a canvas, between 0 and
    [2^31 - 1].  Each failure has its own message. *)
Theorem resizeImage_settles (br : Browser) (encodes : string → bool)
    (q : Q) (f : Resize.File) (w h : option Z) (m : bool) :
  ((∃ blob, Resize.resizeImage br q f w h m = resolve blob) ↔
   is_Some (Resize.bitmap f) ∧ getContext2d br = true ∧
   toBlob_ok br = true) ∧
  (∀ blob, Resize.resizeImage br q f w h m = resolve blob →
     b_type blob = Resize.type f ∧ b_quality blob = q ∧
     blob_type encodes blob
     = (if encodes (Resize.type f) then Resize.type f else "image/png") ∧
     (encodes (Resize.type f) = false →
      blob_type encodes blob = "image/png") ∧
     0 ≤ b_width blob ≤ 2 ^ 31 - 1 ∧ 0 ≤ b_height blob ≤ 2 ^ 31 - 1) ∧
  (∀ msg, Resize.resizeImage br q f w h m = reject msg →
     msg = (if Resize.bitmap f is None then "Error al cargar la imagen"
            else if negb (getContext2d br)
                 then "No se pudo obtener el contexto del canvas"
                 else "Error al crear el blob")).
Proof.
  unfold Resize.resizeImage.
  destruct (Resize.bitmap f) as [img|].
  2: { split; [|split]; [|done|by intros msg [= <-]].
       split; [by intros [blob H]|]. by intros [[x Hx] _]. }
  destruct (if m && _ then _ else _) as [fw fh].
  pose proof (canvas_side_of_bounds default_width fw) as Hw.
  pose proof (canvas_side_of_bounds default_height fh) as Hh.
  destruct (getContext2d br), (toBlob_ok br); cbn [negb];
    (split; [|split]);
    try (split; [by intros [blob H]|by intros (_ & H1 & H2)]);
    try done; try (by intros msg [= <-]);
    try (split; [done|]; intros _; by eexists).
  intros blob [= <-]. unfold blob_type.
  cbn [b_type b_quality b_width b_height].
  split; [done|]. split; [done|]. split; [done|].
  split; [by intros ->|]. split; [apply Hw|apply Hh]; by vm_compute.
Qed.

(** An upload of type [image/gif], in a browser that encodes PNG, JPEG
    and WEBP: the blob is a PNG. *)
Lemma resizeImage_gif_becomes_png :
  ∃ blob,
    Resize.resizeImage browser_ok (9 # 10)
      (Samples.photo "clip.gif" "image/gif" 64 48) None None true
    = resolve blob ∧
    b_type blob = "image/gif" ∧
    blob_type encodes_common blob = "image/png".
Proof. eexists. split; [vm_compute; reflexivity|]. by split. Qed.

(** [compressImage] resolves exactly when the file decodes, the canvas
    gives its context and the encoder gives a blob; the blob has the
    pixel size of the source and one of three types, and each failure
    has its own message, the same whatever the quality. *)
Theorem compressImage_settles (sf : Compress.Surfaces) (f : Compress.File)
    (q : Q) :
  ((∃ blob, Compress.compressImage sf f q = resolve blob) ↔
   is_Some (Compress.bitmap f) ∧ Compress.ctx sf = true ∧
   Compress.blob_ok sf = true) ∧
  (∀ blob, Compress.compressImage sf f q = resolve blob →
     Some (b_width blob) = Compress.width <$> Compress.bitmap f ∧
     Some (b_height blob) = Compress.height <$> Compress.bitmap f ∧
     b_type blob ∈ ["image/png"; "image/jpeg"; "image/webp"]) ∧
  (∀ msg, Compress.compressImage sf f q = reject msg →
     msg = (if Compress.bitmap f is None then "Error al cargar la imagen"
            else if negb (Compress.ctx sf)
                 then "No se pudo obtener el contexto del canvas"
                 else "Error al crear el blob")).
Proof.
  unfold Compress.compressImage.
  destruct (Compress.bitmap f) as [img|].
  2: { split; [|split]; [|done|by intros msg [= <-]].
       split; [by intros [blob H]|]. by intros [[x Hx] _]. }
  destruct (Compress.ctx sf); cbn [negb].
  2: { split; [|split]; [|done|by intros msg [= <-]].
       split; [by intros [blob H]|]. by intros (_ & H & _). }
  assert (Ht : ∀ p : string * Q,
            p = (if String.eqb (JS.toLowerCase (Compress.type f))
                      "image/png"
                 then if Compress.tempCtx sf
                      then if Compress.hasTransparency (Compress.data img)
                           then ("image/png",
                                 JS.Math_max (1 # 10) (q * (9 # 10)))
                           else ("image/jpeg", q)
                      else ("image/jpeg", q)
                 else if String.eqb (JS.toLowerCase (Compress.type f))
                           "image/webp"
                      then ("image/webp", q)
                      else if JS.includes "jpeg"
                                (JS.toLowerCase (Compress.type f))
                              || JS.includes "jpg"
                                   (JS.toLowerCase (Compress.type f))
                           then ("image/jpeg", q)
                           else ("image/jpeg", q)) →
            p.1 ∈ ["image/png"; "image/jpeg"; "image/webp"]).
  { intros p ->.
    repeat match goal with
           | |- context [if ?b then _ else _] => destruct b
           end; cbn; rewrite !elem_of_cons; tauto. }
  destruct (if String.eqb _ _ then _ else _) as [mime oq] eqn:E.
  specialize (Ht _ eq_refl). cbn in Ht.
  destruct (Compress.blob_ok sf).
  - split; [|split]; [|by intros blob [= <-]|done].
    split; [done|]. intros _. by eexists.
  - split; [|split]; [|done|by intros msg [= <-]].
    split; [by intros [blob H]|]. by intros (_ & _ & H).
Qed.

End SettleFacts.

Module EntryNameFacts.
Import DOM.

Lemma parts_with_extension (base ext : string) :
  (∀ c, In c (list_ascii_of_string ext) → c ≠ "."%char) →
  let parts := JS.split "." (base +:+ "." +:+ ext) in
  JS.join "." (removelast parts) = base ∧
  List.last parts "undefined" = ext.
Proof.
  intros Hext parts. subst parts.
  change (base +:+ "." +:+ ext) with (base +:+ String "." ext).
  rewrite NameFacts.split_app, (NameFacts.split_plain _ ext Hext).
  rewrite removelast_last, last_last.
  change "."%string with (String "." EmptyString).
  by rewrite NameFacts.join_split.
Qed.

Lemma parts_without_dot (n : string) :
  (∀ c, In c (list_ascii_of_string n) → c ≠ "."%char) →
  let parts := JS.split "." n in
  JS.join "." (removelast parts) = EmptyString ∧
  List.last parts "undefined" = n.
Proof. intros Hn parts. subst parts. by rewrite NameFacts.split_plain. Qed.

(** The archive entry of a resized item: the name of the upload with
    the target size put before its last extension; an upload whose name
    has no dot gets its whole name as the extension of a name that
    starts with the underscore. *)
Theorem resize_entryName_shape (it : Resize.ImageFile)
    (base ext : string) :
  (∀ c, In c (list_ascii_of_string ext) → c ≠ "."%char) →
  let suffix := "_" +:+ JS.show (Resize.targetWidth it) +:+ "x"
                +:+ JS.show (Resize.targetHeight it) +:+ "." +:+ ext in
  (Resize.name (Resize.file it) = base +:+ "." +:+ ext →
   Resize.entryName it = base +:+ suffix) ∧
  (Resize.name (Resize.file it) = ext →
   Resize.entryName it = suffix).
Proof.
  intros Hext suffix. unfold Resize.entryName. split; intros ->.
  - by destruct (parts_with_extension base ext Hext) as [-> ->].
  - by destruct (parts_without_dot ext Hext) as [-> ->].
Qed.

Lemma resize_entryName_shape_witness :
  Resize.entryName (Samples.resized "holiday.2024.jpg")
  = "holiday.2024_320x240.jpg" ∧
  Resize.entryName (Samples.resized "scan") = "_320x240.scan".
Proof.
  split.
  - apply (resize_entryName_shape (Samples.resized "holiday.2024.jpg")
             "holiday.2024" "jpg"); [|reflexivity].
    intros c Hc. cbn in Hc.
    repeat (destruct Hc as [Hc|Hc]; [by rewrite <- Hc|]). done.
  - apply (resize_entryName_shape (Samples.resized "scan") EmptyString
           "scan");
      [|reflexivity].
    intros c Hc. cbn in Hc.
    repeat (destruct Hc as [Hc|Hc]; [by rewrite <- Hc|]). done.
Defined.

(** The name of a compressed download: [_compressed] is put before the
    last extension of the upload; an upload whose name has no dot gets
    its whole name as the extension. *)
Theorem compress_entryName_shape (it : Compress.ImageFile)
    (base ext : string) :
  (∀ c, In c (list_ascii_of_string ext) → c ≠ "."%char) →
  (Compress.name (Compress.file it) = base +:+ "." +:+ ext →
   CompressPage.entryName it = base +:+ "_compressed." +:+ ext) ∧
  (Compress.name (Compress.file it) = ext →
   CompressPage.entryName it = "_compressed." +:+ ext).
Proof.
  intros Hext. unfold CompressPage.entryName. split; intros ->.
  - by destruct (parts_with_extension base ext Hext) as [-> ->].
  - by destruct (parts_without_dot ext Hext) as [-> ->].
Qed.

Lemma compress_entryName_shape_witness :
  CompressPage.entryName (Samples.compressed "a.tar.gz")
  = "a.tar_compressed.gz" ∧
  CompressPage.entryName (Samples.compressed "README")
  = "_compressed.README".
Proof.
  split.
  - apply (compress_entryName_shape (Samples.compressed "a.tar.gz")
             "a.tar" "gz"); [|reflexivity].
    intros c Hc. cbn in Hc.
    repeat (destruct Hc as [Hc|Hc]; [by rewrite <- Hc|]). done.
  - apply (compress_entryName_shape (Samples.compressed "README")
             EmptyString "README"); [|reflexivity].
    intros c Hc. cbn in Hc.
    repeat (destruct Hc as [Hc|Hc]; [by rewrite <- Hc|]). done.
Defined.

End EntryNameFacts.

Module CompressReleaseFacts.
Import DOM Compress CompressPage.

Lemma revoke_fold (l : list ImageFile) (u : ObjectURLs) (k : URL) :
  fetch_blob
    (fold_left (λ u f, match compressedUrl f with
                       | Some url => revokeObjectURL u url
                       | None => u
                       end) l u) k
  = if existsb (λ f, bool_decide (compressedUrl f = Some k)) l
    then None else fetch_blob u k.
Proof.
  revert u. induction l as [|f l IH]; intros u; [done|].
  cbn [fold_left existsb]. rewrite IH.
  destruct (existsb _ l); [by rewrite orb_true_r|]. rewrite orb_false_r.
  destruct (compressedUrl f) as [url|].
  - unfold fetch_blob, revokeObjectURL. cbn [registry].
    destruct (decide (url = k)) as [->|Hne].
    + rewrite bool_decide_eq_true_2 by done. apply lookup_delete_eq.
    + rewrite bool_decide_eq_false_2 by congruence.
      by apply lookup_delete_ne.
  - by rewrite bool_decide_eq_false_2.
Qed.

(** Clearing the compress page empties the list and revokes exactly the
    URLs its items hold; removing an item takes every item with that id
    off the list, keeps the others in order, and revokes the URL of the
    first item with that id and no other. *)
Theorem compress_release (st : State) (i : string) (k : URL) :
  imageFiles (handleClear st) = [] ∧
  fetch_blob (urls (handleClear st)) k
  = (if existsb (λ f, bool_decide (compressedUrl f = Some k))
          (imageFiles st)
     then None else fetch_blob (urls st) k) ∧
  imageFiles (handleRemove i st)
  = List.filter (λ img, negb (String.eqb (id img) i)) (imageFiles st) ∧
  fetch_blob (urls (handleRemove i st)) k
  = (if bool_decide
          (List.find (λ img, String.eqb (id img) i) (imageFiles st)
             ≫= compressedUrl = Some k)
     then None else fetch_blob (urls st) k).
Proof.
  split; [done|]. split; [apply revoke_fold|]. split; [done|].
  unfold handleRemove. cbn [urls].
  destruct (List.find _ _) as [f|]; cbn [mbind option_bind];
    [|by rewrite bool_decide_eq_false_2].
  destruct (compressedUrl f) as [url|];
    [|by rewrite bool_decide_eq_false_2].
  unfold fetch_blob, revokeObjectURL. cbn [registry].
  destruct (decide (url = k)) as [->|Hne].
  - rewrite bool_decide_eq_true_2 by done. apply lookup_delete_eq.
  - rewrite bool_decide_eq_false_2 by congruence.
    by apply lookup_delete_ne.
Qed.

End CompressReleaseFacts.
